(** * OoperLooper: the metronome scheduler and the loop station

    A shallow embedding of the core of the in-browser workstation
    (classes [Metronome], [AudioEngine], [LoopSlot] and [LoopStation] of the
    application script), with the properties of the lookahead scheduler and
    of the loop-slot state machine.

    Conventions of the embedding.
    - The numbers of the scheduler are given twice.  Module [Metronome]
      takes them as exact rationals [Q]; it serves for the first pass
      after a start and for the stop, and there the quotient [60 / bpm]
      is only meaningful for [bpm] different from 0.  Module
      [Metronome64] takes them as the code has them, binary64 numbers
      with every sum and quotient rounded; it serves for what
      [nextNoteTime] becomes, for the trigger times, and for the passes
      that end or do not.
    - A method that mutates [this] is a function from the old object to the
      new one.  Objects shared through a reference (the [MediaRecorder]s,
      which the browser keeps alive and calls back) live in an explicit
      store indexed by allocation order.
    - Callbacks that the browser runs later ([setTimeout], the recorder's
      [dataavailable] and [stop] events) are events of a trace; a handler is
      never interrupted by another one.
    - A plain object used as a table is a finite map of its own entries,
      read through [get], which also finds what the object inherits.
    - DOM updates ([updateUI], class toggling) only write to the page and
      are not part of the state. *)

From Stdlib Require Import Strings.String Strings.Byte DecimalString.
From stdpp Require Import base list strings gmap.
From Stdlib Require Import QArith Qround Qminmax Lqa Lia.
From Stdlib Require Import Floats.SpecFloat.

(** ** The lookahead scheduler (class [Metronome]) *)

Module Metronome.

Local Open Scope Q_scope.

(** [timerID] is [Some due] while a timeout is armed: the callback runs no
    earlier than clock time [due] (seconds); [None] once it was cleared or
    before the first arming. *)
Record Metronome := mkMetronome {
  isPlaying : bool;
  bpm : Q;
  nextNoteTime : Q;
  timerID : option Q;
  lookahead : Q;           (* milliseconds *)
  scheduleAheadTime : Q    (* seconds *)
}.

(** The constructor. *)
Definition new_Metronome : Metronome :=
  {| isPlaying := false; bpm := 120; nextNoteTime := 0; timerID := None;
     lookahead := 25; scheduleAheadTime := 1 # 10 |}.

Definition set_nextNoteTime (t : Q) (m : Metronome) : Metronome :=
  {| isPlaying := isPlaying m; bpm := bpm m; nextNoteTime := t;
     timerID := timerID m; lookahead := lookahead m;
     scheduleAheadTime := scheduleAheadTime m |}.

Definition set_isPlaying (b : bool) (m : Metronome) : Metronome :=
  {| isPlaying := b; bpm := bpm m; nextNoteTime := nextNoteTime m;
     timerID := timerID m; lookahead := lookahead m;
     scheduleAheadTime := scheduleAheadTime m |}.

Definition set_timerID (t : option Q) (m : Metronome) : Metronome :=
  {| isPlaying := isPlaying m; bpm := bpm m; nextNoteTime := nextNoteTime m;
     timerID := t; lookahead := lookahead m;
     scheduleAheadTime := scheduleAheadTime m |}.

Definition secondsPerBeat (m : Metronome) : Q := 60 / bpm m.

(** [nextNote]: advance by one beat. *)
Definition nextNote (m : Metronome) : Metronome :=
  set_nextNoteTime (nextNoteTime m + secondsPerBeat m) m.

(** The test of the [while] loop, [a < b] on numbers. *)
Definition Qltb (a b : Q) : bool := negb (Qle_bool b a).

(** The [while] loop of [scheduler], at clock reading [now] (the audio
    clock does not move while a handler runs).  Each turn hands
    [nextNoteTime] to [scheduleNote], recorded here as an emitted trigger
    time, and calls [nextNote].  [None] stands for a loop still running
    after [fuel] turns. *)
Fixpoint scheduler_loop (fuel : nat) (now : Q) (m : Metronome)
  : option (Metronome * list Q) :=
  if Qltb (nextNoteTime m) (now + scheduleAheadTime m) then
    match fuel with
    | O => None
    | S fuel' =>
        match scheduler_loop fuel' now (nextNote m) with
        | Some (m', evs) => Some (m', nextNoteTime m :: evs)
        | None => None
        end
    end
  else Some (m, []).

(** Turns that suffice when a beat lasts a positive time. *)
Definition pass_fuel (now : Q) (m : Metronome) : nat :=
  Z.to_nat
    (Qceiling ((now + scheduleAheadTime m - nextNoteTime m) / secondsPerBeat m)).

(** [scheduler]: one scheduling pass, then [setTimeout] with the
    [lookahead] delay. *)
Definition scheduler (now : Q) (m : Metronome) : option (Metronome * list Q) :=
  match scheduler_loop (pass_fuel now m) now m with
  | Some (m', evs) =>
      Some (set_timerID (Some (now + lookahead m' / 1000)) m', evs)
  | None => None
  end.

(** [toggle], called at clock reading [now]; the boolean it returns to the
    click handler is [isPlaying] of the result. *)
Definition toggle (now : Q) (m : Metronome) : option (Metronome * list Q) :=
  let m1 := set_isPlaying (negb (isPlaying m)) m in
  if isPlaying m1 then scheduler now (set_nextNoteTime now m1)
  else Some (set_timerID None m1, []).

(** What happens to a metronome: the user clicks its button, or the armed
    timeout runs [scheduler].  A timeout cannot run while none is armed or
    before it is due; such an event leaves everything as it is. *)
Inductive Event :=
| Click (now : Q)
| Timeout (now : Q).

Definition exec (ev : Event) (m : Metronome) : option (Metronome * list Q) :=
  match ev with
  | Click now => toggle now m
  | Timeout now =>
      match timerID m with
      | Some due => if Qle_bool due now then scheduler now m else Some (m, [])
      | None => Some (m, [])
      end
  end.

(** A trace of events, with the trigger times emitted along it in order. *)
Fixpoint run (tr : list Event) (m : Metronome) : option (Metronome * list Q) :=
  match tr with
  | [] => Some (m, [])
  | ev :: tr' =>
      match exec ev m with
      | Some (m1, evs1) =>
          match run tr' m1 with
          | Some (m2, evs2) => Some (m2, evs1 ++ evs2)
          | None => None
          end
      | None => None
      end
  end.

(** Beat arithmetic: the first [n] trigger times from [t] with step [d],
    and the time reached after [n] steps. *)
Fixpoint beats (t d : Q) (n : nat) : list Q :=
  match n with
  | O => []
  | S n' => t :: beats (t + d) d n'
  end.

Fixpoint advance (t d : Q) (n : nat) : Q :=
  match n with
  | O => t
  | S n' => advance (t + d) d n'
  end.

End Metronome.

(** ** The loop station (classes [AudioEngine], [LoopSlot], [LoopStation]) *)

Module Looper.

(** Recorded audio: the [data] of a [dataavailable] event, and the [Blob]
    built from a list of such parts, which is their concatenation. *)
Definition Blob := list Byte.byte.

Definition new_Blob (parts : list Blob) : Blob := List.concat parts.

(** [URL.createObjectURL blob]: a handle on [blob]; as a string it is never
    empty, so a slot's [audioUrl] is falsy exactly when it is [null]. *)
Inductive ObjectURL := blob_url (b : Blob).

Inductive Error := TypeError.

Inductive Completion := normal | throw (e : Error).

(** *** The audio engine *)

(** Of [AudioEngine], the nodes the loop station depends on:
    [recordDest], the stream destination every recorder taps (the synth bus
    is connected to it in [init]), and [micNode], the microphone source
    connected to it once the user grants access. *)
Record AudioEngine := mkAudioEngine {
  initialized : bool;
  recordDest : option unit;
  micNode : option unit
}.

Definition new_AudioEngine : AudioEngine :=
  {| initialized := false; recordDest := None; micNode := None |}.

(** [init], up to the point where it starts [setupMic] without waiting
    for it. *)
Definition init (a : AudioEngine) : AudioEngine :=
  if initialized a then a
  else {| initialized := true; recordDest := Some (); micNode := micNode a |}.

(** The answer to [getUserMedia]. *)
Inductive UserMedia := granted | denied.

(** [setupMic], once [getUserMedia] has answered: the new engine and the
    [alert] shown to the user, if any. *)
Definition setupMic (answer : UserMedia) (a : AudioEngine)
  : AudioEngine * option string :=
  match answer with
  | granted =>
      ({| initialized := initialized a; recordDest := recordDest a;
          micNode := Some () |}, None)
  | denied => (a, Some "Microphone Access Required for Recording!"%string)
  end.

(** *** Recorders *)

Inductive RecordingState := inactive | rec_recording.

#[global] Instance RecordingState_eq_dec : EqDecision RecordingState.
Proof. solve_decision. Defined.

(** A [MediaRecorder] made by slot [owner], whose handlers close over that
    slot.  [stop_queued] holds from the call of [stop] on a recording
    recorder until the browser has fired its [stop] event. *)
Record MediaRecorder := mkMediaRecorder {
  owner : nat;
  rstate : RecordingState;
  stop_queued : bool
}.

(** [recorder.stop()]: nothing on an inactive recorder; otherwise the
    recorder becomes inactive at once and the events [dataavailable] and
    [stop] are queued. *)
Definition MediaRecorder_stop (r : MediaRecorder) : MediaRecorder :=
  match rstate r with
  | inactive => r
  | rec_recording =>
      {| owner := owner r; rstate := inactive; stop_queued := true |}
  end.

Definition stop_fired (r : MediaRecorder) : MediaRecorder :=
  {| owner := owner r; rstate := rstate r; stop_queued := false |}.

(** A recorder can still deliver data while it records or while its stop
    is queued. *)
Definition delivers (r : MediaRecorder) : bool :=
  match rstate r with
  | rec_recording => true
  | inactive => stop_queued r
  end.

(** *** Loop slots *)

Inductive SlotState := empty | recording | playing | stopped.

#[global] Instance SlotState_eq_dec : EqDecision SlotState.
Proof. solve_decision. Defined.

(** The slot's [Audio] element. *)
Record AudioEl := mkAudioEl {
  src : option ObjectURL;
  currentTime : Q;
  paused : bool;
  loop : bool
}.

(** [recorder] is a reference into the store of recorders; [slider] is the
    value of the slot's volume input on the page. *)
Record LoopSlot := mkLoopSlot {
  index : nat;
  state : SlotState;
  chunks : list Blob;
  audioUrl : option ObjectURL;
  audioEl : AudioEl;
  gainNode : option Q;
  slider : Q;
  recorder : option nat
}.

(** The constructor; [volume] is what the page's slider shows at load. *)
Definition new_LoopSlot (index : nat) (volume : Q) : LoopSlot :=
  {| index := index; state := empty; chunks := []; audioUrl := None;
     audioEl := {| src := None; currentTime := 0; paused := true;
                   loop := true |};
     gainNode := None; slider := volume; recorder := None |}.

Definition set_state (st : SlotState) (s : LoopSlot) : LoopSlot :=
  {| index := index s; state := st; chunks := chunks s;
     audioUrl := audioUrl s; audioEl := audioEl s; gainNode := gainNode s;
     slider := slider s; recorder := recorder s |}.

Definition set_chunks (cs : list Blob) (s : LoopSlot) : LoopSlot :=
  {| index := index s; state := state s; chunks := cs;
     audioUrl := audioUrl s; audioEl := audioEl s; gainNode := gainNode s;
     slider := slider s; recorder := recorder s |}.

Definition set_audioUrl (u : option ObjectURL) (s : LoopSlot) : LoopSlot :=
  {| index := index s; state := state s; chunks := chunks s;
     audioUrl := u; audioEl := audioEl s; gainNode := gainNode s;
     slider := slider s; recorder := recorder s |}.

Definition set_audioEl (e : AudioEl) (s : LoopSlot) : LoopSlot :=
  {| index := index s; state := state s; chunks := chunks s;
     audioUrl := audioUrl s; audioEl := e; gainNode := gainNode s;
     slider := slider s; recorder := recorder s |}.

Definition set_gainNode (g : option Q) (s : LoopSlot) : LoopSlot :=
  {| index := index s; state := state s; chunks := chunks s;
     audioUrl := audioUrl s; audioEl := audioEl s; gainNode := g;
     slider := slider s; recorder := recorder s |}.

Definition set_slider (v : Q) (s : LoopSlot) : LoopSlot :=
  {| index := index s; state := state s; chunks := chunks s;
     audioUrl := audioUrl s; audioEl := audioEl s; gainNode := gainNode s;
     slider := v; recorder := recorder s |}.

Definition set_recorder (r : option nat) (s : LoopSlot) : LoopSlot :=
  {| index := index s; state := state s; chunks := chunks s;
     audioUrl := audioUrl s; audioEl := audioEl s; gainNode := gainNode s;
     slider := slider s; recorder := r |}.

(** [audioEl.pause(); audioEl.currentTime = 0]. *)
Definition pause_rewind (e : AudioEl) : AudioEl :=
  {| src := src e; currentTime := 0; paused := true; loop := loop e |}.

(** [audioEl.src = url; audioEl.currentTime = 0; audioEl.play()]. *)
Definition play_from_start (url : ObjectURL) (e : AudioEl) : AudioEl :=
  {| src := Some url; currentTime := 0; paused := false; loop := loop e |}.

(** [play]. *)
Definition play (s : LoopSlot) : LoopSlot :=
  match audioUrl s with
  | None => s
  | Some url =>
      let s1 :=
        match gainNode s with
        | None => set_gainNode (Some (slider s)) s
        | Some _ => s
        end in
      set_state playing (set_audioEl (play_from_start url (audioEl s1)) s1)
  end.

(** [stop]. *)
Definition stop (s : LoopSlot) : LoopSlot :=
  let s1 := set_audioEl (pause_rewind (audioEl s)) s in
  if decide (state s1 = empty) then s1 else set_state stopped s1.

(** [clear]. *)
Definition clear (s : LoopSlot) : LoopSlot :=
  set_state empty (set_audioUrl None (stop s)).

(** The handler [recorder.ondataavailable] of a slot. *)
Definition ondataavailable (data : Blob) (s : LoopSlot) : LoopSlot :=
  set_chunks (chunks s ++ [data]) s.

(** The handler [recorder.onstop] of a slot. *)
Definition onstop (s : LoopSlot) : LoopSlot :=
  let blob := new_Blob (chunks s) in
  play (set_state playing (set_audioUrl (Some (blob_url blob)) s)).

(** [startRecording], with the engine [a] behind [this.app.audio] and the
    store [rs] of the recorders made so far.  Reading [recordDest.stream]
    throws while the engine has no [recordDest]. *)
Definition startRecording (a : AudioEngine) (s : LoopSlot)
    (rs : list MediaRecorder) : Completion * LoopSlot * list MediaRecorder :=
  let s1 := set_chunks [] s in
  match recordDest a with
  | None => (throw TypeError, s1, rs)
  | Some _ =>
      let r := {| owner := index s; rstate := rec_recording;
                  stop_queued := false |} in
      (normal, set_state recording (set_recorder (Some (length rs)) s1),
       rs ++ [r])
  end.

(** [stopRecording]: only the slot's recorder changes. *)
Definition stopRecording (s : LoopSlot) (rs : list MediaRecorder)
  : list MediaRecorder :=
  match recorder s with
  | Some id =>
      if decide (state s = recording) then alter MediaRecorder_stop id rs
      else rs
  | None => rs
  end.

(** [toggle]. *)
Definition toggle (a : AudioEngine) (s : LoopSlot) (rs : list MediaRecorder)
  : Completion * LoopSlot * list MediaRecorder :=
  if decide (state s = recording) then (normal, s, stopRecording s rs)
  else startRecording a s rs.

(** *** The station *)

(** [audio] is [app.audio], [slots] the array of the [LoopStation], and
    [recorders] the recorders made so far, in order of creation. *)
Record World := mkWorld {
  audio : AudioEngine;
  slots : list LoopSlot;
  recorders : list MediaRecorder
}.

(** The station as the application builds it, on an engine [a]. *)
Definition new_LoopStation (a : AudioEngine) (volume : nat -> Q) : World :=
  {| audio := a;
     slots := [new_LoopSlot 0 (volume 0%nat); new_LoopSlot 1 (volume 1%nat);
               new_LoopSlot 2 (volume 2%nat)];
     recorders := [] |}.

(** The application's station right after start-up: the engine is
    initialized, the microphone prompt not answered yet, every slider at
    full volume. *)
Definition fresh_station : World :=
  new_LoopStation (init new_AudioEngine) (fun _ => 1%Q).

(** The [forEach] of [toggleRecord] over the slots from position [i] on. *)
Fixpoint stop_others (idx i : nat) (ss : list LoopSlot)
    (rs : list MediaRecorder) : list MediaRecorder :=
  match ss with
  | [] => rs
  | s :: ss' =>
      stop_others idx (S i) ss'
        (if decide (i ≠ idx ∧ state s = recording) then stopRecording s rs
         else rs)
  end.

(** [toggleRecord]; [slots[idx]] is [undefined] out of range, and calling
    [toggle] on it throws after the [forEach] has run. *)
Definition toggleRecord (idx : nat) (w : World) : Completion * World :=
  let rs1 := stop_others idx 0 (slots w) (recorders w) in
  match slots w !! idx with
  | None =>
      (throw TypeError,
       {| audio := audio w; slots := slots w; recorders := rs1 |})
  | Some s =>
      let '(c, s', rs2) := toggle (audio w) s rs1 in
      (c, {| audio := audio w; slots := <[idx := s']> (slots w);
             recorders := rs2 |})
  end.

Definition stopAll (w : World) : World :=
  {| audio := audio w; slots := stop <$> slots w; recorders := recorders w |}.

Definition playAll (w : World) : World :=
  {| audio := audio w; slots := play <$> slots w; recorders := recorders w |}.

(** The slider's [oninput] handler of a slot. *)
Definition oninput (v : Q) (s : LoopSlot) : LoopSlot :=
  let s1 := set_slider v s in
  match gainNode s1 with
  | Some _ => set_gainNode (Some v) s1
  | None => s1
  end.

(** The audio element of a slot moved on to position [t] while playing. *)
Definition timeupdate (t : Q) (s : LoopSlot) : LoopSlot :=
  if paused (audioEl s) then s
  else set_audioEl {| src := src (audioEl s); currentTime := t;
                      paused := false; loop := loop (audioEl s) |} s.

(** *** Events *)

(** What the user does ([ToggleRecord], [StopAll], [PlayAll], [Slide]),
    a caller of [clear], and what the browser does: the microphone prompt
    is answered, a recorder fires [dataavailable] or [stop], an audio
    element plays on. *)
Inductive Event :=
| ToggleRecord (idx : nat)
| StopAll
| PlayAll
| Clear (i : nat)
| Slide (i : nat) (v : Q)
| MicAnswer (answer : UserMedia)
| DataAvailable (id : nat) (data : Blob)
| Stopped (id : nat)
| TimeUpdate (i : nat) (t : Q).

Definition with_slots (ss : list LoopSlot) (w : World) : World :=
  {| audio := audio w; slots := ss; recorders := recorders w |}.

(** One event.  An exception thrown by a handler ends the handler and
    leaves the state it reached.  An event of a recorder that cannot fire
    it changes nothing. *)
Definition exec (ev : Event) (w : World) : World :=
  match ev with
  | ToggleRecord idx => snd (toggleRecord idx w)
  | StopAll => stopAll w
  | PlayAll => playAll w
  | Clear i => with_slots (alter clear i (slots w)) w
  | Slide i v => with_slots (alter (oninput v) i (slots w)) w
  | MicAnswer answer =>
      {| audio := fst (setupMic answer (audio w)); slots := slots w;
         recorders := recorders w |}
  | DataAvailable id data =>
      match recorders w !! id with
      | Some r =>
          if delivers r
          then with_slots (alter (ondataavailable data) (owner r) (slots w)) w
          else w
      | None => w
      end
  | Stopped id =>
      match recorders w !! id with
      | Some r =>
          if stop_queued r
          then {| audio := audio w;
                  slots := alter onstop (owner r) (slots w);
                  recorders := <[id := stop_fired r]> (recorders w) |}
          else w
      | None => w
      end
  | TimeUpdate i t => with_slots (alter (timeupdate t) i (slots w)) w
  end.

Definition run (tr : list Event) (w : World) : World :=
  foldl (fun w ev => exec ev w) w tr.

(** *** Observations *)

Definition is_recording (s : LoopSlot) : bool :=
  bool_decide (state s = recording).

(** A slot captures while it is in state [recording] and its recorder is
    recording: no stop was requested yet. *)
Definition capturing (rs : list MediaRecorder) (s : LoopSlot) : bool :=
  is_recording s &&
  match recorder s with
  | Some id =>
      match rs !! id with
      | Some r => bool_decide (rstate r = rec_recording)
      | None => false
      end
  | None => false
  end.

Definition count (P : LoopSlot -> bool) (ss : list LoopSlot) : nat :=
  length (filter (fun s => P s = true) ss).

(** No recorder has a [stop] event queued. *)
Definition quiescent (rs : list MediaRecorder) : Prop :=
  Forall (fun r => stop_queued r = false) rs.

(** *** Invariant of the station *)

(** Every slot sits at the position its [index] names; a slot in state
    [recording] refers to a recorder of its own that records or has its
    stop queued; no two slots capture; an [empty] slot holds no asset. *)
Record Inv (w : World) : Prop := mkInv {
  inv_index : forall j s, slots w !! j = Some s -> index s = j;
  inv_recorder : forall j s,
    slots w !! j = Some s -> state s = recording ->
    exists id r,
      recorder s = Some id /\ recorders w !! id = Some r /\ owner r = j
      /\ (rstate r = rec_recording \/ stop_queued r = true);
  inv_capture : forall i j si sj,
    slots w !! i = Some si -> slots w !! j = Some sj ->
    capturing (recorders w) si = true -> capturing (recorders w) sj = true ->
    i = j;
  inv_empty : forall j s,
    slots w !! j = Some s -> state s = empty -> audioUrl s = None
}.

(** A change to a slot that keeps its [index] and its recorder, does not
    move it into state [recording], and gives no asset to an [empty]
    slot. *)
Definition benign (f : LoopSlot -> LoopSlot) : Prop :=
  forall s,
    index (f s) = index s
    /\ recorder (f s) = recorder s
    /\ (state (f s) = recording -> state s = recording)
    /\ ((state s = empty -> audioUrl s = None) ->
        state (f s) = empty -> audioUrl (f s) = None).

(** [rs'] is [rs] after [stop] was called on some of its recorders. *)
Definition stops_some (rs rs' : list MediaRecorder) : Prop :=
  length rs' = length rs
  /\ forall id r', rs' !! id = Some r' ->
       exists r, rs !! id = Some r /\ (r' = r \/ r' = MediaRecorder_stop r).

End Looper.

(** ** Further notions for the loop station *)

Module LooperNotions.
Import Looper.

(** Recorder [id] records, no stop is queued for it, and no slot in state
    [recording] refers to it: nothing in the station can stop it. *)
Definition orphaned (id : nat) (w : World) : Prop :=
  (exists r, recorders w !! id = Some r /\ rstate r = rec_recording
             /\ stop_queued r = false)
  /\ forall j s, slots w !! j = Some s -> state s = recording ->
                 recorder s <> Some id.

End LooperNotions.

(** ** Notes, the synthesizer and the inputs
    (the tables [KEY_MAP] and [NOTE_FREQS], classes [Synthesizer] and
    [InputManager], and the handlers of [app]) *)

Module Keys.
Import Looper.
Local Close Scope Q_scope.
Local Open Scope string_scope.

(** Looking up [o[k]] in a plain object.  An object has its own
    entries, and it inherits the properties of [Object.prototype]: under
    the names below [o[k]] is a function (under [__proto__] the prototype
    itself), always truthy, whatever [o] holds of its own. *)
Definition Object_prototype : list string :=
  ["constructor"; "__proto__"; "hasOwnProperty"; "isPrototypeOf";
   "propertyIsEnumerable"; "toLocaleString"; "toString"; "valueOf";
   "__defineGetter__"; "__defineSetter__"; "__lookupGetter__";
   "__lookupSetter__"].

Definition inherited (k : string) : bool :=
  existsb (String.eqb k) Object_prototype.

Inductive Property (A : Type) :=
| Own (a : A)
| Inherited
| Absent.

Arguments Own {A} a.
Arguments Inherited {A}.
Arguments Absent {A}.

Definition get {A : Type} (o : gmap string A) (k : string) : Property A :=
  match o !! k with
  | Some a => Own a
  | None => if inherited k then Inherited else Absent
  end.

(** The two tables, by their own entries; the code reads them with
    [get]. *)
Definition KEY_MAP : gmap string string :=
  list_to_map
    [("a", "C4"); ("w", "C#4"); ("s", "D4"); ("e", "D#4"); ("d", "E4");
     ("f", "F4"); ("t", "F#4"); ("g", "G4"); ("y", "G#4"); ("h", "A4");
     ("u", "A#4"); ("j", "B4"); ("k", "C5")].

Definition NOTE_FREQS : gmap string Q :=
  list_to_map
    [("C4", 26163 # 100); ("C#4", 27718 # 100); ("D4", 29366 # 100);
     ("D#4", 31113 # 100); ("E4", 32963 # 100); ("F4", 34923 # 100);
     ("F#4", 36999 # 100); ("G4", 39200 # 100); ("G#4", 41530 # 100);
     ("A4", 44000 # 100); ("A#4", 46616 # 100); ("B4", 49388 # 100);
     ("C5", 52325 # 100)]%Q.

(** *** The synthesizer *)

Inductive Mode := mode_synth | mode_drums.

(** An entry of [activeOscillators]: the oscillator sounding for a note,
    known by its frequency. *)
Record Voice := mkVoice { frequency : Q }.

Record Synthesizer := mkSynthesizer {
  activeOscillators : gmap string Voice;
  mode : Mode
}.

Definition new_Synthesizer : Synthesizer :=
  {| activeOscillators := ∅; mode := mode_synth |}.

Definition setMode (m : Mode) (s : Synthesizer) : Synthesizer :=
  {| activeOscillators := activeOscillators s; mode := m |}.

(** [s.includes(sub)] on strings. *)
Fixpoint includes (sub s : string) : bool :=
  String.prefix sub s ||
  match s with
  | EmptyString => false
  | String _ s' => includes sub s'
  end.

Inductive Drum := Kick | Snare | HiHat.

(** [playDrum]: the drum a note triggers, if any. *)
Definition playDrum (note : string) : option Drum :=
  if includes "C" note then Some Kick
  else if includes "D" note then Some Snare
  else if includes "E" note || includes "F" note then Some HiHat
  else None.

(** What the synthesizer hands to the audio graph. *)
Inductive Sound :=
| OscStart (note : string) (freq : Q)
| OscStop (note : string)
| DrumHit (d : Drum).

(** [playNote] for a note that is a string, on the engine [a].  A note
    under which [activeOscillators] has something, its own or inherited,
    is taken to be sounding.  For a note without a frequency
    [setValueAtTime] is given [undefined], or an inherited function, and
    throws before the oscillator is started or stored. *)
Definition playNote (a : AudioEngine) (note : string) (s : Synthesizer)
  : Completion * Synthesizer * list Sound :=
  if negb (initialized a) then (normal, s, [])
  else
    match mode s with
    | mode_drums =>
        (normal, s,
         match playDrum note with Some d => [DrumHit d] | None => [] end)
    | mode_synth =>
        match get (activeOscillators s) note with
        | Own _ | Inherited => (normal, s, [])
        | Absent =>
            match get NOTE_FREQS note with
            | Own f =>
                (normal,
                 {| activeOscillators :=
                      <[note := {| frequency := f |}]> (activeOscillators s);
                    mode := mode s |},
                 [OscStart note f])
            | Inherited | Absent => (throw TypeError, s, [])
            end
        end
    end.

(** [stopNote] for a note that is a string.  What [activeOscillators]
    inherits under the note has no [osc] and no [gain], and reading
    [gain.gain] throws. *)
Definition stopNote (a : AudioEngine) (note : string) (s : Synthesizer)
  : Completion * Synthesizer * list Sound :=
  if negb (initialized a) then (normal, s, [])
  else
    match mode s with
    | mode_drums => (normal, s, [])
    | mode_synth =>
        match get (activeOscillators s) note with
        | Absent => (normal, s, [])
        | Inherited => (throw TypeError, s, [])
        | Own _ =>
            (normal,
             {| activeOscillators := delete note (activeOscillators s);
                mode := mode s |},
             [OscStop note])
        end
    end.

(** [playNote] and [stopNote] for a note that is not a string but what
    [KEY_MAP] inherits under a name of [Object_prototype], a function or
    the prototype.  In drums mode [note.includes] is not a function and
    [playDrum] throws.  In synth mode the note is looked up under its
    text, [function ...() { [native code] }] or [[object Object]], which
    is neither stored in [activeOscillators] nor inherited, and has no
    frequency: [playNote] throws as for an unknown note, and [stopNote]
    finds nothing to stop. *)
Definition playNote_inherited (a : AudioEngine) (s : Synthesizer)
  : Completion * Synthesizer * list Sound :=
  if negb (initialized a) then (normal, s, [])
  else (throw TypeError, s, []).

Definition stopNote_inherited (a : AudioEngine) (s : Synthesizer)
  : Completion * Synthesizer * list Sound :=
  (normal, s, []).

(** *** MIDI and keyboard input *)

Definition names : list string :=
  ["C"; "C#"; "D"; "D#"; "E"; "F"; "F#"; "G"; "G#"; "A"; "A#"; "B"].

(** A whole number as JavaScript prints it. *)
Definition string_of_Z (z : Z) : string :=
  NilZero.string_of_int (Z.to_int z).

(** [midiNoteToName], for [midi] an element of a MIDI message, a number
    from 0 to 255, for which [names[midi % 12]] is defined. *)
Definition midiNoteToName (midi : Z) : option string :=
  let octave := (midi / 12 - 1)%Z in
  let note := nth (Z.to_nat (midi mod 12)) names "" in
  if ((60 <=? midi) && (midi <=? 72))%Z
  then Some (note +:+ string_of_Z octave)
  else None.

(** Of [app]: the station with the engine, the synthesizer, and the
    selected slot. *)
Record App := mkApp {
  world : World;
  synth : Synthesizer;
  selectedSlot : nat
}.

(** [app] once [start] has run. *)
Definition app_start (volume : nat -> Q) : App :=
  {| world := new_LoopStation (init new_AudioEngine) volume;
     synth := new_Synthesizer;
     selectedSlot := 0 |}.

Definition selectSlot (index : nat) (app : App) : App :=
  {| world := world app; synth := synth app; selectedSlot := index |}.

Definition app_playNote (note : string) (app : App)
  : Completion * App * list Sound :=
  let '(c, s, out) := playNote (audio (world app)) note (synth app) in
  (c, {| world := world app; synth := s; selectedSlot := selectedSlot app |},
   out).

Definition app_stopNote (note : string) (app : App)
  : Completion * App * list Sound :=
  let '(c, s, out) := stopNote (audio (world app)) note (synth app) in
  (c, {| world := world app; synth := s; selectedSlot := selectedSlot app |},
   out).

Definition app_playNote_inherited (app : App)
  : Completion * App * list Sound :=
  let '(c, s, out) := playNote_inherited (audio (world app)) (synth app) in
  (c, {| world := world app; synth := s; selectedSlot := selectedSlot app |},
   out).

Definition app_stopNote_inherited (app : App)
  : Completion * App * list Sound :=
  let '(c, s, out) := stopNote_inherited (audio (world app)) (synth app) in
  (c, {| world := world app; synth := s; selectedSlot := selectedSlot app |},
   out).

Definition app_toggleRecord (app : App) : Completion * App * list Sound :=
  let '(c, w) := toggleRecord (selectedSlot app) (world app) in
  (c, {| world := w; synth := synth app; selectedSlot := selectedSlot app |},
   []).

(** [onMIDIMessage], on the bytes [data] of the message; a byte the
    message does not have is [undefined]. *)
Definition onMIDIMessage (data : list Z) (app : App)
  : Completion * App * list Sound :=
  let cmd := match data !! 0 with
             | Some status => Z.land status 0xF0
             | None => 0%Z
             end in
  let data1 := data !! 1 in
  let data2 := data !! 2 in
  let above (d : option Z) (n : Z) :=
    match d with Some v => (n <? v)%Z | None => false end in
  let equals (d : option Z) (n : Z) :=
    match d with Some v => (v =? n)%Z | None => false end in
  if (cmd =? 0x90)%Z && above data2 0%Z then
    match data1 ≫= midiNoteToName with
    | Some note => app_playNote note app
    | None => (normal, app, [])
    end
  else if (cmd =? 0x80)%Z || ((cmd =? 0x90)%Z && equals data2 0%Z) then
    match data1 ≫= midiNoteToName with
    | Some note => app_stopNote note app
    | None => (normal, app, [])
    end
  else if (cmd =? 0xB0)%Z && equals data1 64%Z && above data2 64%Z then
    app_toggleRecord app
  else (normal, app, []).

(** [handleKey], with [k] the key of the event in lower case.  The test
    [!KEY_MAP] never holds, and [KEY_MAP[k]] is truthy for the keys of
    the table and for the inherited names. *)
Definition handleKey (k : string) (down : bool) (app : App)
  : Completion * App * list Sound :=
  if String.eqb k " " then
    if down then app_toggleRecord app else (normal, app, [])
  else
    match get KEY_MAP k with
    | Own note => if down then app_playNote note app
                  else app_stopNote note app
    | Inherited => if down then app_playNote_inherited app
                   else app_stopNote_inherited app
    | Absent => (normal, app, [])
    end.

(** What reaches the application: a key goes down (not a repeat) or up,
    a piano key of the page with the note [note] in its [data-note] is
    pressed or released (a text that can stand between the quotes of the
    selector of [highlightKey]), a MIDI message arrives, a button is
    clicked, the card of slot [i] is pressed, the slider of slot [i] is
    moved, or the browser fires one of its own events of the station. *)
Inductive AppEvent :=
| KeyDown (k : string)
| KeyUp (k : string)
| PianoDown (note : string)
| PianoUp (note : string)
| Midi (data : list Z)
| BtnStop
| BtnPlay
| BtnRec
| BtnDrums
| SlotMouseDown (i : nat)
| SliderInput (i : nat) (v : Q)
| Browser (ev : Event).

Definition with_world (w : World) (app : App) : App :=
  {| world := w; synth := synth app; selectedSlot := selectedSlot app |}.

(** The events of the station that the browser fires by itself. *)
Definition browser_event (ev : Event) : bool :=
  match ev with
  | MicAnswer _ | DataAvailable _ _ | Stopped _ | TimeUpdate _ _ => true
  | _ => false
  end.

(** One event; the sounds it hands to the audio graph.  An exception ends
    the handler.  The page has the cards of three slots, and the slider of
    a slot selects that slot before it sets the gain. *)
Definition app_exec (ev : AppEvent) (app : App) : App * list Sound :=
  match ev with
  | KeyDown k => let '(_, app', out) := handleKey k true app in (app', out)
  | KeyUp k => let '(_, app', out) := handleKey k false app in (app', out)
  | PianoDown note =>
      let '(_, app', out) := app_playNote note app in (app', out)
  | PianoUp note =>
      let '(_, app', out) := app_stopNote note app in (app', out)
  | Midi data =>
      let '(_, app', out) := onMIDIMessage data app in (app', out)
  | BtnStop => (with_world (stopAll (world app)) app, [])
  | BtnPlay => (with_world (playAll (world app)) app, [])
  | BtnRec => let '(_, app', out) := app_toggleRecord app in (app', out)
  | BtnDrums =>
      ({| world := world app;
          synth := setMode (match mode (synth app) with
                            | mode_synth => mode_drums
                            | mode_drums => mode_synth
                            end) (synth app);
          selectedSlot := selectedSlot app |}, [])
  | SlotMouseDown i =>
      (if (i <? 3)%nat then selectSlot i app else app, [])
  | SliderInput i v =>
      match slots (world app) !! i with
      | Some s =>
          (with_world (exec (Slide i v) (world app))
             (selectSlot (index s) app), [])
      | None => (app, [])
      end
  | Browser ev =>
      (if browser_event ev then with_world (exec ev (world app)) app
       else app, [])
  end.

Fixpoint app_run (tr : list AppEvent) (app : App) : App * list Sound :=
  match tr with
  | [] => (app, [])
  | ev :: tr' =>
      let '(app1, out1) := app_exec ev app in
      let '(app2, out2) := app_run tr' app1 in
      (app2, (out1 ++ out2)%list)
  end.

End Keys.

(** ** The level meter (in [AudioEngine.metricLoop]) *)

Module Meter.
Local Open Scope Q_scope.

(** One turn of [draw] on the bytes of the analyser: the width of the
    meter in percent and its opacity. *)
Definition draw (dataArray : list Z) : Q * Q :=
  let sum := fold_left Z.add dataArray 0%Z in
  let avg := inject_Z sum / inject_Z (Z.of_nat (length dataArray)) in
  let width := Qmin 100 (avg * (15 # 10)) in
  (width, if Metronome.Qltb 5 width then 1 else 3 # 10).

End Meter.

(** ** The note looper (class [OoperLooper] of [script.js])

    The looper records the notes that are played, as events stamped with
    [Date.now], and plays them back with one timeout per event.
    - [Date.now] is an integer of milliseconds, a [Z]; each handler runs at
      one clock reading.
    - The timeouts that [playLoop] sets are kept in the state with their
      due time, and fire as events of the trace.
    - The oscillators, the gain ramps and the timeout of [stopNote] that
      stops a faded oscillator belong to the audio graph, and the classes
      set on the keys to the page: they are not part of the state. *)

Module NoteLooper.
Local Close Scope Q_scope.
Local Open Scope Z_scope.

(** [noteFrequencies], by MIDI note number. *)
Definition noteFrequencies : gmap Z Q :=
  list_to_map
    [(60, (26163 # 100)%Q); (61, (27718 # 100)%Q); (62, (29366 # 100)%Q);
     (63, (31113 # 100)%Q); (64, (32963 # 100)%Q); (65, (34923 # 100)%Q);
     (66, (36999 # 100)%Q); (67, (39200 # 100)%Q); (68, (41530 # 100)%Q);
     (69, (44000 # 100)%Q); (70, (46616 # 100)%Q); (71, (49388 # 100)%Q)].

Inductive EventType := noteOn | noteOff.

(** An entry of [recordedNotes]; a [noteOff] entry has no velocity. *)
Record NoteEvent := mkNoteEvent {
  note : Z;
  velocity : option Z;
  timestamp : Z;
  type : EventType
}.

(** What a timeout of the playback does when it fires. *)
Inductive TimerAction :=
| PlayRecorded (e : NoteEvent)
| NextLoop.

(** A timeout that was set and has neither fired nor been cleared:
    [setTimeout] gave it the identifier [timer_id], and it fires no
    earlier than [due] (milliseconds of [Date.now]). *)
Record Timer := mkTimer {
  timer_id : nat;
  due : Z;
  action : TimerAction
}.

(** The looper.  [activeOscillators] is the [Map] in the order of
    insertion, each note with the frequency of its oscillator.  [timers]
    and [next_id] belong to the browser: the timeouts waiting, and the
    identifier the next [setTimeout] returns. *)
Record OoperLooper := mkOoperLooper {
  activeOscillators : list (Z * Q);
  isRecording : bool;
  isPlaying : bool;
  recordedNotes : list NoteEvent;
  recordStartTime : Z;
  loopDuration : Z;
  playbackTimeouts : list nat;
  timers : list Timer;
  next_id : nat
}.

(** The constructor. *)
Definition new_OoperLooper : OoperLooper :=
  {| activeOscillators := []; isRecording := false; isPlaying := false;
     recordedNotes := []; recordStartTime := 0; loopDuration := 0;
     playbackTimeouts := []; timers := []; next_id := 0%nat |}.

Definition set_active (a : list (Z * Q)) (l : OoperLooper) : OoperLooper :=
  {| activeOscillators := a; isRecording := isRecording l;
     isPlaying := isPlaying l; recordedNotes := recordedNotes l;
     recordStartTime := recordStartTime l; loopDuration := loopDuration l;
     playbackTimeouts := playbackTimeouts l; timers := timers l;
     next_id := next_id l |}.

Definition set_recordedNotes (ns : list NoteEvent) (l : OoperLooper)
  : OoperLooper :=
  {| activeOscillators := activeOscillators l; isRecording := isRecording l;
     isPlaying := isPlaying l; recordedNotes := ns;
     recordStartTime := recordStartTime l; loopDuration := loopDuration l;
     playbackTimeouts := playbackTimeouts l; timers := timers l;
     next_id := next_id l |}.

Definition has (n : Z) (a : list (Z * Q)) : bool :=
  existsb (fun p => fst p =? n) a.

Definition delete_note (n : Z) (a : list (Z * Q)) : list (Z * Q) :=
  List.filter (fun p => negb (fst p =? n)) a.

(** [activeOscillators.set(note, ...)]: a new key goes to the end, a key
    already there keeps its place. *)
Definition set_note (n : Z) (f : Q) (a : list (Z * Q)) : list (Z * Q) :=
  if has n a
  then List.map (fun p => if fst p =? n then (n, f) else p) a
  else a ++ [(n, f)].

(** [stopNote], in a handler that runs at [Date.now() = now] (the clock
    does not move while a handler runs). *)
Definition stopNote (now : Z) (n : Z) (l : OoperLooper) : OoperLooper :=
  let l1 := if has n (activeOscillators l)
            then set_active (delete_note n (activeOscillators l)) l
            else l in
  if isRecording l1
  then set_recordedNotes
         (recordedNotes l1
          ++ [{| note := n; velocity := None;
                 timestamp := now - recordStartTime l1; type := noteOff |}])
         l1
  else l1.

(** [playNote]. *)
Definition playNote (now : Z) (n : Z) (v : Z) (l : OoperLooper)
  : OoperLooper :=
  let l1 := if has n (activeOscillators l) then stopNote now n l else l in
  match noteFrequencies !! n with
  | None => l1
  | Some f =>
      let l2 := set_active (set_note n f (activeOscillators l1)) l1 in
      if isRecording l2
      then set_recordedNotes
             (recordedNotes l2
              ++ [{| note := n; velocity := Some v;
                     timestamp := now - recordStartTime l2;
                     type := noteOn |}])
             l2
      else l2
  end.

(** [stopPlayback]: every timeout of the playback is cleared, then every
    sounding note is stopped, in the order of the [Map]. *)
Definition stopPlayback (now : Z) (l : OoperLooper) : OoperLooper :=
  let l1 :=
    {| activeOscillators := activeOscillators l;
       isRecording := isRecording l; isPlaying := false;
       recordedNotes := recordedNotes l;
       recordStartTime := recordStartTime l; loopDuration := loopDuration l;
       playbackTimeouts := [];
       timers := List.filter
                   (fun t => negb (existsb (Nat.eqb (timer_id t))
                                     (playbackTimeouts l)))
                   (timers l);
       next_id := next_id l |} in
  fold_left (fun l' p => stopNote now (fst p) l') (activeOscillators l1) l1.

(** [setTimeout(action, delay)] at [now], pushed on [playbackTimeouts]. *)
Definition push_timeout (now delay : Z) (a : TimerAction) (l : OoperLooper)
  : OoperLooper :=
  {| activeOscillators := activeOscillators l; isRecording := isRecording l;
     isPlaying := isPlaying l; recordedNotes := recordedNotes l;
     recordStartTime := recordStartTime l; loopDuration := loopDuration l;
     playbackTimeouts := playbackTimeouts l ++ [next_id l];
     timers := timers l ++ [{| timer_id := next_id l; due := now + delay;
                               action := a |}];
     next_id := S (next_id l) |}.

(** [playLoop]. *)
Definition playLoop (now : Z) (l : OoperLooper) : OoperLooper :=
  if isPlaying l then
    let l1 := fold_left
                (fun l' e => push_timeout now (timestamp e) (PlayRecorded e) l')
                (recordedNotes l) l in
    push_timeout now (loopDuration l1) NextLoop l1
  else l.

Definition set_isPlaying (b : bool) (l : OoperLooper) : OoperLooper :=
  {| activeOscillators := activeOscillators l; isRecording := isRecording l;
     isPlaying := b; recordedNotes := recordedNotes l;
     recordStartTime := recordStartTime l; loopDuration := loopDuration l;
     playbackTimeouts := playbackTimeouts l; timers := timers l;
     next_id := next_id l |}.

(** [startPlayback]. *)
Definition startPlayback (now : Z) (l : OoperLooper) : OoperLooper :=
  if (length (recordedNotes l) =? 0)%nat || (loopDuration l =? 0) then l
  else playLoop now (set_isPlaying true l).

(** [togglePlay]. *)
Definition togglePlay (now : Z) (l : OoperLooper) : OoperLooper :=
  if isPlaying l then stopPlayback now l else startPlayback now l.

(** The branch of [toggleRecord] that ends a recording. *)
Definition end_recording (now : Z) (l : OoperLooper) : OoperLooper :=
  {| activeOscillators := activeOscillators l; isRecording := false;
     isPlaying := isPlaying l; recordedNotes := recordedNotes l;
     recordStartTime := recordStartTime l;
     loopDuration := now - recordStartTime l;
     playbackTimeouts := playbackTimeouts l; timers := timers l;
     next_id := next_id l |}.

(** [stop]. *)
Definition stop (now : Z) (l : OoperLooper) : OoperLooper :=
  stopPlayback now (if isRecording l then end_recording now l else l).

(** [toggleRecord]. *)
Definition toggleRecord (now : Z) (l : OoperLooper) : OoperLooper :=
  if isRecording l then end_recording now l
  else
    let l1 := stop now l in
    {| activeOscillators := activeOscillators l1; isRecording := true;
       isPlaying := isPlaying l1; recordedNotes := [];
       recordStartTime := now; loopDuration := loopDuration l1;
       playbackTimeouts := playbackTimeouts l1; timers := timers l1;
       next_id := next_id l1 |}.

(** [clear]. *)
Definition clear (now : Z) (l : OoperLooper) : OoperLooper :=
  let l1 := stop now l in
  {| activeOscillators := activeOscillators l1;
     isRecording := isRecording l1; isPlaying := isPlaying l1;
     recordedNotes := []; recordStartTime := recordStartTime l1;
     loopDuration := 0;
     playbackTimeouts := playbackTimeouts l1; timers := timers l1;
     next_id := next_id l1 |}.

(** A timeout of the playback fires: the callbacks passed to [setTimeout]
    in [playLoop]. *)
Definition fire (now : Z) (a : TimerAction) (l : OoperLooper) : OoperLooper :=
  match a with
  | PlayRecorded e =>
      if isPlaying l then
        match type e with
        | noteOn =>
            (* a recorded [noteOn] always has a velocity *)
            playNote now (note e) (default 0 (velocity e)) l
        | noteOff => stopNote now (note e) l
        end
      else l
  | NextLoop => if isPlaying l then playLoop now l else l
  end.

(** [handleMIDIMessage], on the bytes of the message. *)
Definition handleMIDIMessage (now : Z) (data : list Z) (l : OoperLooper)
  : OoperLooper :=
  let command := match data !! 0%nat with
                 | Some status => Z.land status 0xf0
                 | None => 0
                 end in
  let known := match data !! 1%nat with
               | Some n => bool_decide (is_Some (noteFrequencies !! n))
               | None => false
               end in
  let n := default 0 (data !! 1%nat) in
  let above0 := match data !! 2%nat with Some v => 0 <? v | None => false end in
  let is0 := match data !! 2%nat with Some v => v =? 0 | None => false end in
  if (command =? 144) && above0 then
    if known then playNote now n (default 0 (data !! 2%nat)) l else l
  else if (command =? 128) || ((command =? 144) && is0) then
    if known then stopNote now n l else l
  else l.

(** What happens to the looper, at clock reading [now]: one of its
    methods is called from a handler of the page, a MIDI message arrives,
    or the timeout [id] fires.  A timeout that is not waiting, or not due,
    cannot fire. *)
Inductive Action :=
| PlayNote (n v : Z)
| StopNote (n : Z)
| ToggleRecord
| TogglePlay
| Stop
| Clear
| Midi (data : list Z)
| Fire (id : nat).

Definition exec (now : Z) (a : Action) (l : OoperLooper) : OoperLooper :=
  match a with
  | PlayNote n v => playNote now n v l
  | StopNote n => stopNote now n l
  | ToggleRecord => toggleRecord now l
  | TogglePlay => togglePlay now l
  | Stop => stop now l
  | Clear => clear now l
  | Midi data => handleMIDIMessage now data l
  | Fire id =>
      match List.find (fun t => Nat.eqb (timer_id t) id) (timers l) with
      | Some t =>
          if due t <=? now then
            fire now (action t)
              {| activeOscillators := activeOscillators l;
                 isRecording := isRecording l; isPlaying := isPlaying l;
                 recordedNotes := recordedNotes l;
                 recordStartTime := recordStartTime l;
                 loopDuration := loopDuration l;
                 playbackTimeouts := playbackTimeouts l;
                 timers := List.filter
                             (fun t' => negb (Nat.eqb (timer_id t') id))
                             (timers l);
                 next_id := next_id l |}
          else l
      | None => l
      end
  end.

(** A trace: each step with the clock reading of its handler. *)
Definition run (tr : list (Z * Action)) (l : OoperLooper) : OoperLooper :=
  fold_left (fun l' s => exec (fst s) (snd s) l') tr l.

(** The clock readings of a trace never go back, from [t0] on. *)
Fixpoint clock_ok (t0 : Z) (tr : list (Z * Action)) : Prop :=
  match tr with
  | [] => True
  | (t, _) :: tr' => t0 <= t /\ clock_ok t tr'
  end.

(** *** Notions used in the statements *)

(** [l'] differs from [l] at most in the sounding notes and the recorded
    events. *)
Definition same_ctl (l l' : OoperLooper) : Prop :=
  isRecording l' = isRecording l /\ isPlaying l' = isPlaying l /\
  recordStartTime l' = recordStartTime l /\
  loopDuration l' = loopDuration l /\
  playbackTimeouts l' = playbackTimeouts l /\
  timers l' = timers l /\ next_id l' = next_id l.

(** [l'] differs from [l] at most in the playback: the flag and the
    timeouts. *)
Definition same_take (l l' : OoperLooper) : Prop :=
  activeOscillators l' = activeOscillators l /\
  isRecording l' = isRecording l /\
  recordedNotes l' = recordedNotes l /\
  recordStartTime l' = recordStartTime l /\
  loopDuration l' = loopDuration l.

(** [l'] has the recorded events of [l], then events stamped at [now];
    none unless [l] is recording. *)
Definition appends (now : Z) (l l' : OoperLooper) : Prop :=
  exists evs,
    recordedNotes l' = recordedNotes l ++ evs /\
    Forall (fun e => timestamp e = now - recordStartTime l) evs /\
    (isRecording l = false -> evs = []).

(** The timestamps never decrease along the list. *)
Definition sorted_ts (ns : list NoteEvent) : Prop :=
  forall (i j : nat) e1 e2, (i < j)%nat ->
    ns !! i = Some e1 -> ns !! j = Some e2 -> timestamp e1 <= timestamp e2.

(** The recorded events at clock reading [t]. *)
Definition RInv (t : Z) (l : OoperLooper) : Prop :=
  sorted_ts (recordedNotes l) /\
  Forall (fun e => 0 <= timestamp e) (recordedNotes l) /\
  if isRecording l
  then recordStartTime l <= t /\
       Forall (fun e => timestamp e <= t - recordStartTime l)
         (recordedNotes l)
  else Forall (fun e => timestamp e <= loopDuration l) (recordedNotes l).

(** The timeouts waiting: each is known to [playbackTimeouts], and there
    is none unless the loop plays. *)
Definition TInv (l : OoperLooper) : Prop :=
  Forall (fun t => In (timer_id t) (playbackTimeouts l)) (timers l) /\
  (isPlaying l = false -> timers l = []).

(** The sounding notes: each is a note of the table with its frequency,
    and none is there twice. *)
Definition AInv (l : OoperLooper) : Prop :=
  Forall (fun p => noteFrequencies !! fst p = Some (snd p))
    (activeOscillators l) /\
  NoDup (List.map fst (activeOscillators l)).

(** The notes of the table. *)
Definition table_notes : list Z := [60; 61; 62; 63; 64; 65; 66; 67; 68; 69; 70; 71].

(** What [playLoop] schedules at [now]: every recorded event at its
    timestamp, then the next loop. *)
Definition schedule (now : Z) (l : OoperLooper) : list (Z * TimerAction) :=
  List.map (fun e => (now + timestamp e, PlayRecorded e)) (recordedNotes l)
  ++ [(now + loopDuration l, NextLoop)].

End NoteLooper.

(** ** JavaScript numbers as binary64

    The numbers of the scheduler are IEEE 754 double precision numbers.
    They are taken here from the specification of floating-point
    arithmetic of the standard library, at precision 53 with exponents
    up to 1024: every operation rounds to the nearest number, ties to
    even, and knows the infinities, the two zeros and [NaN]. *)

Module Binary64.

Definition prec : Z := 53.
Definition emax : Z := 1024.

Definition number : Type := spec_float.

(** A whole number, rounded if it has more than 53 bits. *)
Definition of_Z (z : Z) : number := binary_normalize prec emax z 0 false.

Definition add (x y : number) : number := SFadd prec emax x y.
Definition sub (x y : number) : number := SFsub prec emax x y.
Definition div (x y : number) : number := SFdiv prec emax x y.

(** [x < y]; false when either side is [NaN]. *)
Definition lt (x y : number) : bool := SFltb x y.

(** The decimal literal [n / 10^k], for [n] and [10^k] below [2^53]: the
    number nearest to it, as the quotient of two exact numbers is. *)
Definition decimal (n : Z) (k : nat) : number :=
  div (of_Z n) (of_Z (10 ^ Z.of_nat k)).

(** The rational that a finite number stands for. *)
Definition value (x : number) : Q :=
  match x with
  | S754_finite s m e =>
      (if s then -1 else 1) * inject_Z (Zpos m) * Qpower 2 e
  | _ => 0
  end.

(** The smallest exponent of a number. *)
Definition emin64 : Z := emin prec emax.

(** A positive number in canonical form. *)
Definition pos_ok (t : number) : Prop :=
  match t with
  | S754_finite false m e => (emin64 <= e /\ Zpos m < 2 ^ prec)%Z
  | _ => False
  end.

(** A finite number in units of [2 ^ emin64]. *)
Definition scaled (t : number) : Z :=
  match t with
  | S754_finite _ m e => (Zpos m * 2 ^ (e - emin64))%Z
  | _ => 0%Z
  end.

(** What [nextNoteTime] can be along a run: zero, a positive number in
    canonical form, or infinity. *)
Definition time_ok (t : number) : Prop :=
  match t with
  | S754_zero _ => True
  | S754_finite false m e => (emin64 <= e /\ Zpos m < 2 ^ prec)%Z
  | S754_infinity false => True
  | _ => False
  end.

(** A reading of the audio clock: a number in canonical form, zero or
    positive, and below [2^49] (seconds). *)
Definition clock_reading (x : number) : bool :=
  valid_binary prec emax x &&
  match x with
  | S754_zero _ => true
  | S754_finite false m e => (Zpos (digits2_pos m) + e <=? 49)%Z
  | _ => false
  end.

(** A beat of half a second at least: a positive number in canonical
    form whose leading bit is [2^-1] or more. *)
Definition slow_beat (s : number) : bool :=
  valid_binary prec emax s &&
  match s with
  | S754_finite false m e => (0 <=? Zpos (digits2_pos m) + e)%Z
  | _ => false
  end.

End Binary64.

(** ** The lookahead scheduler in binary64 (class [Metronome])

    The class once more, with the numbers of the code.  The audio clock
    is read once per handler.  The timeout of [scheduler] is measured on
    another clock than the audio clock, so the reading of the audio clock
    at which it runs is not bound to the reading at which it was set. *)

Module Metronome64.
Import Binary64.

(** [timerID] is [Some delay] while a timeout is armed, with the delay it
    was set with (milliseconds); [None] once it was cleared or before the
    first arming. *)
Record Metronome := mkMetronome {
  isPlaying : bool;
  bpm : number;
  nextNoteTime : number;
  timerID : option number;
  lookahead : number;           (* milliseconds *)
  scheduleAheadTime : number    (* seconds *)
}.

(** The constructor. *)
Definition new_Metronome : Metronome :=
  {| isPlaying := false; bpm := of_Z 120; nextNoteTime := of_Z 0;
     timerID := None; lookahead := of_Z 25;
     scheduleAheadTime := decimal 1 1 |}.

Definition set_nextNoteTime (t : number) (m : Metronome) : Metronome :=
  {| isPlaying := isPlaying m; bpm := bpm m; nextNoteTime := t;
     timerID := timerID m; lookahead := lookahead m;
     scheduleAheadTime := scheduleAheadTime m |}.

Definition set_isPlaying (b : bool) (m : Metronome) : Metronome :=
  {| isPlaying := b; bpm := bpm m; nextNoteTime := nextNoteTime m;
     timerID := timerID m; lookahead := lookahead m;
     scheduleAheadTime := scheduleAheadTime m |}.

Definition set_timerID (t : option number) (m : Metronome) : Metronome :=
  {| isPlaying := isPlaying m; bpm := bpm m; nextNoteTime := nextNoteTime m;
     timerID := t; lookahead := lookahead m;
     scheduleAheadTime := scheduleAheadTime m |}.

Definition set_bpm (b : number) (m : Metronome) : Metronome :=
  {| isPlaying := isPlaying m; bpm := b; nextNoteTime := nextNoteTime m;
     timerID := timerID m; lookahead := lookahead m;
     scheduleAheadTime := scheduleAheadTime m |}.

(** [60.0 / this.bpm]. *)
Definition secondsPerBeat (m : Metronome) : number := div (of_Z 60) (bpm m).

(** [nextNote]: [this.nextNoteTime += secondsPerBeat]. *)
Definition nextNote (m : Metronome) : Metronome :=
  set_nextNoteTime (add (nextNoteTime m) (secondsPerBeat m)) m.

(** The [while] loop of [scheduler] at clock reading [now].  Each turn
    hands [nextNoteTime] to [scheduleNote], recorded here as an emitted
    trigger time, and calls [nextNote].  [None] stands for a loop still
    running after [fuel] turns. *)
Fixpoint scheduler_loop (fuel : nat) (now : number) (m : Metronome)
  : option (Metronome * list number) :=
  if lt (nextNoteTime m) (add now (scheduleAheadTime m)) then
    match fuel with
    | O => None
    | S fuel' =>
        match scheduler_loop fuel' now (nextNote m) with
        | Some (m', evs) => Some (m', nextNoteTime m :: evs)
        | None => None
        end
    end
  else Some (m, []).

(** [scheduler]: one scheduling pass, then [setTimeout] with the
    [lookahead] delay. *)
Definition scheduler (fuel : nat) (now : number) (m : Metronome)
  : option (Metronome * list number) :=
  match scheduler_loop fuel now m with
  | Some (m', evs) => Some (set_timerID (Some (lookahead m')) m', evs)
  | None => None
  end.

(** [toggle], called at clock reading [now]; the boolean it returns to the
    click handler is [isPlaying] of the result. *)
Definition toggle (fuel : nat) (now : number) (m : Metronome)
  : option (Metronome * list number) :=
  let m1 := set_isPlaying (negb (isPlaying m)) m in
  if isPlaying m1 then scheduler fuel now (set_nextNoteTime now m1)
  else Some (set_timerID None m1, []).

(** What happens to a metronome: the user clicks its button, or the armed
    timeout runs [scheduler].  A timeout cannot run while none is armed;
    such an event leaves everything as it is. *)
Inductive Event :=
| Click (now : number)
| Timeout (now : number).

Definition exec (fuel : nat) (ev : Event) (m : Metronome)
  : option (Metronome * list number) :=
  match ev with
  | Click now => toggle fuel now m
  | Timeout now =>
      match timerID m with
      | Some _ => scheduler fuel now m
      | None => Some (m, [])
      end
  end.

(** A trace of events, with the trigger times emitted along it in order;
    [None] when a pass is still running after [fuel] turns. *)
Fixpoint run (fuel : nat) (tr : list Event) (m : Metronome)
  : option (Metronome * list number) :=
  match tr with
  | [] => Some (m, [])
  | ev :: tr' =>
      match exec fuel ev m with
      | Some (m1, evs1) =>
          match run fuel tr' m1 with
          | Some (m2, evs2) => Some (m2, evs1 ++ evs2)
          | None => None
          end
      | None => None
      end
  end.

(** Accumulated beats: the first [n] trigger times from [t] with the beat
    [d] added [n] times, each sum rounded, and the time reached after [n]
    additions. *)
Fixpoint beats (t d : number) (n : nat) : list number :=
  match n with
  | O => []
  | S n' => t :: beats (add t d) d n'
  end.

Fixpoint advance (t d : number) (n : nat) : number :=
  match n with
  | O => t
  | S n' => advance (add t d) d n'
  end.

(** The clock reading of an event. *)
Definition reading (ev : Event) : number :=
  match ev with Click now => now | Timeout now => now end.

(** The metronomes that cannot hang: the beat is half a second at least,
    the window is a reading of the clock, and [nextNoteTime] is one of
    the numbers a pass leaves. *)
Definition steady (m : Metronome) : Prop :=
  slow_beat (secondsPerBeat m) = true
  /\ clock_reading (scheduleAheadTime m) = true
  /\ time_ok (nextNoteTime m).

End Metronome64.

(** ** Properties of the scheduler *)

Section MetronomeFacts.
Import Metronome.
Local Open Scope Q_scope.

Lemma Qltb_lt a b : Qltb a b = true <-> a < b.
Proof.
  unfold Qltb. rewrite negb_true_iff, <- not_true_iff_false, Qle_bool_iff.
  split; intros H; lra.
Qed.

Lemma Qltb_ge a b : Qltb a b = false <-> b <= a.
Proof.
  unfold Qltb. rewrite negb_false_iff, Qle_bool_iff. reflexivity.
Qed.

Lemma secondsPerBeat_pos m : 0 < bpm m -> 0 < secondsPerBeat m.
Proof.
  intros H. unfold secondsPerBeat. apply Qlt_shift_div_l; lra.
Qed.

Lemma set_nextNoteTime_same m : set_nextNoteTime (nextNoteTime m) m = m.
Proof. destruct m; reflexivity. Qed.

(** What a finished loop has done: it emitted the beats from the old
    [nextNoteTime], all inside the window, left [nextNoteTime] after them
    and at or beyond the end of the window, and touched nothing else. *)
Lemma scheduler_loop_spec fuel now m m' evs :
  scheduler_loop fuel now m = Some (m', evs) ->
  m' = set_nextNoteTime
         (advance (nextNoteTime m) (secondsPerBeat m) (length evs)) m
  /\ evs = beats (nextNoteTime m) (secondsPerBeat m) (length evs)
  /\ now + scheduleAheadTime m <= nextNoteTime m'
  /\ Forall (fun t => t < now + scheduleAheadTime m) evs.
Proof.
  revert m m' evs. induction fuel as [|fuel IH]; intros m m' evs; simpl.
  - destruct (Qltb _ _) eqn:E; [discriminate|].
    intros [= <- <-]. simpl. rewrite set_nextNoteTime_same.
    apply Qltb_ge in E. repeat split; auto.
  - destruct (Qltb _ _) eqn:E.
    + destruct (scheduler_loop fuel now (nextNote m)) as [[m1 evs1]|] eqn:L;
        [|discriminate].
      intros [= <- <-]. apply IH in L as (Hm & Hev & Hge & Hall).
      simpl in *. apply Qltb_lt in E.
      split; [|split; [|split]].
      * rewrite Hm. reflexivity.
      * f_equal. exact Hev.
      * exact Hge.
      * constructor; assumption.
    + intros [= <- <-]. simpl. rewrite set_nextNoteTime_same.
      apply Qltb_ge in E. repeat split; auto.
Qed.

(** More fuel does not change the outcome of a loop that finished. *)
Lemma scheduler_loop_fuel_mono fuel fuel' now m r :
  scheduler_loop fuel now m = Some r -> (fuel <= fuel')%nat ->
  scheduler_loop fuel' now m = Some r.
Proof.
  revert fuel' m r. induction fuel as [|fuel IH]; intros fuel' m r; simpl.
  - destruct (Qltb _ _) eqn:E; [discriminate|].
    intros H _. destruct fuel'; simpl; rewrite E; exact H.
  - destruct (Qltb _ _) eqn:E.
    + destruct (scheduler_loop fuel now (nextNote m)) as [r1|] eqn:L;
        [|discriminate].
      intros H Hle. destruct fuel' as [|fuel']; [lia|]. simpl. rewrite E.
      rewrite (IH fuel' _ _ L); [exact H | lia].
    + intros H _. destruct fuel'; simpl; rewrite E; exact H.
Qed.

(** The loop ends when a beat lasts a positive time: every turn moves
    [nextNoteTime] one beat closer to the end of the window. *)
Lemma scheduler_loop_terminates fuel now m :
  0 < secondsPerBeat m ->
  now + scheduleAheadTime m - nextNoteTime m
    <= inject_Z (Z.of_nat fuel) * secondsPerBeat m ->
  exists r, scheduler_loop fuel now m = Some r.
Proof.
  intros Hd. revert m Hd. induction fuel as [|fuel IH]; intros m Hd Hle; simpl.
  - destruct (Qltb _ _) eqn:E; [|eauto].
    apply Qltb_lt in E. change (inject_Z (Z.of_nat 0)) with 0 in Hle. lra.
  - destruct (Qltb _ _) eqn:E; [|eauto].
    destruct (IH (nextNote m)) as [[m1 evs1] ->]; [exact Hd| |eauto].
    rewrite Nat2Z.inj_succ, <- Z.add_1_r, inject_Z_plus in Hle.
    change (inject_Z 1) with 1 in Hle.
    change (secondsPerBeat (nextNote m)) with (secondsPerBeat m).
    change (scheduleAheadTime (nextNote m)) with (scheduleAheadTime m).
    change (nextNoteTime (nextNote m))
      with (nextNoteTime m + secondsPerBeat m).
    lra.
Qed.

Lemma pass_fuel_enough now m :
  0 < bpm m -> exists r, scheduler_loop (pass_fuel now m) now m = Some r.
Proof.
  intros Hb. pose proof (secondsPerBeat_pos m Hb) as Hd.
  apply scheduler_loop_terminates; [exact Hd|].
  unfold pass_fuel.
  set (x := now + scheduleAheadTime m - nextNoteTime m).
  set (d := secondsPerBeat m) in *.
  assert (Hx : x == (x / d) * d) by (field; lra).
  pose proof (Qle_ceiling (x / d)) as Hc.
  assert (Hz : inject_Z (Qceiling (x / d))
               <= inject_Z (Z.of_nat (Z.to_nat (Qceiling (x / d))))).
  { rewrite <- Zle_Qle. lia. }
  rewrite Hx at 1. apply Qmult_le_compat_r; lra.
Qed.

Lemma scheduler_loop_deterministic fuel fuel' now m r r' :
  scheduler_loop fuel now m = Some r -> scheduler_loop fuel' now m = Some r' ->
  r = r'.
Proof.
  intros H H'. destruct (Nat.le_ge_cases fuel fuel') as [Hle|Hle].
  - rewrite (scheduler_loop_fuel_mono _ _ _ _ _ H Hle) in H'. congruence.
  - rewrite (scheduler_loop_fuel_mono _ _ _ _ _ H' Hle) in H. congruence.
Qed.

(** A pass that ends: [scheduler] in terms of the loop it runs. *)
Lemma scheduler_Some now m :
  0 < bpm m ->
  exists m1 evs,
    scheduler_loop (pass_fuel now m) now m = Some (m1, evs)
    /\ scheduler now m
       = Some (set_timerID (Some (now + lookahead m / 1000)) m1, evs).
Proof.
  intros Hb. destruct (pass_fuel_enough now m Hb) as [[m1 evs] H].
  exists m1, evs. split; [exact H|]. unfold scheduler. rewrite H.
  apply scheduler_loop_spec in H as (-> & _). reflexivity.
Qed.


(** The first pass of the metronome of the application (window 1/10 s,
    [bpm] 120), started at clock time [T0]. *)
Lemma first_pass T0 :
  toggle T0 new_Metronome
  = Some ({| isPlaying := true; bpm := 120; nextNoteTime := T0 + 60 / 120;
             timerID := Some (T0 + 25 / 1000); lookahead := 25;
             scheduleAheadTime := 1 # 10 |}, [T0]).
Proof.
  unfold toggle. cbn [isPlaying new_Metronome set_isPlaying negb].
  set (ms := set_nextNoteTime T0 _).
  assert (Hbs : 0 < bpm ms) by reflexivity.
  destruct (scheduler_Some T0 ms Hbs) as (m1 & evs1 & HL & HS).
  rewrite HS.
  assert (H1 : scheduler_loop 1 T0 ms
               = Some (set_nextNoteTime (T0 + 60 / 120) ms, [T0])).
  { cbn [scheduler_loop]. 
    assert (E1 : Qltb (nextNoteTime ms) (T0 + scheduleAheadTime ms) = true).
    { apply Qltb_lt. simpl. lra. }
    assert (E2 : Qltb (nextNoteTime (nextNote ms))
                      (T0 + scheduleAheadTime (nextNote ms)) = false).
    { apply Qltb_ge. simpl. unfold secondsPerBeat. simpl.
      assert (Hh : 60 / 120 == 1 # 2) by reflexivity. lra. }
    rewrite E1, E2. reflexivity. }
  pose proof (scheduler_loop_deterministic _ _ _ _ _ _ HL H1) as [= -> ->].
  reflexivity.
Qed.



End MetronomeFacts.

(** ** Properties of the loop station *)

Section LooperFacts.
Import Looper.
Local Close Scope Q_scope.

Lemma state_stop s :
  state (stop s) = if decide (state s = empty) then empty else stopped.
Proof.
  unfold stop.
  change (state (set_audioEl (pause_rewind (audioEl s)) s)) with (state s).
  destruct (decide (state s = empty)) as [E|E]; [exact E | reflexivity].
Qed.

(** C7.  After [stopAll] the station has the same slots, none of them in
    state [playing] or [recording], and a slot that was [empty] is still
    [empty]. *)
Theorem stopAll_no_playing_no_recording w j s :
  slots w !! j = Some s ->
  length (slots (stopAll w)) = length (slots w)
  /\ Forall (fun s' => state s' <> playing /\ state s' <> recording)
       (slots (stopAll w))
  /\ exists s', slots (stopAll w) !! j = Some s'
       /\ state s' = (if decide (state s = empty) then empty else stopped)
       /\ (state s = empty -> state s' = empty).
Proof.
  intros Hj. simpl. split; [apply length_fmap|]. split.
  - apply Forall_fmap, Forall_forall. intros x _. simpl.
    rewrite state_stop. destruct (decide (state x = empty)); split; discriminate.
  - exists (stop s). rewrite list_lookup_fmap, Hj. split; [reflexivity|].
    rewrite state_stop. split; [reflexivity|].
    intros ->. reflexivity.
Qed.

Lemma stopAll_no_playing_no_recording_witness :
  let w := run [ToggleRecord 1; ToggleRecord 1; Stopped 0; ToggleRecord 2]
             fresh_station in
  length (slots (stopAll w)) = length (slots w)
  /\ Forall (fun s' => state s' <> playing /\ state s' <> recording)
       (slots (stopAll w))
  /\ exists s', slots (stopAll w) !! 0%nat = Some s'
       /\ state s' = (if decide (state (new_LoopSlot 0 1) = empty)
                      then empty else stopped)
       /\ (state (new_LoopSlot 0 1) = empty -> state s' = empty).
Proof.
  apply (stopAll_no_playing_no_recording
           (run [ToggleRecord 1; ToggleRecord 1; Stopped 0; ToggleRecord 2]
              fresh_station) 0 (new_LoopSlot 0 1)).
  reflexivity.
Defined.

(** What [play] does to a slot that holds an asset. *)
Lemma play_with_asset s url :
  audioUrl s = Some url ->
  state (play s) = playing
  /\ audioUrl (play s) = Some url
  /\ src (audioEl (play s)) = Some url
  /\ paused (audioEl (play s)) = false
  /\ currentTime (audioEl (play s)) = 0%Q.
Proof.
  intros H. unfold play. rewrite H.
  destruct (gainNode s); simpl; auto.
Qed.

Lemma play_no_asset s : audioUrl s = None -> play s = s.
Proof. intros H. unfold play. rewrite H. reflexivity. Qed.

(** C8, as the station has it.  [playAll] restarts exactly the slots that
    hold a recorded asset: such a slot ends in state [playing], its audio
    element playing the asset from position 0; a slot without an asset is
    left as it is.  So a [stopped] slot with an asset goes back to
    [playing]. *)
Theorem playAll_by_asset w j s :
  slots w !! j = Some s ->
  exists s',
    slots (playAll w) !! j = Some s'
    /\ (audioUrl s = None -> s' = s)
    /\ (forall url, audioUrl s = Some url ->
          state s' = playing
          /\ audioUrl s' = Some url
          /\ src (audioEl s') = Some url
          /\ paused (audioEl s') = false
          /\ currentTime (audioEl s') = 0%Q).
Proof.
  intros Hj. exists (play s). simpl. rewrite list_lookup_fmap, Hj.
  split; [reflexivity|]. split.
  - apply play_no_asset.
  - intros url. apply play_with_asset.
Qed.

Lemma playAll_by_asset_witness :
  let w := run [ToggleRecord 0; ToggleRecord 0; Stopped 0; StopAll]
             fresh_station in
  exists s0 s',
    slots w !! 0%nat = Some s0 /\ state s0 = stopped
    /\ slots (playAll w) !! 0%nat = Some s'
    /\ (audioUrl s0 = None -> s' = s0)
    /\ (forall url, audioUrl s0 = Some url ->
          state s' = playing
          /\ audioUrl s' = Some url
          /\ src (audioEl s') = Some url
          /\ paused (audioEl s') = false
          /\ currentTime (audioEl s') = 0%Q).
Proof.
  intros w.
  destruct (playAll_by_asset w 0
              (stop (onstop (set_state recording
                 (set_recorder (Some 0%nat) (new_LoopSlot 0 1))))))
    as (s' & H1 & H2 & H3); [reflexivity|].
  eexists _, s'. split; [reflexivity|]. split; [reflexivity|].
  split; [exact H1|]. split; [exact H2 | exact H3].
Defined.

(** C8 as the spec words it fails: a slot stopped by [stopAll] during its
    first take is [stopped] and holds no asset, and [playAll] leaves it
    [stopped]. *)
Lemma playAll_leaves_stopped_slot :
  let w := run [ToggleRecord 0; StopAll] fresh_station in
  exists s s',
    slots w !! 0%nat = Some s /\ state s = stopped
    /\ slots (playAll w) !! 0%nat = Some s' /\ state s' = stopped
    /\ state s' <> playing.
Proof.
  eexists _, _. split; [reflexivity|]. split; [reflexivity|].
  split; [reflexivity|]. split; [reflexivity | discriminate].
Qed.

(** C2, as the slot has it.  On an initialized engine [toggle] applied to
    a [playing] or [stopped] slot starts a new take: the slot enters state
    [recording] with an empty chunk list and a fresh recorder.  Going from
    [playing] to [stopped] is what [stop] does (the audio element is
    paused and rewound to the start), and going back to [playing] is what
    [play] does for a slot that holds an asset. *)
Theorem toggle_rerecords a s rs :
  recordDest a = Some () ->
  state s = playing \/ state s = stopped ->
  toggle a s rs
  = (normal,
     set_state recording (set_recorder (Some (length rs)) (set_chunks [] s)),
     rs ++ [{| owner := index s; rstate := rec_recording;
               stop_queued := false |}])
  /\ (state (stop s) = stopped
      /\ paused (audioEl (stop s)) = true
      /\ currentTime (audioEl (stop s)) = 0%Q)
  /\ (forall url, audioUrl s = Some url ->
        state (play s) = playing
        /\ paused (audioEl (play s)) = false
        /\ currentTime (audioEl (play s)) = 0%Q).
Proof.
  intros Ha Hs. split; [|split].
  - unfold toggle, startRecording.
    destruct (decide (state s = recording)) as [E|_].
    { destruct Hs as [Hs|Hs]; rewrite Hs in E; discriminate. }
    rewrite Ha. reflexivity.
  - rewrite state_stop.
    destruct (decide (state s = empty)) as [E|_].
    { destruct Hs as [Hs|Hs]; rewrite Hs in E; discriminate. }
    split; [reflexivity|]. unfold stop.
    destruct (decide _); split; reflexivity.
  - intros url Hu. destruct (play_with_asset s url Hu) as (H1 & _ & _ & H4 & H5).
    auto.
Qed.

Lemma toggle_rerecords_witness :
  let a := init new_AudioEngine in
  let s := play (set_audioUrl (Some (blob_url [])) (new_LoopSlot 0 1)) in
  let rs : list MediaRecorder := [] in
  toggle a s rs
  = (normal,
     set_state recording (set_recorder (Some (length rs)) (set_chunks [] s)),
     rs ++ [{| owner := index s; rstate := rec_recording;
               stop_queued := false |}])
  /\ (state (stop s) = stopped
      /\ paused (audioEl (stop s)) = true
      /\ currentTime (audioEl (stop s)) = 0%Q)
  /\ (forall url, audioUrl s = Some url ->
        state (play s) = playing
        /\ paused (audioEl (play s)) = false
        /\ currentTime (audioEl (play s)) = 0%Q).
Proof.
  apply (toggle_rerecords (init new_AudioEngine)
           (play (set_audioUrl (Some (blob_url [])) (new_LoopSlot 0 1))) []).
  - reflexivity.
  - left. reflexivity.
Defined.

(** C2 as the spec words it fails: slot 0, brought to [playing] by a
    finished take, is moved by [toggle] to [recording], not to [stopped]. *)
Lemma toggle_on_playing_records :
  let w := run [ToggleRecord 0; ToggleRecord 0; Stopped 0] fresh_station in
  exists s,
    slots w !! 0%nat = Some s /\ state s = playing
    /\ state (snd (fst (toggle (audio w) s (recorders w)))) = recording
    /\ state (snd (fst (toggle (audio w) s (recorders w)))) <> stopped.
Proof.
  eexists. split; [reflexivity|]. split; [reflexivity|].
  split; [reflexivity | discriminate].
Qed.

Lemma stopRecording_length s rs : length (stopRecording s rs) = length rs.
Proof.
  unfold stopRecording. destruct (recorder s); [|reflexivity].
  destruct (decide _); [apply length_alter | reflexivity].
Qed.

Lemma stop_others_length idx i ss rs :
  length (stop_others idx i ss rs) = length rs.
Proof.
  revert i rs. induction ss as [|s ss IH]; intros i rs; simpl; [reflexivity|].
  rewrite IH. destruct (decide _); [apply stopRecording_length | reflexivity].
Qed.

(** [toggleRecord] on a slot that is not recording, on an initialized
    engine: the slot starts a take on a fresh recorder. *)
Lemma toggleRecord_start w idx s :
  recordDest (audio w) = Some () ->
  slots w !! idx = Some s -> state s <> recording ->
  toggleRecord idx w
  = (normal,
     {| audio := audio w;
        slots := <[idx := set_state recording
                     (set_recorder (Some (length (recorders w)))
                        (set_chunks [] s))]> (slots w);
        recorders := stop_others idx 0 (slots w) (recorders w)
                     ++ [{| owner := index s; rstate := rec_recording;
                            stop_queued := false |}] |}).
Proof.
  intros Ha Hs Hst. unfold toggleRecord. rewrite Hs.
  unfold toggle, startRecording.
  destruct (decide (state s = recording)); [contradiction|].
  rewrite Ha, stop_others_length. reflexivity.
Qed.

(** Without a [recordDest], that is, on an engine that was not
    initialized, [startRecording] throws once it has emptied the chunk
    list, and the slot keeps its state. *)
Lemma startRecording_needs_recordDest a s rs :
  recordDest a = None ->
  startRecording a s rs = (throw TypeError, set_chunks [] s, rs).
Proof. intros H. unfold startRecording. rewrite H. reflexivity. Qed.

(** C9, as the application has it.  A denied microphone is reported by
    [setupMic] with an alert and leaves the engine as it was.  The station
    does not look at the microphone: on an initialized engine without
    [micNode], [toggleRecord] on an [empty] slot completes normally, that
    slot enters state [recording], and the engine and the other slots are
    unchanged. *)
Theorem startRecording_without_mic w idx s :
  recordDest (audio w) = Some () -> micNode (audio w) = None ->
  slots w !! idx = Some s -> state s = empty ->
  setupMic denied (audio w)
  = (audio w, Some "Microphone Access Required for Recording!"%string)
  /\ exists w',
       toggleRecord idx w = (normal, w')
       /\ audio w' = audio w
       /\ (exists s', slots w' !! idx = Some s' /\ state s' = recording)
       /\ (forall j, j <> idx -> slots w' !! j = slots w !! j).
Proof.
  intros Ha _ Hs Hst. split; [reflexivity|].
  eexists. split.
  - apply toggleRecord_start; [exact Ha | exact Hs |].
    rewrite Hst. discriminate.
  - simpl. split; [reflexivity|]. split.
    + eexists.
      split; [apply list_lookup_insert_eq; eapply lookup_lt_Some, Hs|].
      reflexivity.
    + intros j Hj. apply list_lookup_insert_ne. auto.
Qed.

Lemma startRecording_without_mic_witness :
  let w := exec (MicAnswer denied) fresh_station in
  setupMic denied (audio w)
  = (audio w, Some "Microphone Access Required for Recording!"%string)
  /\ exists w',
       toggleRecord 2 w = (normal, w')
       /\ audio w' = audio w
       /\ (exists s', slots w' !! 2%nat = Some s' /\ state s' = recording)
       /\ (forall j, j <> 2%nat -> slots w' !! j = slots w !! j).
Proof.
  apply (startRecording_without_mic (exec (MicAnswer denied) fresh_station)
           2 (new_LoopSlot 2 1)); reflexivity.
Defined.

(** C9 as the spec words it fails: after the microphone was denied, slot 0
    is [empty]; [toggleRecord 0] completes normally and the slot is
    [recording]. *)
Lemma toggleRecord_after_denied_mic :
  let w := exec (MicAnswer denied) fresh_station in
  micNode (audio w) = None
  /\ exists s s',
       slots w !! 0%nat = Some s /\ state s = empty
       /\ fst (toggleRecord 0 w) = normal
       /\ slots (snd (toggleRecord 0 w)) !! 0%nat = Some s'
       /\ state s' = recording /\ state s' <> empty.
Proof.
  split; [reflexivity|]. eexists _, _.
  split; [reflexivity|]. split; [reflexivity|]. split; [reflexivity|].
  split; [reflexivity|]. split; [reflexivity | discriminate].
Qed.

(** *** The invariant holds along every trace *)

Lemma benign_id : benign (fun s => s).
Proof. intros s. auto. Qed.

Lemma benign_stop : benign stop.
Proof.
  intros s. unfold stop.
  change (state (set_audioEl (pause_rewind (audioEl s)) s)) with (state s).
  destruct (decide (state s = empty)) as [E|E]; simpl.
  - repeat split; auto.
  - repeat split; auto; discriminate.
Qed.

Lemma benign_play : benign play.
Proof.
  intros s. unfold play. destruct (audioUrl s) eqn:Hu; [|auto].
  destruct (gainNode s); simpl; repeat split; auto; discriminate.
Qed.

Lemma benign_clear : benign clear.
Proof.
  intros s. destruct (benign_stop s) as (Hi & Hr & _ & _).
  unfold clear. simpl. repeat split; auto. discriminate.
Qed.

Lemma benign_oninput v : benign (oninput v).
Proof.
  intros s. unfold oninput. simpl. destruct (gainNode s); simpl; auto.
Qed.

Lemma benign_timeupdate t : benign (timeupdate t).
Proof.
  intros s. unfold timeupdate. destruct (paused (audioEl s)); simpl; auto.
Qed.

Lemma benign_ondataavailable data : benign (ondataavailable data).
Proof. intros s. unfold ondataavailable. simpl. auto. Qed.

Lemma benign_set_chunks cs : benign (set_chunks cs).
Proof. intros s. simpl. auto. Qed.

Lemma state_onstop s : state (onstop s) = playing.
Proof.
  unfold onstop.
  apply (play_with_asset _ (blob_url (new_Blob (chunks s)))). reflexivity.
Qed.

Lemma benign_onstop : benign onstop.
Proof.
  intros s. split; [|split; [|split]].
  - unfold onstop. rewrite (proj1 (benign_play _)). reflexivity.
  - unfold onstop. rewrite (proj1 (proj2 (benign_play _))). reflexivity.
  - rewrite state_onstop. discriminate.
  - rewrite state_onstop. discriminate.
Qed.

Lemma capturing_true rs s :
  capturing rs s = true <->
  state s = recording
  /\ exists id r,
       recorder s = Some id /\ rs !! id = Some r /\ rstate r = rec_recording.
Proof.
  unfold capturing, is_recording. rewrite andb_true_iff, bool_decide_eq_true.
  split.
  - intros [Hs H]. split; [exact Hs|].
    destruct (recorder s) as [id|]; [|discriminate].
    destruct (rs !! id) as [r|] eqn:Hr; [|discriminate].
    apply bool_decide_eq_true in H. eauto.
  - intros [Hs (id & r & -> & -> & Hr)]. split; [exact Hs|].
    apply bool_decide_eq_true. exact Hr.
Qed.

(** Slots changed one by one in a benign way, with the same recorders. *)
Lemma Inv_benign w ss' :
  Inv w ->
  (forall j s', ss' !! j = Some s' ->
     exists s f, slots w !! j = Some s /\ benign f /\ s' = f s) ->
  Inv (with_slots ss' w).
Proof.
  intros [Hidx Hrec Hcap Hemp] Hss. split; simpl.
  - intros j s' Hj. destruct (Hss j s' Hj) as (s & f & Hs & Hf & ->).
    rewrite (proj1 (Hf s)). eauto.
  - intros j s' Hj Hst. destruct (Hss j s' Hj) as (s & f & Hs & Hf & ->).
    destruct (Hf s) as (_ & Hr & Hb & _). rewrite Hr. eauto.
  - intros i j si sj Hi Hj Hci Hcj.
    destruct (Hss i si Hi) as (s1 & f1 & Hs1 & Hf1 & ->).
    destruct (Hss j sj Hj) as (s2 & f2 & Hs2 & Hf2 & ->).
    apply (Hcap i j s1 s2 Hs1 Hs2).
    + apply capturing_true in Hci as (Hst & Hx).
      destruct (Hf1 s1) as (_ & Hr & Hb & _). rewrite Hr in Hx.
      apply capturing_true. auto.
    + apply capturing_true in Hcj as (Hst & Hx).
      destruct (Hf2 s2) as (_ & Hr & Hb & _). rewrite Hr in Hx.
      apply capturing_true. auto.
  - intros j s' Hj Hst. destruct (Hss j s' Hj) as (s & f & Hs & Hf & ->).
    destruct (Hf s) as (_ & _ & _ & He). apply He; eauto.
Qed.

Lemma Inv_alter w f i :
  Inv w -> benign f -> Inv (with_slots (alter f i (slots w)) w).
Proof.
  intros HI Hf. apply Inv_benign; [exact HI|]. intros j s' Hj.
  rewrite list_lookup_alter in Hj. destruct (decide (i = j)) as [->|Hne].
  - destruct (slots w !! j) as [s|] eqn:Hs; [|discriminate].
    injection Hj as <-. eauto.
  - exists s', (fun s => s). auto using benign_id.
Qed.

Lemma Inv_fmap w f :
  Inv w -> benign f -> Inv (with_slots (f <$> slots w) w).
Proof.
  intros HI Hf. apply Inv_benign; [exact HI|]. intros j s' Hj.
  rewrite list_lookup_fmap in Hj.
  destruct (slots w !! j) as [s|] eqn:Hs; [|discriminate].
  injection Hj as <-. eauto.
Qed.

Lemma rstate_stop r : rstate (MediaRecorder_stop r) = inactive.
Proof. unfold MediaRecorder_stop. destruct (rstate r) eqn:E; auto. Qed.

Lemma owner_stop r : owner (MediaRecorder_stop r) = owner r.
Proof. unfold MediaRecorder_stop. destruct (rstate r); reflexivity. Qed.

Lemma stop_stop r :
  MediaRecorder_stop (MediaRecorder_stop r) = MediaRecorder_stop r.
Proof. unfold MediaRecorder_stop at 1. rewrite rstate_stop. reflexivity. Qed.

Lemma stop_keeps_pending r :
  rstate r = rec_recording \/ stop_queued r = true ->
  stop_queued (MediaRecorder_stop r) = true.
Proof.
  unfold MediaRecorder_stop. intros [H|H].
  - rewrite H. reflexivity.
  - destruct (rstate r); [exact H | reflexivity].
Qed.

Lemma stops_some_refl rs : stops_some rs rs.
Proof. split; eauto. Qed.

Lemma stops_some_trans rs1 rs2 rs3 :
  stops_some rs1 rs2 -> stops_some rs2 rs3 -> stops_some rs1 rs3.
Proof.
  intros [L1 H1] [L2 H2]. split; [congruence|].
  intros id r3 H3. destruct (H2 id r3 H3) as (r2 & Hr2 & E2).
  destruct (H1 id r2 Hr2) as (r1 & Hr1 & E1). exists r1. split; [exact Hr1|].
  destruct E2 as [->| ->], E1 as [->| ->]; auto.
  rewrite stop_stop. auto.
Qed.

Lemma stops_some_alter id rs : stops_some rs (alter MediaRecorder_stop id rs).
Proof.
  split; [apply length_alter|]. intros id' r' H.
  rewrite list_lookup_alter in H. destruct (decide (id = id')) as [->|Hne].
  - destruct (rs !! id') as [r|]; [|discriminate]. injection H as <-. eauto.
  - eauto.
Qed.

Lemma stops_some_stopRecording s rs : stops_some rs (stopRecording s rs).
Proof.
  unfold stopRecording. destruct (recorder s); [|apply stops_some_refl].
  destruct (decide _); [apply stops_some_alter | apply stops_some_refl].
Qed.

(** The [forEach] of [toggleRecord] only stops recorders, and it leaves
    inactive the recorder of every other slot in state [recording]. *)
Lemma stop_others_spec idx i ss rs :
  stops_some rs (stop_others idx i ss rs)
  /\ forall k s id r1,
       ss !! k = Some s -> i + k <> idx -> state s = recording ->
       recorder s = Some id -> stop_others idx i ss rs !! id = Some r1 ->
       rstate r1 = inactive.
Proof.
  revert i rs. induction ss as [|s0 ss IH]; intros i rs; simpl.
  { split; [apply stops_some_refl|]. intros k s id r1 Hk. discriminate. }
  set (rs' := if decide (i ≠ idx ∧ state s0 = recording)
              then stopRecording s0 rs else rs).
  assert (H0 : stops_some rs rs').
  { unfold rs'. destruct (decide _);
      [apply stops_some_stopRecording | apply stops_some_refl]. }
  destruct (IH (S i) rs') as [H1 H2]. split.
  - eapply stops_some_trans; eassumption.
  - intros k s id r1 Hk Hne Hst Hrec Hr1. destruct k as [|k].
    + injection Hk as ->. rewrite Nat.add_0_r in Hne.
      destruct H1 as [_ H1]. destruct (H1 id r1 Hr1) as (r' & Hr' & E).
      assert (Hin : rstate r' = inactive).
      { unfold rs' in Hr'. destruct (decide _) as [_|Hn]; [|tauto].
        unfold stopRecording in Hr'. rewrite Hrec in Hr'.
        destruct (decide (state s = recording)); [|contradiction].
        rewrite list_lookup_alter_eq in Hr'.
        destruct (rs !! id); [|discriminate]. injection Hr' as <-.
        apply rstate_stop. }
      destruct E as [->| ->]; [exact Hin | apply rstate_stop].
    + apply (H2 k s id r1 Hk); auto. lia.
Qed.

(** Stopping recorders keeps the invariant. *)
Lemma Inv_stops w rs' :
  Inv w -> stops_some (recorders w) rs' ->
  Inv {| audio := audio w; slots := slots w; recorders := rs' |}.
Proof.
  intros [Hidx Hrec Hcap Hemp] [Hlen Hst]. 
  assert (Hlook : forall id r, recorders w !! id = Some r ->
            exists r', rs' !! id = Some r'
                       /\ (r' = r \/ r' = MediaRecorder_stop r)).
  { intros id r Hr. destruct (rs' !! id) as [r'|] eqn:Hr'.
    - destruct (Hst id r' Hr') as (r0 & Hr0 & E). rewrite Hr in Hr0.
      injection Hr0 as <-. eauto.
    - apply lookup_ge_None in Hr'. apply lookup_lt_Some in Hr. lia. }
  assert (Hcapt : forall s, capturing rs' s = true ->
                            capturing (recorders w) s = true).
  { intros s Hc. apply capturing_true in Hc as (Hs & id & r' & Hid & Hr' & Ha).
    destruct (Hst id r' Hr') as (r & Hr & [->| ->]).
    - apply capturing_true. eauto 6.
    - rewrite rstate_stop in Ha. discriminate. }
  split; simpl; auto.
  - intros j s Hj Hs. destruct (Hrec j s Hj Hs) as (id & r & Hid & Hr & Ho & Hp).
    destruct (Hlook id r Hr) as (r' & Hr' & [->| ->]); [eauto 8|].
    exists id, (MediaRecorder_stop r). rewrite owner_stop.
    repeat split; auto. right. apply stop_keeps_pending, Hp.
  - intros i j si sj Hi Hj Hci Hcj. eauto.
Qed.

(** Starting a take on slot [idx], once the recorder of every other slot
    in state [recording] is inactive. *)
Lemma Inv_start w idx s :
  Inv w -> slots w !! idx = Some s ->
  (forall k sk id r, slots w !! k = Some sk -> k <> idx ->
     state sk = recording -> recorder sk = Some id ->
     recorders w !! id = Some r -> rstate r = inactive) ->
  Inv {| audio := audio w;
         slots := <[idx := set_state recording
                      (set_recorder (Some (length (recorders w)))
                         (set_chunks [] s))]> (slots w);
         recorders := recorders w
                      ++ [{| owner := index s; rstate := rec_recording;
                             stop_queued := false |}] |}.
Proof.
  intros [Hidx Hrec Hcap Hemp] Hs Hoth.
  assert (Hlt : idx < length (slots w)) by (eapply lookup_lt_Some, Hs).
  assert (Hold : forall j sj, j <> idx ->
            <[idx := set_state recording
                (set_recorder (Some (length (recorders w)))
                   (set_chunks [] s))]> (slots w) !! j = Some sj ->
            slots w !! j = Some sj).
  { intros j sj Hne H. rewrite list_lookup_insert_ne in H; auto. }
  assert (Hnocap : forall j sj, j <> idx -> slots w !! j = Some sj ->
            capturing (recorders w ++ [{| owner := index s;
                         rstate := rec_recording; stop_queued := false |}])
              sj = true -> False).
  { intros j sj Hne Hj Hc.
    apply capturing_true in Hc as (Hst & id & r & Hid & Hr & Ha).
    destruct (Hrec j sj Hj Hst) as (id' & r' & Hid' & Hr' & _).
    rewrite Hid in Hid'. injection Hid' as <-.
    rewrite lookup_app_l in Hr by (eapply lookup_lt_Some, Hr').
    rewrite (Hoth j sj id r Hj Hne Hst Hid Hr) in Ha. discriminate. }
  split; simpl.
  - intros j sj Hj. destruct (decide (j = idx)) as [->|Hne].
    + rewrite list_lookup_insert_eq in Hj by exact Hlt. injection Hj as <-.
      simpl. eauto.
    + eauto.
  - intros j sj Hj Hst. destruct (decide (j = idx)) as [->|Hne].
    + rewrite list_lookup_insert_eq in Hj by exact Hlt. injection Hj as <-.
      simpl. eexists _, _. split; [reflexivity|].
      split; [apply list_lookup_middle; reflexivity|]. simpl. eauto.
    + destruct (Hrec j sj (Hold j sj Hne Hj) Hst)
        as (id & r & Hid & Hr & Ho & Hp).
      exists id, r. repeat split; auto.
      rewrite lookup_app_l; [exact Hr | eapply lookup_lt_Some, Hr].
  - intros i j si sj Hi Hj Hci Hcj.
    destruct (decide (i = idx)) as [->|Hni];
      destruct (decide (j = idx)) as [->|Hnj]; auto.
    + exfalso. eapply (Hnocap j sj); eauto.
    + exfalso. eapply (Hnocap i si); eauto.
    + exfalso. eapply (Hnocap j sj); eauto.
  - intros j sj Hj Hst. destruct (decide (j = idx)) as [->|Hne].
    + rewrite list_lookup_insert_eq in Hj by exact Hlt. injection Hj as <-.
      discriminate.
    + eauto.
Qed.

Lemma Inv_toggleRecord idx w : Inv w -> Inv (snd (toggleRecord idx w)).
Proof.
  intros HI. unfold toggleRecord.
  destruct (stop_others_spec idx 0 (slots w) (recorders w)) as [Hst Hoth].
  set (rs1 := stop_others idx 0 (slots w) (recorders w)) in *.
  pose proof (Inv_stops w rs1 HI Hst) as HI1.
  destruct (slots w !! idx) as [s|] eqn:Hs; [|exact HI1].
  unfold toggle. destruct (decide (state s = recording)) as [Hrec|Hrec].
  - simpl. rewrite list_insert_id by exact Hs.
    apply (Inv_stops w); [exact HI|].
    eapply stops_some_trans; [exact Hst | apply stops_some_stopRecording].
  - unfold startRecording. destruct (recordDest (audio w)); simpl.
    + apply (Inv_start {| audio := audio w; slots := slots w;
                          recorders := rs1 |} idx s HI1 Hs).
      simpl. intros k sk id r Hk Hne Hstk Hid Hr.
      apply (Hoth k sk id r Hk); auto.
    + apply (Inv_benign {| audio := audio w; slots := slots w;
                           recorders := rs1 |}); [exact HI1|].
      simpl. intros j s' Hj. destruct (decide (j = idx)) as [->|Hne].
      * rewrite list_lookup_insert_eq in Hj by (eapply lookup_lt_Some, Hs).
        injection Hj as <-. exists s, (set_chunks []).
        auto using benign_set_chunks.
      * rewrite list_lookup_insert_ne in Hj by auto.
        exists s', (fun s => s). auto using benign_id.
Qed.

(** The [stop] event of a recorder: its slot runs [onstop], the recorder
    has nothing queued any more. *)
Lemma Inv_Stopped id w : Inv w -> Inv (exec (Stopped id) w).
Proof.
  intros HI. simpl. destruct (recorders w !! id) as [r|] eqn:Hr; [|exact HI].
  destruct (stop_queued r) eqn:Hq; [|exact HI].
  pose proof (Inv_alter w onstop (owner r) HI benign_onstop)
    as [Hidx Hrec Hcap Hemp].
  simpl in *.
  assert (Hlt : id < length (recorders w)) by (eapply lookup_lt_Some, Hr).
  assert (Hcapt : forall s,
            capturing (<[id := stop_fired r]> (recorders w)) s
            = capturing (recorders w) s).
  { intros s. unfold capturing. destruct (recorder s) as [id'|]; [|reflexivity].
    destruct (decide (id' = id)) as [->|Hne].
    - rewrite list_lookup_insert_eq, Hr by exact Hlt. reflexivity.
    - rewrite list_lookup_insert_ne by auto. reflexivity. }
  split; simpl; auto.
  - intros j s Hj Hs.
    destruct (Hrec j s Hj Hs) as (id' & r' & Hid & Hr' & Ho & Hp).
    destruct (decide (id' = id)) as [->|Hne].
    + exfalso. rewrite Hr in Hr'. injection Hr' as <-.
      rewrite Ho, list_lookup_alter_eq in Hj.
      destruct (slots w !! j); [|discriminate]. injection Hj as <-.
      rewrite state_onstop in Hs. discriminate.
    + exists id', r'. rewrite list_lookup_insert_ne by auto. auto.
  - intros i j si sj Hi Hj. rewrite !Hcapt. eauto.
Qed.

Lemma Inv_exec ev w : Inv w -> Inv (exec ev w).
Proof.
  intros HI. destruct ev.
  - apply Inv_toggleRecord, HI.
  - apply (Inv_fmap w stop HI benign_stop).
  - apply (Inv_fmap w play HI benign_play).
  - apply (Inv_alter w clear i HI benign_clear).
  - apply (Inv_alter w (oninput v) i HI (benign_oninput v)).
  - destruct HI. split; auto.
  - simpl. destruct (recorders w !! id) as [r|]; [|exact HI].
    destruct (delivers r); [|exact HI].
    apply (Inv_alter w _ _ HI (benign_ondataavailable data)).
  - apply Inv_Stopped, HI.
  - apply (Inv_alter w (timeupdate t) i HI (benign_timeupdate t)).
Qed.

Lemma Inv_new a volume : Inv (new_LoopStation a volume).
Proof.
  split; simpl.
  - intros [|[|[|j]]] s H; simplify_eq/=; reflexivity.
  - intros [|[|[|j]]] s H Hs; simplify_eq/=.
  - intros [|[|[|i]]] j si sj Hi; simplify_eq/=; discriminate.
  - intros [|[|[|j]]] s H; simplify_eq/=; reflexivity.
Qed.

Lemma Inv_run tr w : Inv w -> Inv (run tr w).
Proof.
  revert w. induction tr as [|ev tr IH]; intros w HI; [exact HI|].
  apply IH, Inv_exec, HI.
Qed.

(** *** Counting slots *)

Lemma count_cons P s ss :
  count P (s :: ss) = (if P s then 1 else 0) + count P ss.
Proof.
  unfold count. rewrite filter_cons.
  destruct (decide (P s = true)) as [E|E].
  - rewrite E. reflexivity.
  - destruct (P s); [congruence | reflexivity].
Qed.

Lemma count_none P ss :
  (forall j s, ss !! j = Some s -> P s = false) -> count P ss = 0.
Proof.
  induction ss as [|s ss IH]; intros H; [reflexivity|].
  rewrite count_cons, (H 0 s eq_refl), IH; [reflexivity|].
  intros j sj Hj. apply (H (S j)). exact Hj.
Qed.

Lemma count_at_most_one P ss :
  (forall i j si sj, ss !! i = Some si -> ss !! j = Some sj ->
     P si = true -> P sj = true -> i = j) ->
  count P ss <= 1.
Proof.
  induction ss as [|s ss IH]; intros H; [unfold count; simpl; lia|].
  rewrite count_cons. destruct (P s) eqn:E.
  - rewrite count_none; [lia|]. intros j sj Hj.
    destruct (P sj) eqn:Ej; [|reflexivity].
    specialize (H 0 (S j) s sj eq_refl Hj E Ej). discriminate.
  - simpl. apply IH. intros i j si sj Hi Hj Pi Pj.
    specialize (H (S i) (S j) si sj Hi Hj Pi Pj). lia.
Qed.

(** C1, as the station has it.  Along every trace of events from the
    start of the application (calls of [toggleRecord] on any index,
    in range or not, mixed in any order with recorder events and the other
    operations), at most one slot captures at any instant, that is, is in
    state [recording] with a recorder whose stop was not requested.  A slot
    whose recorder was stopped stays in state [recording] until its [stop]
    event has run; at the instants where no such event is queued, at most
    one slot is in state [recording]. *)
Theorem at_most_one_capturing a volume tr :
  let w := run tr (new_LoopStation a volume) in
  count (capturing (recorders w)) (slots w) <= 1
  /\ (quiescent (recorders w) -> count is_recording (slots w) <= 1).
Proof.
  intros w. assert (HI : Inv w) by apply Inv_run, Inv_new.
  destruct HI as [Hidx Hrec Hcap Hemp]. split.
  - apply count_at_most_one, Hcap.
  - intros Hq. apply count_at_most_one. intros i j si sj Hi Hj Hri Hrj.
    assert (Hall : forall k s, slots w !! k = Some s ->
              is_recording s = true -> capturing (recorders w) s = true).
    { intros k s Hk Hr. apply bool_decide_eq_true in Hr.
      destruct (Hrec k s Hk Hr) as (id & r & Hid & Hlr & _ & Hp).
      apply capturing_true. split; [exact Hr|]. exists id, r.
      repeat split; auto. destruct Hp as [Hp|Hp]; [exact Hp|].
      unfold quiescent in Hq. rewrite Forall_lookup in Hq.
      rewrite (Hq id r Hlr) in Hp. discriminate. }
    eauto.
Qed.

Lemma at_most_one_capturing_witness :
  let w := run [ToggleRecord 0; ToggleRecord 1; Stopped 0; ToggleRecord 7;
                Stopped 1]
             fresh_station in
  quiescent (recorders w)
  /\ count (capturing (recorders w)) (slots w) <= 1
  /\ count is_recording (slots w) <= 1.
Proof.
  intros w.
  pose proof (at_most_one_capturing (init new_AudioEngine) (fun _ => 1%Q)
                [ToggleRecord 0; ToggleRecord 1; Stopped 0; ToggleRecord 7;
                 Stopped 1]) as [H1 H2].
  assert (Hq : quiescent (recorders w)) by (repeat constructor).
  split; [exact Hq|]. split; [exact H1 | exact (H2 Hq)].
Defined.

(** C1 as the spec words it fails: right after [toggleRecord 1] returns
    while slot 0 records, the [stop] event of slot 0 is still queued and
    slots 0 and 1 are both in state [recording]. *)
Lemma two_slots_recording :
  let w := run [ToggleRecord 0; ToggleRecord 1] fresh_station in
  count is_recording (slots w) = 2 /\ ~ count is_recording (slots w) <= 1.
Proof.
  split; [reflexivity|]. vm_compute. lia.
Qed.

(** C10.  [play] on a slot that holds no asset returns the slot as it is:
    no field changes and the audio element is not started.  In every
    station reached from the start of the application an [empty] slot holds
    no asset, so [playAll] leaves it as it is, [empty]. *)
Theorem play_without_asset s a volume tr j e :
  audioUrl s = None ->
  slots (run tr (new_LoopStation a volume)) !! j = Some e ->
  state e = empty ->
  play s = s
  /\ audioUrl e = None
  /\ slots (playAll (run tr (new_LoopStation a volume))) !! j = Some e.
Proof.
  intros Hs Hj He. split; [apply play_no_asset, Hs|].
  assert (HI : Inv (run tr (new_LoopStation a volume)))
    by apply Inv_run, Inv_new.
  pose proof (inv_empty _ HI j e Hj He) as Hu. split; [exact Hu|].
  simpl. rewrite list_lookup_fmap, Hj. simpl. rewrite play_no_asset; auto.
Qed.

Lemma play_without_asset_witness :
  let s := stop (set_state recording (new_LoopSlot 0 1)) in
  let tr := [ToggleRecord 0; ToggleRecord 0; Stopped 0; Clear 0;
             ToggleRecord 1] in
  let e := clear (onstop (set_state recording
             (set_recorder (Some 0%nat) (new_LoopSlot 0 1)))) in
  play s = s
  /\ audioUrl e = None
  /\ slots (playAll (run tr fresh_station)) !! 0%nat = Some e.
Proof.
  apply (play_without_asset
           (stop (set_state recording (new_LoopSlot 0 1)))
           (init new_AudioEngine) (fun _ => 1%Q)
           [ToggleRecord 0; ToggleRecord 0; Stopped 0; Clear 0;
            ToggleRecord 1]
           0); reflexivity.
Defined.

(** *** A take, from start to asset *)

Lemma run_app tr1 tr2 w : run (tr1 ++ tr2) w = run tr2 (run tr1 w).
Proof. apply foldl_app. Qed.

Lemma alter_as_insert (f : LoopSlot -> LoopSlot) i (l : list LoopSlot) x :
  l !! i = Some x -> alter f i l = <[i := f x]> l.
Proof.
  intros H. rewrite list_insert_alter. apply list_alter_ext; [|reflexivity].
  intros y Hy. congruence.
Qed.

Lemma stops_some_lookup rs rs' id r :
  stops_some rs rs' -> rs !! id = Some r ->
  exists r', rs' !! id = Some r' /\ (r' = r \/ r' = MediaRecorder_stop r).
Proof.
  intros [Hlen Hst] Hr. destruct (rs' !! id) as [r'|] eqn:Hr'.
  - destruct (Hst id r' Hr') as (r0 & Hr0 & E). rewrite Hr in Hr0.
    injection Hr0 as <-. eauto.
  - apply lookup_ge_None in Hr'. apply lookup_lt_Some in Hr. lia.
Qed.

(** Chunks delivered by a recorder of slot [idx] are appended to that
    slot's chunk list, in order. *)
Lemma run_DataAvailable id r idx cs w s :
  recorders w !! id = Some r -> delivers r = true -> owner r = idx ->
  slots w !! idx = Some s ->
  run (map (DataAvailable id) cs) w
  = with_slots (<[idx := set_chunks (chunks s ++ cs) s]> (slots w)) w.
Proof.
  revert w s. induction cs as [|c cs IH]; intros w s Hr Hd Ho Hs.
  - simpl. rewrite app_nil_r.
    replace (set_chunks (chunks s) s) with s by (destruct s; reflexivity).
    rewrite list_insert_id by exact Hs. destruct w; reflexivity.
  - change (run (map (DataAvailable id) (c :: cs)) w)
      with (run (map (DataAvailable id) cs) (exec (DataAvailable id c) w)).
    simpl. rewrite Hr, Hd, Ho.
    rewrite (alter_as_insert _ _ _ _ Hs).
    rewrite (IH _ (ondataavailable c s)); simpl; auto.
    + rewrite list_insert_insert_eq, <- app_assoc. reflexivity.
    + apply list_lookup_insert_eq. eapply lookup_lt_Some, Hs.
Qed.

(** [toggleRecord] on a slot in state [recording]: its recorder is
    stopped, and no slot changes yet. *)
Lemma toggleRecord_stop w idx s id :
  slots w !! idx = Some s -> state s = recording -> recorder s = Some id ->
  toggleRecord idx w
  = (normal,
     {| audio := audio w; slots := slots w;
        recorders := alter MediaRecorder_stop id
                       (stop_others idx 0 (slots w) (recorders w)) |}).
Proof.
  intros Hs Hst Hid. unfold toggleRecord. rewrite Hs.
  unfold toggle, stopRecording.
  destruct (decide (state s = recording)); [|contradiction].
  rewrite Hid, list_insert_id by exact Hs. reflexivity.
Qed.

(** Any call of [toggleRecord] stops the recorder of a slot in state
    [recording], be it the slot's own toggle or the forced stop when
    another index is toggled, and leaves that slot as it is. *)
Lemma toggleRecord_stops w idx idx' s id r :
  slots w !! idx = Some s -> state s = recording -> recorder s = Some id ->
  recorders w !! id = Some r ->
  slots (snd (toggleRecord idx' w)) !! idx = Some s
  /\ recorders (snd (toggleRecord idx' w)) !! id
     = Some (MediaRecorder_stop r).
Proof.
  intros Hs Hst Hid Hr. destruct (decide (idx' = idx)) as [->|Hne].
  { rewrite (toggleRecord_stop w idx s id Hs Hst Hid). simpl.
    split; [exact Hs|]. rewrite list_lookup_alter_eq.
    destruct (stop_others_spec idx 0 (slots w) (recorders w)) as [Hss _].
    destruct (stops_some_lookup _ _ id r Hss Hr) as (r3 & -> & [->| ->]);
      simpl; [reflexivity | rewrite stop_stop; reflexivity]. }
  unfold toggleRecord.
  destruct (stop_others_spec idx' 0 (slots w) (recorders w)) as [Hss Hoth].
  set (rs1 := stop_others idx' 0 (slots w) (recorders w)) in *.
  assert (H1 : rs1 !! id = Some (MediaRecorder_stop r)).
  { destruct (stops_some_lookup _ _ id r Hss Hr) as (r3 & Hr3 & E).
    rewrite Hr3. f_equal.
    assert (Hin : rstate r3 = inactive).
    { apply (Hoth idx s id r3 Hs); auto. }
    destruct E as [->| ->]; [|reflexivity].
    unfold MediaRecorder_stop. rewrite Hin. reflexivity. }
  destruct (slots w !! idx') as [s'|] eqn:Hs'; [|simpl; auto].
  unfold toggle, startRecording.
  destruct (decide (state s' = recording)); simpl.
  - rewrite list_lookup_insert_ne by exact Hne. split; [exact Hs|].
    destruct (stops_some_lookup _ _ id _ (stops_some_stopRecording s' rs1) H1)
      as (r4 & -> & [->| ->]); [reflexivity | rewrite stop_stop; reflexivity].
  - destruct (recordDest (audio w)); simpl;
      rewrite list_lookup_insert_ne by exact Hne; (split; [exact Hs|]).
    + rewrite lookup_app_l; [exact H1 | eapply lookup_lt_Some, H1].
    + exact H1.
Qed.

(** C5.  Take any station on an initialized engine and a slot [idx] of it
    that is not recording.  Start a take with [toggleRecord idx] and let
    the new recorder deliver the chunks [cs1].  Then stop the take, either
    with [toggleRecord idx] or, forced, with [toggleRecord] on any other
    index [idx']; let the recorder deliver the remaining chunks [cs2] and
    fire its [stop] event.  Until the stop is requested the slot is in
    state [recording] with exactly the delivered chunks; at the end it is
    in state [playing], its asset is the concatenation of [cs1 ++ cs2] in
    the order of arrival, and its audio element plays that asset from the
    start. *)
Theorem take_is_concatenation w idx idx' s cs1 cs2 :
  recordDest (audio w) = Some () ->
  slots w !! idx = Some s -> index s = idx -> state s <> recording ->
  let id := length (recorders w) in
  let w1 := run (ToggleRecord idx :: map (DataAvailable id) cs1) w in
  let w2 := run (ToggleRecord idx' :: map (DataAvailable id) cs2
                   ++ [Stopped id]) w1 in
  (exists s1,
     slots w1 !! idx = Some s1 /\ state s1 = recording /\ chunks s1 = cs1)
  /\ exists s2,
       slots w2 !! idx = Some s2
       /\ state s2 = playing
       /\ audioUrl s2 = Some (blob_url (new_Blob (cs1 ++ cs2)))
       /\ src (audioEl s2) = audioUrl s2
       /\ paused (audioEl s2) = false
       /\ currentTime (audioEl s2) = 0%Q.
Proof.
  intros Ha Hs Hidx Hst id w1 w2.
  assert (Hlt : idx < length (slots w)) by (eapply lookup_lt_Some, Hs).
  set (R := {| owner := index s; rstate := rec_recording;
               stop_queued := false |}).
  set (sA := set_state recording
               (set_recorder (Some id) (set_chunks [] s))).
  set (s1 := set_chunks cs1 sA).
  (* the take starts *)
  set (rs1 := stop_others idx 0 (slots w) (recorders w)).
  assert (HA : exec (ToggleRecord idx) w
               = {| audio := audio w; slots := <[idx := sA]> (slots w);
                    recorders := rs1 ++ [R] |}).
  { simpl. rewrite (toggleRecord_start w idx s Ha Hs Hst). reflexivity. }
  assert (HidA : (rs1 ++ [R]) !! id = Some R).
  { apply list_lookup_middle. unfold rs1. rewrite stop_others_length.
    reflexivity. }
  (* the chunks of the first part arrive *)
  assert (H1 : w1 = {| audio := audio w; slots := <[idx := s1]> (slots w);
                       recorders := rs1 ++ [R] |}).
  { unfold w1.
    change (run (ToggleRecord idx :: map (DataAvailable id) cs1) w)
      with (run (map (DataAvailable id) cs1) (exec (ToggleRecord idx) w)).
    rewrite HA. rewrite (run_DataAvailable id R idx cs1 _ sA); auto.
    - unfold with_slots. simpl. rewrite list_insert_insert_eq. reflexivity.
    - simpl. apply list_lookup_insert_eq, Hlt. }
  assert (Hs1 : slots w1 !! idx = Some s1).
  { rewrite H1. simpl. apply list_lookup_insert_eq, Hlt. }
  split; [exists s1; auto|].
  (* the stop is requested *)
  assert (Hr1 : recorders w1 !! id = Some R) by (rewrite H1; exact HidA).
  destruct (toggleRecord_stops w1 idx idx' s1 id R Hs1 eq_refl eq_refl Hr1)
    as [Hs3 Hr3].
  set (w3 := snd (toggleRecord idx' w1)) in *.
  (* the remaining chunks arrive, then the stop event *)
  set (s3 := set_chunks (cs1 ++ cs2) s1).
  assert (H2 : w2 = exec (Stopped id)
                      (with_slots (<[idx := s3]> (slots w3)) w3)).
  { unfold w2.
    change (run (ToggleRecord idx' :: map (DataAvailable id) cs2
                   ++ [Stopped id]) w1)
      with (run (map (DataAvailable id) cs2 ++ [Stopped id]) w3).
    rewrite run_app.
    rewrite (run_DataAvailable id (MediaRecorder_stop R) idx cs2 _ s1);
      auto. }
  exists (onstop s3). rewrite H2. simpl. rewrite Hr3. simpl.
  rewrite Hidx, list_lookup_alter_eq.
  rewrite list_lookup_insert_eq by (eapply lookup_lt_Some, Hs3).
  split; [reflexivity|].
  destruct (gainNode s); simpl; auto.
Qed.

Lemma take_is_concatenation_witness :
  let c1 : Blob := [Byte.x4f; Byte.x67] in
  let c2 : Blob := [Byte.x67; Byte.x53] in
  let c3 : Blob := [Byte.x00] in
  let w1 := run (ToggleRecord 0 :: map (DataAvailable 0) [c1; c2; c3])
              fresh_station in
  let w2 := run (ToggleRecord 0 :: map (DataAvailable 0) [] ++ [Stopped 0])
              w1 in
  (exists s1,
     slots w1 !! 0 = Some s1 /\ state s1 = recording
     /\ chunks s1 = [c1; c2; c3])
  /\ exists s2,
       slots w2 !! 0 = Some s2
       /\ state s2 = playing
       /\ audioUrl s2
          = Some (blob_url [Byte.x4f; Byte.x67; Byte.x67; Byte.x53; Byte.x00])
       /\ src (audioEl s2) = audioUrl s2
       /\ paused (audioEl s2) = false
       /\ currentTime (audioEl s2) = 0%Q.
Proof.
  intros c1 c2 c3.
  apply (take_is_concatenation fresh_station 0 0 (new_LoopSlot 0 1)
           [c1; c2; c3] []);
    [reflexivity | reflexivity | reflexivity | discriminate].
Defined.

End LooperFacts.

(** ** Rounding in binary64 *)

Section Binary64Facts.
Import Binary64.
Local Close Scope Q_scope.
Local Open Scope Z_scope.

(** The literals [0.1] and [0.5], and the sum [0.1 + 0.2], as the code
    has them: [0x1.999999999999ap-4], [0x1p-1] and
    [0x1.3333333333334p-2], which prints as [0.30000000000000004]. *)
Example literal_tenth :
  decimal 1 1 = S754_finite false 0x1999999999999a (-56).
Proof. vm_compute. reflexivity. Qed.

Example literal_half :
  div (of_Z 60) (of_Z 120) = S754_finite false 0x10000000000000 (-53).
Proof. vm_compute. reflexivity. Qed.

Example sum_of_tenths :
  add (decimal 1 1) (decimal 2 1)
  = S754_finite false 0x13333333333334 (-54).
Proof. vm_compute. reflexivity. Qed.

Lemma digits2_bounds p :
  2 ^ (Zpos (digits2_pos p) - 1) <= Zpos p < 2 ^ Zpos (digits2_pos p).
Proof.
  induction p as [p IH|p IH|]; cbn [digits2_pos].
  - rewrite Pos2Z.inj_succ.
    replace (Z.succ (Zpos (digits2_pos p)) - 1)
      with (Z.succ (Zpos (digits2_pos p) - 1)) by lia.
    rewrite !Z.pow_succ_r by lia. lia.
  - rewrite Pos2Z.inj_succ.
    replace (Z.succ (Zpos (digits2_pos p)) - 1)
      with (Z.succ (Zpos (digits2_pos p) - 1)) by lia.
    rewrite !Z.pow_succ_r by lia. lia.
  - simpl. lia.
Qed.

Lemma shr_1_m mrs : 0 <= shr_m mrs -> shr_m (shr_1 mrs) = shr_m mrs / 2.
Proof.
  destruct mrs as [m r s]. cbn [shr_m]. intros Hm. unfold shr_1.
  destruct m as [|[p|p|]|p]; cbn [shr_m]; try lia.
  - reflexivity.
  - apply Z.div_unique with 1; lia.
  - apply Z.div_unique with 0; lia.
  - reflexivity.
Qed.

Lemma pow2_xO n : 2 ^ Zpos n~0 = 2 ^ Zpos n * 2 ^ Zpos n.
Proof. rewrite <- Z.pow_add_r by lia. f_equal. lia. Qed.

Lemma pow2_xI n : 2 ^ Zpos n~1 = 2 * (2 ^ Zpos n * 2 ^ Zpos n).
Proof.
  rewrite <- Z.pow_add_r by lia. rewrite <- Z.pow_succ_r by lia.
  f_equal. lia.
Qed.

Lemma iter_shr_m n mrs :
  0 <= shr_m mrs ->
  shr_m (iter_pos shr_1 n mrs) = shr_m mrs / 2 ^ Zpos n.
Proof.
  revert mrs. induction n as [n IH|n IH|]; intros mrs Hm; cbn [iter_pos].
  - assert (Hp : 0 < 2 ^ Zpos n) by (apply Z.pow_pos_nonneg; lia).
    assert (H1 : 0 <= shr_m (shr_1 mrs)).
    { rewrite shr_1_m by exact Hm. apply Z.div_pos; lia. }
    assert (H2 : 0 <= shr_m (iter_pos shr_1 n (shr_1 mrs))).
    { rewrite IH by exact H1. apply Z.div_pos; [exact H1|exact Hp]. }
    rewrite IH by exact H2. rewrite IH by exact H1.
    rewrite shr_1_m by exact Hm.
    rewrite pow2_xI, !Z.div_div by lia. reflexivity.
  - assert (Hp : 0 < 2 ^ Zpos n) by (apply Z.pow_pos_nonneg; lia).
    assert (H2 : 0 <= shr_m (iter_pos shr_1 n mrs)).
    { rewrite IH by exact Hm. apply Z.div_pos; [exact Hm|exact Hp]. }
    rewrite IH by exact H2. rewrite IH by exact Hm.
    rewrite pow2_xO, !Z.div_div by lia. reflexivity.
  - rewrite shr_1_m by exact Hm. reflexivity.
Qed.

Lemma iter_xO p d : Zpos (Pos.iter xO p d) = Zpos p * 2 ^ Zpos d.
Proof.
  induction d as [|d IH] using Pos.peano_ind.
  - simpl. lia.
  - rewrite Pos.iter_succ, Pos2Z.inj_xO, IH, Pos2Z.inj_succ, Z.pow_succ_r by lia.
    lia.
Qed.

Lemma fexp_ge e : emin64 <= fexp prec emax e.
Proof. unfold fexp, emin64. lia. Qed.

Lemma fexp_cases e :
  (fexp prec emax e = e - prec /\ emin64 <= e - prec)
  \/ (fexp prec emax e = emin64 /\ e - prec <= emin64).
Proof. unfold fexp, emin64. lia. Qed.

Lemma shr_record_of_loc_m m l : shr_m (shr_record_of_loc m l) = m.
Proof. destruct l as [|[]]; reflexivity. Qed.

Lemma shr_fexp_spec m e l :
  0 <= m ->
  let n := fexp prec emax (Zdigits2 m + e) - e in
  (n <= 0 /\ shr_fexp prec emax m e l = (shr_record_of_loc m l, e))
  \/ (0 < n /\ shr_m (fst (shr_fexp prec emax m e l)) = m / 2 ^ n
      /\ snd (shr_fexp prec emax m e l) = e + n).
Proof.
  intros Hm n. unfold shr_fexp. fold n. unfold shr.
  destruct n as [|p|p] eqn:Hn.
  - left. split; [lia|reflexivity].
  - right. split; [lia|]. cbn [fst snd]. split; [|reflexivity].
    rewrite iter_shr_m by (rewrite shr_record_of_loc_m; exact Hm).
    rewrite shr_record_of_loc_m. reflexivity.
  - left. split; [lia|reflexivity].
Qed.

Lemma rne_bounds mx lx :
  mx <= round_nearest_even mx lx <= mx + 1.
Proof.
  unfold round_nearest_even. destruct lx as [|[]]; try lia.
  destruct (Z.even mx); lia.
Qed.

Lemma div_pow_bounds m n :
  0 <= m -> 0 <= n -> (m / 2 ^ n) * 2 ^ n <= m < (m / 2 ^ n + 1) * 2 ^ n.
Proof.
  intros Hm Hn. assert (Hp : 0 < 2 ^ n) by (apply Z.pow_pos_nonneg; lia).
  pose proof (Z.div_mod m (2 ^ n) ltac:(lia)) as Hd.
  pose proof (Z.mod_pos_bound m (2 ^ n) Hp) as Hb. nia.
Qed.

Lemma digits2_le p k : Zpos p < 2 ^ k -> Zpos (digits2_pos p) <= k.
Proof.
  intros H. pose proof (digits2_bounds p) as [Hl _].
  destruct (Z.le_gt_cases (Zpos (digits2_pos p)) k) as [|Hgt]; [assumption|].
  assert (2 ^ k <= 2 ^ (Zpos (digits2_pos p) - 1)).
  { destruct (Z.neg_nonneg_cases k).
    - rewrite Z.pow_neg_r in H by assumption. lia.
    - apply Z.pow_le_mono_r; lia. }
  lia.
Qed.

(** Rounding a positive integer mantissa [mz] at exponent [ez]: the
    result is a positive number, or infinity when its exponent would be
    too large.  The exponent is the one the leading bit asks for, at most
    one more, and never below [ez]; the mantissa has at most [prec] bits;
    and the result is less than one unit of its last place below what was
    rounded. *)
Lemma round_aux_lower mz ez :
  emin64 <= ez ->
  let top := Z.max ez (Zpos (digits2_pos mz) + ez - prec + 1) in
  match binary_round_aux prec emax false (Zpos mz) ez loc_Exact with
  | S754_finite false m2 e2 =>
      ez <= e2 <= top /\ Zpos m2 < 2 ^ prec
      /\ Zpos mz * 2 ^ (ez - emin64) < (Zpos m2 + 1) * 2 ^ (e2 - emin64)
  | S754_infinity false => emax - prec < top
  | _ => False
  end.
Proof.
  intros He top. unfold binary_round_aux.
  pose proof (digits2_bounds mz) as Hdz.
  set (d := Zpos (digits2_pos mz)) in *.
  (* the first shift and the rounding *)
  assert (H1 : exists m1 l1 e1,
            shr_fexp prec emax (Zpos mz) ez loc_Exact = (m1, e1)
            /\ l1 = round_nearest_even (shr_m m1) (loc_of_shr_record m1)
            /\ 0 < l1 /\ ez <= e1
            /\ Zpos mz < (l1 + 1) * 2 ^ (e1 - ez)
            /\ ((e1 = ez /\ l1 = Zpos mz /\ d <= prec)
                \/ (e1 = d + ez - prec /\ ez < e1 /\ l1 <= 2 ^ prec))).
  { destruct (shr_fexp_spec (Zpos mz) ez loc_Exact ltac:(lia))
      as [[Hn E]|(Hn & Em & Ee)].
    - eexists _, _, _. split; [exact E|]. split; [reflexivity|].
      cbn [shr_record_of_loc shr_m loc_of_shr_record round_nearest_even].
      split; [lia|]. split; [lia|]. split.
      + rewrite Z.sub_diag. simpl. lia.
      + left. split; [reflexivity|]. split; [reflexivity|].
        cbn [Zdigits2] in Hn. fold d in Hn.
        destruct (fexp_cases (d + ez)) as [[E' _]|[E' E'']]; lia.
    - destruct (shr_fexp prec emax (Zpos mz) ez loc_Exact) as [mrs1 e1].
      cbn [fst snd] in Em, Ee.
      eexists _, _, _. split; [reflexivity|]. split; [reflexivity|].
      cbn [Zdigits2] in Hn, Em, Ee. fold d in Hn, Em, Ee.
      set (n := fexp prec emax (d + ez) - ez) in *.
      assert (Hnd : n = d - prec).
      { destruct (fexp_cases (d + ez)) as [[E _]|[E _]]; unfold n; lia. }
      pose proof (div_pow_bounds (Zpos mz) n ltac:(lia) ltac:(lia)) as Hb.
      rewrite <- Em in Hb.
      pose proof (rne_bounds (shr_m mrs1) (loc_of_shr_record mrs1)) as Hr.
      set (l1 := round_nearest_even _ _) in *.
      replace (e1 - ez) with n by lia.
      assert (Hlow : 2 ^ (prec - 1) * 2 ^ n <= Zpos mz).
      { rewrite <- Z.pow_add_r by (unfold prec; lia).
        replace (prec - 1 + n) with (d - 1) by lia. lia. }
      assert (Hup : Zpos mz < 2 ^ prec * 2 ^ n).
      { rewrite <- Z.pow_add_r by (unfold prec; lia).
        replace (prec + n) with d by lia. lia. }
      assert (Hp : 0 < 2 ^ n) by (apply Z.pow_pos_nonneg; lia).
      assert (Hq : 0 < 2 ^ (prec - 1))
        by (apply Z.pow_pos_nonneg; unfold prec; lia).
      split; [nia|]. split; [lia|]. split; [nia|].
      right. split; [lia|]. split; [lia|]. nia. }
  destruct H1 as (mrs1 & l1 & e1 & -> & El & Hl1 & He1 & Hb1 & Hcase).
  rewrite <- El.
  destruct l1 as [|p1|p1]; try lia.
  pose proof (digits2_bounds p1) as Hd1.
  set (d1 := Zpos (digits2_pos p1)) in *.
  assert (Hd1p : d1 <= prec + 1).
  { destruct Hcase as [(_ & E & Hd)|(_ & _ & Hle)].
    - injection E as ->. fold d in Hd1. unfold d1, d in *. lia.
    - apply digits2_le.
      replace (prec + 1) with (Z.succ prec) by lia.
      rewrite Z.pow_succ_r by (unfold prec; lia).
      assert (0 < 2 ^ prec) by (apply Z.pow_pos_nonneg; unfold prec; lia).
      lia. }
  assert (Hbase : Zpos mz * 2 ^ (ez - emin64)
                  < (Zpos p1 + 1) * 2 ^ (e1 - emin64)).
  { replace (e1 - emin64) with ((e1 - ez) + (ez - emin64)) by lia.
    rewrite Z.pow_add_r by lia.
    assert (0 < 2 ^ (ez - emin64)) by (apply Z.pow_pos_nonneg; lia).
    assert (0 < 2 ^ (e1 - ez)) by (apply Z.pow_pos_nonneg; lia).
    nia. }
  destruct (shr_fexp_spec (Zpos p1) e1 loc_Exact ltac:(lia))
    as [[Hn E]|(Hn & Em & Ee)].
  - rewrite E. cbn [shr_record_of_loc shr_m].
    cbn [Zdigits2] in Hn. fold d1 in Hn.
    assert (Hdp : d1 <= prec).
    { destruct (fexp_cases (d1 + e1)) as [[E' _]|[E' E'']]; lia. }
    assert (Hlt : Zpos p1 < 2 ^ prec).
    { eapply Z.lt_le_trans; [apply Hd1|].
      apply Z.pow_le_mono_r; lia. }
    assert (Htop : e1 <= top) by (unfold top; fold d; lia).
    destruct (e1 <=? emax - prec) eqn:Hov.
    + split; [lia|]. split; [exact Hlt|exact Hbase].
    + apply Z.leb_gt in Hov. lia.
  - destruct (shr_fexp prec emax (Zpos p1) e1 loc_Exact) as [[m2 r2 s2] e2].
    cbn [fst snd shr_m] in Em, Ee |- *.
    cbn [Zdigits2] in Hn, Em, Ee. fold d1 in Hn, Em, Ee.
    set (n := fexp prec emax (d1 + e1) - e1) in *.
    assert (Hnd : n = d1 - prec).
    { destruct (fexp_cases (d1 + e1)) as [[E _]|[E _]]; unfold n; lia. }
    assert (Hcase' : e1 = d + ez - prec /\ ez < e1).
    { destruct Hcase as [(_ & E & Hd)|(? & ? & _)]; [|lia].
      injection E as ->. fold d in Hd1. unfold d1, d in *. lia. }
    pose proof (div_pow_bounds (Zpos p1) n ltac:(lia) ltac:(lia)) as Hb.
    rewrite <- Em in Hb.
    assert (Hp : 0 < 2 ^ n) by (apply Z.pow_pos_nonneg; lia).
    assert (Hq : 0 < 2 ^ (prec - 1))
      by (apply Z.pow_pos_nonneg; unfold prec; lia).
    assert (Hlow : 2 ^ (prec - 1) * 2 ^ n <= Zpos p1).
    { rewrite <- Z.pow_add_r by (unfold prec; lia).
      replace (prec - 1 + n) with (d1 - 1) by lia. lia. }
    assert (Hup : Zpos p1 < 2 ^ prec * 2 ^ n).
    { rewrite <- Z.pow_add_r by (unfold prec; lia).
      replace (prec + n) with d1 by lia. lia. }
    assert (Hm2 : 0 < m2) by nia.
    destruct m2 as [|p2|p2]; try lia.
    assert (Hlt : Zpos p2 < 2 ^ prec) by nia.
    assert (Hbound : Zpos mz * 2 ^ (ez - emin64)
                     < (Zpos p2 + 1) * 2 ^ (e2 - emin64)).
    { replace (e2 - emin64) with (n + (e1 - emin64)) by lia.
      rewrite Z.pow_add_r by lia.
      assert (0 < 2 ^ (e1 - emin64)) by (apply Z.pow_pos_nonneg; lia).
      nia. }
    assert (Htop : e2 <= top) by (unfold top; fold d; lia).
    destruct (e2 <=? emax - prec) eqn:Hov.
    + split; [lia|]. split; [exact Hlt|exact Hbound].
    + apply Z.leb_gt in Hov. lia.
Qed.

Lemma digits2_iter_xO p d :
  Zpos (digits2_pos (Pos.iter xO p d)) = Zpos (digits2_pos p) + Zpos d.
Proof.
  induction d as [|d IH] using Pos.peano_ind.
  - simpl. lia.
  - rewrite Pos.iter_succ. cbn [digits2_pos].
    rewrite Pos2Z.inj_succ, IH, Pos2Z.inj_succ. lia.
Qed.

Lemma round_lower mx ex :
  emin64 <= ex ->
  let top := Z.max ex (Zpos (digits2_pos mx) + ex - prec + 1) in
  match binary_round prec emax false mx ex with
  | S754_finite false m2 e2 =>
      emin64 <= e2 <= top /\ Zpos m2 < 2 ^ prec
      /\ Zpos mx * 2 ^ (ex - emin64) < (Zpos m2 + 1) * 2 ^ (e2 - emin64)
  | S754_infinity false => emax - prec < top
  | _ => False
  end.
Proof.
  intros He top. unfold binary_round, shl_align.
  pose proof (fexp_ge (Zpos (digits2_pos mx) + ex)) as Hf.
  destruct (fexp prec emax (Zpos (digits2_pos mx) + ex) - ex) as [|d|d] eqn:Hd.
  - pose proof (round_aux_lower mx ex He) as H. cbn zeta in H.
    destruct (binary_round_aux _ _ _ _ _ _) as [| [|] | |[|] m2 e2];
      try exact H.
    destruct H as (H1 & H2 & H3). split; [unfold top; lia|].
    split; assumption.
  - pose proof (round_aux_lower mx ex He) as H. cbn zeta in H.
    destruct (binary_round_aux _ _ _ _ _ _) as [| [|] | |[|] m2 e2];
      try exact H.
    destruct H as (H1 & H2 & H3). split; [unfold top; lia|].
    split; assumption.
  - set (ez := fexp prec emax (Zpos (digits2_pos mx) + ex)) in *.
    pose proof (round_aux_lower (Pos.iter xO mx d) ez Hf) as H.
    cbn zeta in H. rewrite digits2_iter_xO in H.
    destruct (binary_round_aux _ _ _ _ _ _) as [| [|] | |[|] m2 e2];
      try exact H.
    + unfold top. lia.
    + destruct H as (H1 & H2 & H3). split; [unfold top; lia|].
      split; [exact H2|].
      rewrite iter_xO in H3.
      replace (ex - emin64) with (Zpos d + (ez - emin64)) by lia.
      rewrite Z.pow_add_r by lia. lia.
Qed.

Lemma shl_align_fst mx ex ez :
  ez <= ex -> Zpos (fst (shl_align mx ex ez)) = Zpos mx * 2 ^ (ex - ez).
Proof.
  intros Hle. unfold shl_align. destruct (ez - ex) as [|d|d] eqn:Hd;
    cbn [fst].
  - replace (ex - ez) with 0 by lia. simpl. lia.
  - lia.
  - rewrite iter_xO. f_equal. f_equal. lia.
Qed.

(** The sum of two positive numbers: it is positive, or infinity when
    its exponent would be too large; its exponent is bounded by the
    leading bits of the two; and it is less than one unit of its last
    place below the exact sum. *)
Lemma add_lower mx ex my ey :
  emin64 <= ex -> emin64 <= ey ->
  let top := Z.max (Z.min ex ey)
               (Z.max (Zpos (digits2_pos mx) + ex)
                      (Zpos (digits2_pos my) + ey) - prec + 2) in
  match add (S754_finite false mx ex) (S754_finite false my ey) with
  | S754_finite false m2 e2 =>
      emin64 <= e2 <= top /\ Zpos m2 < 2 ^ prec
      /\ Zpos mx * 2 ^ (ex - emin64) + Zpos my * 2 ^ (ey - emin64)
         < (Zpos m2 + 1) * 2 ^ (e2 - emin64)
  | S754_infinity false => emax - prec < top
  | _ => False
  end.
Proof.
  intros Hx Hy top. unfold add, SFadd. cbn [cond_Zopp].
  set (ez := Z.min ex ey) in *.
  pose proof (shl_align_fst mx ex ez ltac:(lia)) as Ex.
  pose proof (shl_align_fst my ey ez ltac:(lia)) as Ey.
  destruct (shl_align mx ex ez) as [mx' ex'].
  destruct (shl_align my ey ez) as [my' ey'].
  cbn [fst] in *.
  change (Zpos mx' + Zpos my') with (Zpos (mx' + my')).
  cbn [binary_normalize].
  pose proof (round_lower (mx' + my') ez ltac:(lia)) as H. cbn zeta in H.
  assert (Hdig : Zpos (digits2_pos (mx' + my')) + ez
                 <= Z.max (Zpos (digits2_pos mx) + ex)
                          (Zpos (digits2_pos my) + ey) + 1).
  { set (g := Z.max (Zpos (digits2_pos mx) + ex)
                    (Zpos (digits2_pos my) + ey)).
    assert (Hd : Zpos (digits2_pos (mx' + my')) <= g - ez + 1).
    { apply digits2_le. rewrite Pos2Z.inj_add, Ex, Ey.
      pose proof (digits2_bounds mx) as [_ Bx].
      pose proof (digits2_bounds my) as [_ By].
      assert (Px : 0 < 2 ^ (ex - ez)) by (apply Z.pow_pos_nonneg; lia).
      assert (Py : 0 < 2 ^ (ey - ez)) by (apply Z.pow_pos_nonneg; lia).
      assert (Hx' : Zpos mx * 2 ^ (ex - ez) < 2 ^ (g - ez)).
      { eapply Z.lt_le_trans;
          [apply Z.mul_lt_mono_pos_r; [exact Px|exact Bx]|].
        rewrite <- Z.pow_add_r by lia. apply Z.pow_le_mono_r; lia. }
      assert (Hy' : Zpos my * 2 ^ (ey - ez) < 2 ^ (g - ez)).
      { eapply Z.lt_le_trans;
          [apply Z.mul_lt_mono_pos_r; [exact Py|exact By]|].
        rewrite <- Z.pow_add_r by lia. apply Z.pow_le_mono_r; lia. }
      replace (g - ez + 1) with (Z.succ (g - ez)) by lia.
      rewrite Z.pow_succ_r by lia. lia. }
    lia. }
  destruct (binary_round _ _ _ _ _) as [| [|] | |[|] m2 e2]; try exact H.
  - unfold top. lia.
  - destruct H as (H1 & H2 & H3). split; [unfold top; lia|].
    split; [exact H2|].
    rewrite Pos2Z.inj_add, Ex, Ey in H3.
    replace (ex - emin64) with ((ex - ez) + (ez - emin64)) by lia.
    replace (ey - emin64) with ((ey - ez) + (ez - emin64)) by lia.
    rewrite !Z.pow_add_r by lia. lia.
Qed.

End Binary64Facts.

(** ** The scheduler in binary64 *)

Section Metronome64Facts.
Import Binary64 Metronome64.
Local Close Scope Q_scope.

(** *** The order of the numbers *)

Lemma lt_irrefl x : lt x x = false.
Proof.
  unfold lt, SFltb, SFcompare.
  destruct x as [s|s| |s m e]; try destruct s; try reflexivity;
    rewrite Z.compare_refl;
    change (Pos.compare_cont Eq m m) with (Pos.compare m m);
    rewrite Pos.compare_refl; reflexivity.
Qed.

Lemma lt_trans a b c : lt a b = true -> lt b c = true -> lt a c = true.
Proof.
  unfold lt, SFltb, SFcompare.
  destruct a as [sa|sa| |sa ma ea], b as [sb|sb| |sb mb eb],
           c as [sc|sc| |sc mc ec];
    try destruct sa; try destruct sb; try destruct sc;
    try discriminate; try reflexivity;
    repeat match goal with
           | |- context [Pos.compare_cont Eq ?p ?q] =>
               change (Pos.compare_cont Eq p q) with (Pos.compare p q)
           end;
    destruct (Z.compare_spec ea eb), (Z.compare_spec eb ec),
             (Z.compare_spec ea ec);
    try discriminate; try reflexivity; try lia;
    destruct (Pos.compare_spec ma mb), (Pos.compare_spec mb mc),
             (Pos.compare_spec ma mc);
    simpl; try discriminate; try reflexivity; try lia.
Qed.

(** What is below a bound is below what is not. *)
Lemma lt_not_below a b W : lt a W = true -> lt b W = false -> lt b a = false.
Proof.
  intros Ha Hb. destruct (lt b a) eqn:E; [|reflexivity].
  rewrite (lt_trans _ _ _ E Ha) in Hb. discriminate.
Qed.

(** *** The loop *)

Lemma set_nextNoteTime_same64 m : set_nextNoteTime (nextNoteTime m) m = m.
Proof. destruct m; reflexivity. Qed.

(** What a finished loop has done: it emitted the accumulated beats from
    the old [nextNoteTime], each below the end of the window, left
    [nextNoteTime] after them and not below the end of the window, and
    touched nothing else. *)
Lemma loop64_spec fuel now m m' evs :
  scheduler_loop fuel now m = Some (m', evs) ->
  m' = set_nextNoteTime
         (advance (nextNoteTime m) (secondsPerBeat m) (length evs)) m
  /\ evs = beats (nextNoteTime m) (secondsPerBeat m) (length evs)
  /\ lt (nextNoteTime m') (add now (scheduleAheadTime m)) = false
  /\ Forall (fun t => lt t (add now (scheduleAheadTime m)) = true) evs.
Proof.
  revert m m' evs. induction fuel as [|fuel IH]; intros m m' evs;
    cbn [scheduler_loop].
  - destruct (lt _ _) eqn:E; [discriminate|].
    intros [= <- <-]. cbn [length advance beats].
    rewrite set_nextNoteTime_same64. repeat split; auto.
  - destruct (lt _ _) eqn:E.
    + destruct (scheduler_loop fuel now (nextNote m)) as [[m1 evs1]|] eqn:L;
        [|discriminate].
      intros [= <- <-]. apply IH in L as (Hm & Hev & Hge & Hall).
      cbn [length advance beats].
      split; [|split; [|split]].
      * rewrite Hm. reflexivity.
      * f_equal. exact Hev.
      * exact Hge.
      * constructor; assumption.
    + intros [= <- <-]. cbn [length advance beats].
      rewrite set_nextNoteTime_same64. repeat split; auto.
Qed.

(** More fuel does not change the outcome of a loop that finished. *)
Lemma loop64_fuel_mono fuel fuel' now m r :
  scheduler_loop fuel now m = Some r -> fuel <= fuel' ->
  scheduler_loop fuel' now m = Some r.
Proof.
  revert fuel' m r. induction fuel as [|fuel IH]; intros fuel' m r;
    cbn [scheduler_loop].
  - destruct (lt _ _) eqn:E; [discriminate|].
    intros H _. destruct fuel'; cbn [scheduler_loop]; rewrite E; exact H.
  - destruct (lt _ _) eqn:E.
    + destruct (scheduler_loop fuel now (nextNote m)) as [r1|] eqn:L;
        [|discriminate].
      intros H Hle. destruct fuel' as [|fuel']; [lia|].
      cbn [scheduler_loop]. rewrite E.
      rewrite (IH fuel' _ _ L); [exact H | lia].
    + intros H _. destruct fuel'; cbn [scheduler_loop]; rewrite E; exact H.
Qed.

(** The loop ends at the first accumulated beat that is not below the end
    of the window. *)
Lemma loop64_first fuel now m n :
  (forall k, k < n ->
     lt (advance (nextNoteTime m) (secondsPerBeat m) k)
        (add now (scheduleAheadTime m)) = true) ->
  lt (advance (nextNoteTime m) (secondsPerBeat m) n)
     (add now (scheduleAheadTime m)) = false ->
  n <= fuel ->
  scheduler_loop fuel now m
  = Some (set_nextNoteTime
            (advance (nextNoteTime m) (secondsPerBeat m) n) m,
          beats (nextNoteTime m) (secondsPerBeat m) n).
Proof.
  revert fuel m. induction n as [|n IH]; intros fuel m Hlt Hge Hle.
  - cbn [advance beats] in *.
    destruct fuel; cbn [scheduler_loop]; rewrite Hge;
      rewrite set_nextNoteTime_same64; reflexivity.
  - destruct fuel as [|fuel]; [lia|]. cbn [scheduler_loop].
    pose proof (Hlt 0 ltac:(lia)) as H0. cbn [advance] in H0. rewrite H0.
    rewrite (IH fuel (nextNote m)).
    + reflexivity.
    + intros k Hk. exact (Hlt (S k) ltac:(lia)).
    + exact Hge.
    + lia.
Qed.

(** A beat that does not move [nextNoteTime] keeps the loop running. *)
Lemma loop64_absorbed fuel now m :
  lt (nextNoteTime m) (add now (scheduleAheadTime m)) = true ->
  add (nextNoteTime m) (secondsPerBeat m) = nextNoteTime m ->
  scheduler_loop fuel now m = None.
Proof.
  intros Hlt Habs. induction fuel as [|fuel IH]; cbn [scheduler_loop];
    rewrite Hlt; [reflexivity|].
  unfold nextNote. rewrite Habs, set_nextNoteTime_same64, IH. reflexivity.
Qed.

(** Beat arithmetic. *)
Lemma advance64_S_r t d n : advance t d (S n) = add (advance t d n) d.
Proof.
  revert t. induction n as [|n IH]; intros t; [reflexivity|].
  change (advance t d (S (S n))) with (advance (add t d) d (S n)).
  rewrite IH. reflexivity.
Qed.

Lemma advance64_add t d n k :
  advance t d (n + k) = advance (advance t d n) d k.
Proof. revert t. induction n as [|n IH]; intros t; simpl; auto. Qed.

Lemma beats64_length t d n : length (beats t d n) = n.
Proof. revert t. induction n as [|n IH]; intros t; simpl; auto. Qed.

Lemma beats64_app t d n k :
  (beats t d n ++ beats (advance t d n) d k)%list = beats t d (n + k).
Proof.
  revert t. induction n as [|n IH]; intros t; simpl; [reflexivity|].
  rewrite IH. reflexivity.
Qed.

Lemma beats64_lookup t d n k :
  k < n -> beats t d n !! k = Some (advance t d k).
Proof.
  revert t k. induction n as [|n IH]; intros t k Hk; [lia|].
  destruct k as [|k]; [reflexivity|]. simpl. apply IH. lia.
Qed.

Lemma beats64_lookup_Some t d n k a :
  beats t d n !! k = Some a -> a = advance t d k.
Proof.
  intros H. assert (Hk : k < n).
  { apply lookup_lt_Some in H. rewrite beats64_length in H. exact H. }
  rewrite beats64_lookup in H by exact Hk. congruence.
Qed.

Lemma beats64_last t d n : last (beats t d (S n)) = Some (advance t d n).
Proof.
  rewrite last_lookup, beats64_length. cbn [pred].
  apply beats64_lookup. lia.
Qed.

(** A pass in terms of its loop. *)
Lemma scheduler64_Some fuel now m m' evs :
  scheduler fuel now m = Some (m', evs) ->
  exists m1, scheduler_loop fuel now m = Some (m1, evs)
             /\ m' = set_timerID (Some (lookahead m)) m1.
Proof.
  unfold scheduler.
  destruct (scheduler_loop fuel now m) as [[m1 evs1]|] eqn:L; [|discriminate].
  intros [= <- <-]. exists m1. split; [reflexivity|].
  apply loop64_spec in L as (-> & _). reflexivity.
Qed.

(** C3, as the scheduler has it.  Whenever a scheduling pass completes,
    [nextNoteTime] has not gone back, and it is not below the end of the
    lookahead window, [now + scheduleAheadTime] as binary64 adds them.  A
    pass that emitted nothing has left [nextNoteTime] alone; one that
    emitted has left it one beat, [60 / bpm], after the last trigger time
    it emitted, which was itself below the end of the window. *)
Theorem nextNoteTime_after_pass fuel now m m' evs :
  scheduler fuel now m = Some (m', evs) ->
  lt (nextNoteTime m') (nextNoteTime m) = false
  /\ lt (nextNoteTime m') (add now (scheduleAheadTime m)) = false
  /\ (evs = [] -> nextNoteTime m' = nextNoteTime m)
  /\ (forall t, last evs = Some t ->
         lt t (add now (scheduleAheadTime m)) = true
         /\ nextNoteTime m' = add t (div (of_Z 60) (bpm m))).
Proof.
  intros H. apply scheduler64_Some in H as (m1 & HL & ->).
  apply loop64_spec in HL as (Hm & Hev & Hge & Hall).
  change (nextNoteTime (set_timerID (Some (lookahead m)) m1))
    with (nextNoteTime m1).
  assert (Hn : nextNoteTime m1
               = advance (nextNoteTime m) (secondsPerBeat m) (length evs))
    by (rewrite Hm; reflexivity).
  destruct (length evs) as [|n] eqn:Hlen.
  - destruct evs; [|discriminate]. cbn [advance] in Hn.
    split; [rewrite Hn; apply lt_irrefl|]. split; [exact Hge|].
    split; [intros _; exact Hn|]. intros t Ht. discriminate.
  - assert (Hlast : last evs
                    = Some (advance (nextNoteTime m) (secondsPerBeat m) n)).
    { rewrite Hev. apply beats64_last. }
    assert (Hin : lt (advance (nextNoteTime m) (secondsPerBeat m) n)
                     (add now (scheduleAheadTime m)) = true).
    { rewrite Forall_lookup in Hall. rewrite last_lookup in Hlast.
      exact (Hall _ _ Hlast). }
    assert (Hfirst : lt (nextNoteTime m) (add now (scheduleAheadTime m))
                     = true).
    { rewrite Forall_lookup in Hall. apply (Hall 0).
      rewrite Hev. reflexivity. }
    split; [exact (lt_not_below _ _ _ Hfirst Hge)|]. split; [exact Hge|].
    split; [intros ->; discriminate|].
    intros t Ht. rewrite Hlast in Ht. injection Ht as <-.
    split; [exact Hin|]. rewrite Hn. apply advance64_S_r.
Qed.

Lemma nextNoteTime_after_pass_witness :
  let m := set_timerID (Some (of_Z 25))
             (set_nextNoteTime (decimal 5 1)
                (set_isPlaying true new_Metronome)) in
  exists m',
    scheduler 5 (of_Z 1) m = Some (m', [decimal 5 1; of_Z 1])
    /\ lt (nextNoteTime m') (nextNoteTime m) = false
    /\ lt (nextNoteTime m') (add (of_Z 1) (scheduleAheadTime m)) = false
    /\ nextNoteTime m' = add (of_Z 1) (div (of_Z 60) (bpm m)).
Proof.
  cbn zeta. eexists. split; [vm_compute; reflexivity|].
  destruct (nextNoteTime_after_pass 5 (of_Z 1)
              (set_timerID (Some (of_Z 25))
                 (set_nextNoteTime (decimal 5 1)
                    (set_isPlaying true new_Metronome)))
              _ [decimal 5 1; of_Z 1] ltac:(vm_compute; reflexivity))
    as (H1 & H2 & _ & H4).
  split; [exact H1|]. split; [exact H2|].
  exact (proj2 (H4 (of_Z 1) eq_refl)).
Defined.

(** C3 as the spec words it fails on the first pass of a fresh metronome
    started at clock reading 0: one beat is emitted at 0 and
    [nextNoteTime] becomes 0.5, which is not below the end 0.1 of the
    window. *)
Lemma nextNoteTime_leaves_window :
  exists m',
    toggle 1 (of_Z 0) new_Metronome = Some (m', [of_Z 0])
    /\ nextNoteTime m' = decimal 5 1
    /\ ~ (lt (nextNoteTime m') (of_Z 0) = false
          /\ lt (nextNoteTime m') (add (of_Z 0) (scheduleAheadTime m'))
             = true).
Proof.
  eexists. split; [vm_compute; reflexivity|]. split; [reflexivity|].
  intros [_ H]. vm_compute in H. discriminate.
Qed.

(** While the metronome runs, whatever the clock readings at which the
    timeout runs, everything emitted since a point of a run is the
    accumulated beats from the [nextNoteTime] of that point. *)
Lemma run64_timeouts fuel fires m m' evs :
  run fuel (map Timeout fires) m = Some (m', evs) ->
  evs = beats (nextNoteTime m) (secondsPerBeat m) (length evs)
  /\ nextNoteTime m'
     = advance (nextNoteTime m) (secondsPerBeat m) (length evs)
  /\ bpm m' = bpm m.
Proof.
  revert m m' evs. induction fires as [|t fires IH]; intros m m' evs.
  { intros [= <- <-]. repeat split. }
  cbn [map run].
  destruct (exec fuel (Timeout t) m) as [[m1 evs1]|] eqn:He; [|discriminate].
  destruct (run fuel (map Timeout fires) m1) as [[m2 evs2]|] eqn:Hr;
    [|discriminate].
  intros [= <- <-].
  assert (Hstep : evs1 = beats (nextNoteTime m) (secondsPerBeat m)
                           (length evs1)
                  /\ nextNoteTime m1
                     = advance (nextNoteTime m) (secondsPerBeat m)
                         (length evs1)
                  /\ bpm m1 = bpm m).
  { cbn [exec] in He. destruct (timerID m).
    - apply scheduler64_Some in He as (m0 & HL & ->).
      apply loop64_spec in HL as (-> & Hev & _ & _).
      repeat split. exact Hev.
    - injection He as <- <-. repeat split. }
  destruct Hstep as (Hev1 & Hn1 & Hb1).
  apply IH in Hr as (Hev2 & Hn2 & Hb2).
  assert (Hd : secondsPerBeat m1 = secondsPerBeat m)
    by (unfold secondsPerBeat; rewrite Hb1; reflexivity).
  rewrite Hd, Hn1 in Hev2, Hn2.
  split; [|split].
  - rewrite length_app, <- beats64_app, <- Hev1, <- Hev2. reflexivity.
  - rewrite length_app, advance64_add. exact Hn2.
  - congruence.
Qed.

(** C4, as the scheduler has it.  Start a stopped metronome at any clock
    reading [T0] and let the timeout run at arbitrary clock readings
    [fires].  If all the passes complete, the emitted trigger times are
    the accumulated beats from [T0]: the first is [T0], and each further
    one is the one before plus [60 / bpm], as binary64 divides and adds.
    The readings [fires] decide how many are emitted, not which. *)
Theorem beats_are_rounded_sums fuel m0 T0 fires m evs :
  isPlaying m0 = false ->
  run fuel (Click T0 :: map Timeout fires) m0 = Some (m, evs) ->
  evs = beats T0 (div (of_Z 60) (bpm m0)) (length evs)
  /\ nextNoteTime m = advance T0 (div (of_Z 60) (bpm m0)) (length evs)
  /\ forall k a b,
       evs !! k = Some a -> evs !! S k = Some b ->
       b = add a (div (of_Z 60) (bpm m0)).
Proof.
  intros Hoff. cbn [run exec]. unfold toggle. rewrite Hoff.
  cbn [negb isPlaying set_isPlaying].
  set (ms := set_nextNoteTime T0 (set_isPlaying true m0)).
  destruct (scheduler fuel T0 ms) as [[m1 evs1]|] eqn:HS; [|discriminate].
  destruct (run fuel (map Timeout fires) m1) as [[m2 evs2]|] eqn:Hr;
    [|discriminate].
  intros [= <- <-].
  apply scheduler64_Some in HS as (m1' & HL & ->).
  apply loop64_spec in HL as (-> & Hev1 & _ & _).
  apply run64_timeouts in Hr as (Hev2 & Hn2 & _).
  change (secondsPerBeat _) with (div (of_Z 60) (bpm m0)) in Hev1, Hev2, Hn2.
  change (nextNoteTime (set_timerID _ (set_nextNoteTime ?t _)))
    with t in Hev2, Hn2.
  change (nextNoteTime ms) with T0 in Hev1, Hev2, Hn2.
  assert (Hall : (evs1 ++ evs2)%list
                 = beats T0 (div (of_Z 60) (bpm m0))
                     (length (evs1 ++ evs2)%list)).
  { rewrite length_app, <- beats64_app, <- Hev2. f_equal. exact Hev1. }
  split; [exact Hall|]. split.
  - rewrite length_app, advance64_add. exact Hn2.
  - intros k a b Ha Hb. rewrite Hall in Ha, Hb.
    apply beats64_lookup_Some in Ha, Hb. rewrite advance64_S_r in Hb.
    rewrite Ha, Hb. reflexivity.
Qed.

Lemma beats_are_rounded_sums_witness :
  exists m,
    run 5 (Click (of_Z 0) :: map Timeout [decimal 2 1; of_Z 2])
      (set_bpm (of_Z 100) new_Metronome)
    = Some (m, [of_Z 0; decimal 6 1; decimal 12 1;
                add (decimal 12 1) (decimal 6 1)])
    /\ nextNoteTime m
       = add (add (decimal 12 1) (decimal 6 1)) (div (of_Z 60) (of_Z 100))
    /\ decimal 12 1 = add (decimal 6 1) (div (of_Z 60) (of_Z 100)).
Proof.
  eexists. split; [vm_compute; reflexivity|].
  destruct (beats_are_rounded_sums 5 (set_bpm (of_Z 100) new_Metronome)
              (of_Z 0) [decimal 2 1; of_Z 2] _
              [of_Z 0; decimal 6 1; decimal 12 1;
               add (decimal 12 1) (decimal 6 1)]
              eq_refl ltac:(vm_compute; reflexivity))
    as (_ & H2 & H3).
  split; [exact H2|].
  exact (H3 1 (decimal 6 1) (decimal 12 1) eq_refl eq_refl).
Defined.

(** C4 as the spec words it fails on the metronome of the application
    (120 [bpm]) started at clock reading 0.904 with the timeout running
    at 1.4: two trigger times are emitted, and the second is not exactly
    half a second after the first, neither as rationals nor by the
    subtraction of binary64. *)
Lemma beats_not_evenly_spaced :
  exists m a b,
    run 5 [Click (decimal 904 3); Timeout (decimal 14 1)] new_Metronome
    = Some (m, [a; b])
    /\ ~ (value b - value a == 60 / 120)%Q
    /\ sub b a <> div (of_Z 60) (of_Z 120).
Proof.
  eexists _, _, _. split; [vm_compute; reflexivity|]. split.
  - intros H. vm_compute in H. discriminate.
  - intros H. vm_compute in H. discriminate.
Qed.

(** *** More on the scheduler in binary64 *)

Lemma loop64_length fuel now m m' evs :
  scheduler_loop fuel now m = Some (m', evs) -> length evs <= fuel.
Proof.
  revert m m' evs. induction fuel as [|fuel IH]; intros m m' evs;
    cbn [scheduler_loop].
  - destruct (lt _ _); [discriminate|]. intros [= <- <-]. reflexivity.
  - destruct (lt _ _).
    + destruct (scheduler_loop fuel now (nextNote m)) as [[m1 evs1]|] eqn:L;
        [|discriminate].
      intros [= <- <-]. apply IH in L. cbn [length]. lia.
    + intros [= <- <-]. cbn [length]. lia.
Qed.

(** What a pass emits.  Let the accumulated beats be [nextNoteTime],
    [nextNoteTime + 60/bpm], and so on, each sum rounded.  A pass
    completes within [fuel] turns exactly when one of the first [fuel]
    accumulated beats, counted from 0, is not below the end of the
    window.  If number [n] is the first such beat, the pass has emitted
    the [n] beats before it, in order and however many were overdue, has
    left [nextNoteTime] on that beat and has armed the timeout. *)
Theorem pass_emits_due_beats fuel now m m' evs :
  scheduler fuel now m = Some (m', evs)
  <-> exists n,
        n <= fuel
        /\ (forall k, k < n ->
              lt (advance (nextNoteTime m) (div (of_Z 60) (bpm m)) k)
                 (add now (scheduleAheadTime m)) = true)
        /\ lt (advance (nextNoteTime m) (div (of_Z 60) (bpm m)) n)
              (add now (scheduleAheadTime m)) = false
        /\ evs = beats (nextNoteTime m) (div (of_Z 60) (bpm m)) n
        /\ m' = set_timerID (Some (lookahead m))
                  (set_nextNoteTime
                     (advance (nextNoteTime m) (div (of_Z 60) (bpm m)) n) m).
Proof.
  split.
  - intros H. apply scheduler64_Some in H as (m1 & HL & ->).
    pose proof (loop64_length _ _ _ _ _ HL) as Hlen.
    apply loop64_spec in HL as (-> & Hev & Hge & Hall).
    exists (length evs). split; [exact Hlen|]. split; [|split; [|split]].
    + intros k Hk. rewrite Forall_lookup in Hall. apply (Hall k).
      rewrite Hev. apply beats64_lookup. exact Hk.
    + exact Hge.
    + exact Hev.
    + reflexivity.
  - intros (n & Hle & Hlt & Hge & -> & ->). unfold scheduler.
    rewrite (loop64_first fuel now m n Hlt Hge Hle). reflexivity.
Qed.

(** At 200 [bpm] the beat after 0 is 0.3; at clock reading 0.2 the window
    ends at 0.30000000000000004, so the beat at 0.3 is emitted. *)
Example pass_at_200_bpm :
  let m := set_nextNoteTime (decimal 3 1)
             (set_bpm (of_Z 200) (set_isPlaying true new_Metronome)) in
  scheduler 3 (decimal 2 1) m
  = Some (set_timerID (Some (of_Z 25))
            (set_nextNoteTime (add (decimal 3 1) (decimal 3 1)) m),
          [decimal 3 1]).
Proof. vm_compute. reflexivity. Qed.

(** A pass that never ends.  If the beat is so short, or [nextNoteTime]
    so large, that adding the beat gives [nextNoteTime] back, and
    [nextNoteTime] is below the end of the window, then the loop is still
    running after any number of turns. *)
Theorem absorbed_beat_never_ends fuel now m :
  lt (nextNoteTime m) (add now (scheduleAheadTime m)) = true ->
  add (nextNoteTime m) (div (of_Z 60) (bpm m)) = nextNoteTime m ->
  scheduler fuel now m = None.
Proof.
  intros Hlt Habs. unfold scheduler.
  rewrite (loop64_absorbed fuel now m Hlt Habs). reflexivity.
Qed.

Lemma absorbed_beat_never_ends_witness :
  let m := set_nextNoteTime (of_Z 5)
             (set_isPlaying true
                (set_bpm (of_Z 1000000000000000000) new_Metronome)) in
  add (nextNoteTime m) (div (of_Z 60) (bpm m)) = nextNoteTime m
  /\ (forall fuel, scheduler fuel (of_Z 5) m = None)
  /\ (forall fuel,
        toggle fuel (of_Z 5)
          (set_bpm (of_Z 1000000000000000000) new_Metronome) = None).
Proof.
  cbn zeta. split; [vm_compute; reflexivity|]. split.
  - intros fuel. apply absorbed_beat_never_ends; vm_compute; reflexivity.
  - intros fuel. unfold toggle.
    cbn [negb isPlaying set_isPlaying set_bpm new_Metronome].
    apply absorbed_beat_never_ends; vm_compute; reflexivity.
Defined.

(** In every state that clicks and timeouts reach from a stopped
    metronome, the tempo is the one it had, and a timeout is armed
    exactly while the metronome is playing. *)
Theorem timer_armed_iff_playing fuel m0 tr m evs :
  isPlaying m0 = false -> timerID m0 = None ->
  run fuel tr m0 = Some (m, evs) ->
  bpm m = bpm m0 /\ (isPlaying m = true <-> is_Some (timerID m)).
Proof.
  intros Hoff Hnone.
  assert (Hgen : forall m1 m2 evs2,
            (isPlaying m1 = true <-> is_Some (timerID m1)) ->
            run fuel tr m1 = Some (m2, evs2) ->
            bpm m2 = bpm m1
            /\ (isPlaying m2 = true <-> is_Some (timerID m2))).
  { clear. induction tr as [|ev tr IH]; intros m1 m3 evs3 Hinv.
    { intros [= <- <-]. auto. }
    cbn [run].
    destruct (exec fuel ev m1) as [[m2 evs2]|] eqn:He; [|discriminate].
    destruct (run fuel tr m2) as [[m3' evs3']|] eqn:Hr; [|discriminate].
    intros [= <- <-].
    assert (Hstep : bpm m2 = bpm m1
                    /\ (isPlaying m2 = true <-> is_Some (timerID m2))).
    { destruct ev as [now|now]; cbn [exec] in He.
      - unfold toggle in He. destruct (isPlaying m1) eqn:Hp;
          cbn [negb isPlaying set_isPlaying] in He.
        + injection He as <- <-. split; [reflexivity|].
          cbn [isPlaying timerID set_timerID set_isPlaying].
          split; [discriminate | intros [x Hx]; discriminate].
        + apply scheduler64_Some in He as (m' & HL & ->).
          apply loop64_spec in HL as (-> & _).
          split; [reflexivity|].
          cbn [isPlaying timerID set_timerID set_isPlaying
               set_nextNoteTime].
          split; eauto.
      - destruct (timerID m1) as [d|] eqn:Ht.
        + apply scheduler64_Some in He as (m' & HL & ->).
          apply loop64_spec in HL as (-> & _).
          split; [reflexivity|].
          cbn [isPlaying timerID set_timerID set_nextNoteTime].
          split; [eauto|]. intros _. apply Hinv. eauto.
        + injection He as <- <-. rewrite Ht. auto. }
    destruct Hstep as [Hb2 Hinv2].
    destruct (IH m2 _ _ Hinv2 Hr) as [Hb3 Hinv3].
    split; [congruence | exact Hinv3]. }
  apply Hgen. rewrite Hoff, Hnone.
  split; [discriminate | intros [x Hx]; discriminate].
Qed.

Lemma timer_armed_iff_playing_witness :
  exists m evs,
    run 9 [Click (of_Z 0); Timeout (of_Z 1); Click (of_Z 2);
           Timeout (of_Z 3); Click (of_Z 4)] new_Metronome
    = Some (m, evs)
    /\ bpm m = bpm new_Metronome
    /\ (isPlaying m = true <-> is_Some (timerID m)).
Proof.
  eexists _, _. split; [vm_compute; reflexivity|].
  eapply (timer_armed_iff_playing 9 new_Metronome
            [Click (of_Z 0); Timeout (of_Z 1); Click (of_Z 2);
             Timeout (of_Z 3); Click (of_Z 4)]);
    [reflexivity | reflexivity | vm_compute; reflexivity].
Defined.

End Metronome64Facts.

(** ** Passes that end *)

Section Metronome64Ends.
Import Binary64 Metronome64.
Local Close Scope Q_scope.
Local Open Scope Z_scope.

Lemma valid_pos_ok m e :
  valid_binary prec emax (S754_finite false m e) = true ->
  pos_ok (S754_finite false m e).
Proof.
  cbn [valid_binary pos_ok]. unfold bounded, canonical_mantissa.
  intros H. apply andb_true_iff in H as [H _]. apply Z.eqb_eq in H.
  pose proof (fexp_ge (Zpos (digits2_pos m) + e)) as Hge.
  pose proof (digits2_bounds m) as Hd.
  split; [lia|].
  eapply Z.lt_le_trans; [apply Hd|]. apply Z.pow_le_mono_r; [lia|].
  destruct (fexp_cases (Zpos (digits2_pos m) + e)) as [[E _]|[E E']]; lia.
Qed.

Lemma lt_exp mt et mW eW :
  lt (S754_finite false mt et) (S754_finite false mW eW) = true -> et <= eW.
Proof.
  unfold lt, SFltb, SFcompare. destruct (Z.compare_spec et eW);
    first [lia | discriminate].
Qed.

Lemma lt_scaled mt et mW eW :
  pos_ok (S754_finite false mt et) ->
  lt (S754_finite false mt et) (S754_finite false mW eW) = true ->
  scaled (S754_finite false mt et) < 2 ^ prec * 2 ^ (eW - emin64).
Proof.
  intros [He Hm] Hlt. apply lt_exp in Hlt. cbn [scaled].
  assert (0 < 2 ^ (et - emin64)) by (apply Z.pow_pos_nonneg; lia).
  assert (2 ^ (et - emin64) <= 2 ^ (eW - emin64))
    by (apply Z.pow_le_mono_r; lia).
  nia.
Qed.

(** The loop ends when the beat is at least two units in the last place
    of the end of the window. *)
Lemma loop64_ends now m ms es mW eW :
  secondsPerBeat m = S754_finite false ms es -> emin64 <= es ->
  add now (scheduleAheadTime m) = S754_finite false mW eW ->
  2 * 2 ^ (eW - emin64) <= Zpos ms * 2 ^ (es - emin64) ->
  forall (k : nat) t,
    pos_ok t ->
    (lt t (S754_finite false mW eW) = true ->
     2 ^ prec * 2 ^ (eW - emin64) - scaled t <= Z.of_nat k) ->
    exists fuel r, scheduler_loop fuel now (set_nextNoteTime t m) = Some r.
Proof.
  intros Hs Hes HW Hbig. induction k as [|k IH]; intros t Hok Hk.
  - exists O. cbn [scheduler_loop nextNoteTime set_nextNoteTime
                   scheduleAheadTime]. rewrite HW.
    destruct (lt t _) eqn:Hlt; [|eauto].
    destruct t as [| | |[|] mt et]; try contradiction.
    pose proof (lt_scaled mt et mW eW Hok Hlt). specialize (Hk eq_refl). lia.
  - destruct (lt t (S754_finite false mW eW)) eqn:Hlt.
    2:{ exists O. cbn [scheduler_loop nextNoteTime set_nextNoteTime
                       scheduleAheadTime]. rewrite HW, Hlt. eauto. }
    destruct t as [| | |[|] mt et]; try contradiction.
    destruct Hok as [Het Hmt].
    pose proof (add_lower mt et ms es Het Hes) as Hadd. cbn zeta in Hadd.
    assert (Hnext : nextNote (set_nextNoteTime (S754_finite false mt et) m)
                    = set_nextNoteTime
                        (add (S754_finite false mt et)
                           (S754_finite false ms es)) m).
    { unfold nextNote. cbn [nextNoteTime set_nextNoteTime].
      change (secondsPerBeat (set_nextNoteTime _ m)) with (secondsPerBeat m).
      rewrite Hs. reflexivity. }
    destruct (add (S754_finite false mt et) (S754_finite false ms es))
      as [| [|] | |[|] m2 e2] eqn:Hr; try contradiction.
    + (* overflow *)
      exists 1%nat. cbn [scheduler_loop]. rewrite Hnext.
      cbn [nextNoteTime set_nextNoteTime scheduleAheadTime].
      rewrite HW, Hlt. cbn [lt SFltb SFcompare]. eauto.
    + destruct Hadd as ([He2 _] & Hm2 & Hbound).
      destruct (IH (S754_finite false m2 e2)) as (fuel & r & Hloop).
      * split; assumption.
      * intros Hlt2. specialize (Hk eq_refl).
        pose proof (lt_exp _ _ _ _ Hlt2) as Hexp.
        assert (2 ^ (e2 - emin64) <= 2 ^ (eW - emin64))
          by (apply Z.pow_le_mono_r; lia).
        cbn [scaled] in *. lia.
      * exists (S fuel). cbn [scheduler_loop]. rewrite Hnext.
        cbn [nextNoteTime set_nextNoteTime scheduleAheadTime].
        rewrite HW, Hlt, Hloop.
        destruct r as [m' evs]. eauto.
Qed.

Lemma clock_reading_cases x :
  clock_reading x = true ->
  (exists s, x = S754_zero s)
  \/ exists m e, x = S754_finite false m e /\ pos_ok x
                 /\ Zpos (digits2_pos m) + e <= 49 /\ e <= -4.
Proof.
  unfold clock_reading. intros H. apply andb_true_iff in H as [Hv H].
  destruct x as [s| | |[|] m e]; try discriminate; [eauto|].
  right. exists m, e. apply Z.leb_le in H.
  pose proof (valid_pos_ok m e Hv) as Hok.
  split; [reflexivity|]. split; [exact Hok|]. split; [exact H|].
  cbn [valid_binary] in Hv. unfold bounded, canonical_mantissa in Hv.
  apply andb_true_iff in Hv as [Hc _]. apply Z.eqb_eq in Hc.
  destruct (fexp_cases (Zpos (digits2_pos m) + e)) as [[E _]|[E _]];
    unfold emin64, emin, emax, prec in *; lia.
Qed.

Lemma clock_reading_time_ok x : clock_reading x = true -> time_ok x.
Proof.
  intros H. destruct (clock_reading_cases x H) as [[s ->]|(m & e & -> & Hok & _)].
  - exact I.
  - exact Hok.
Qed.

Lemma slow_beat_cases s :
  slow_beat s = true ->
  exists m e, s = S754_finite false m e /\ pos_ok s
              /\ 0 <= Zpos (digits2_pos m) + e.
Proof.
  unfold slow_beat. intros H. apply andb_true_iff in H as [Hv H].
  destruct s as [| | |[|] m e]; try discriminate.
  exists m, e. apply Z.leb_le in H.
  split; [reflexivity|]. split; [exact (valid_pos_ok m e Hv)|exact H].
Qed.

(** The end of the window for a reading of the clock: zero, or a
    positive number with a small exponent. *)
Lemma window_end now w :
  clock_reading now = true -> clock_reading w = true ->
  (exists s, add now w = S754_zero s)
  \/ exists mW eW, add now w = S754_finite false mW eW /\ eW <= -2.
Proof.
  intros Hn Hw.
  destruct (clock_reading_cases now Hn)
    as [[sn ->]|(mn & en & -> & [Hen _] & Hmag & Hen4)];
  destruct (clock_reading_cases w Hw)
    as [[sw ->]|(mw & ew & -> & [Hew _] & Hmagw & Hew4)].
  - left. destruct sn, sw; eexists; reflexivity.
  - right. exists mw, ew. split; [reflexivity|lia].
  - right. exists mn, en. split; [reflexivity|lia].
  - right. pose proof (add_lower mn en mw ew Hen Hew) as H. cbn zeta in H.
    destruct (add _ _) as [| [|] | |[|] m2 e2]; try contradiction.
    + unfold emax, prec in H. lia.
    + exists m2, e2. split; [reflexivity|]. unfold prec in H. lia.
Qed.

Lemma time_ok_add t s : time_ok t -> pos_ok s -> time_ok (add t s).
Proof.
  intros Ht Hs. destruct s as [| | |[|] ms es]; try contradiction.
  destruct Hs as [Hes Hms].
  destruct t as [st|[|]| |[|] mt et]; try contradiction.
  - cbn. split; assumption.
  - exact I.
  - destruct Ht as [Het Hmt].
    pose proof (add_lower mt et ms es Het Hes) as H. cbn zeta in H.
    destruct (add _ _) as [| [|] | |[|] m2 e2]; try contradiction.
    + exact I.
    + cbn. destruct H as ([H1 _] & H2 & _). split; assumption.
Qed.

Lemma time_ok_advance t s n :
  time_ok t -> pos_ok s -> time_ok (advance t s n).
Proof.
  revert t. induction n as [|n IH]; intros t Ht Hs; [exact Ht|].
  cbn [advance]. apply IH; [apply time_ok_add; assumption|exact Hs].
Qed.

(** A pass ends when the beat is at least half a second and the clock
    reads below [2^49]. *)
Lemma pass64_ends now m :
  slow_beat (secondsPerBeat m) = true ->
  clock_reading (scheduleAheadTime m) = true ->
  clock_reading now = true ->
  time_ok (nextNoteTime m) ->
  exists fuel m' evs,
    scheduler_loop fuel now m = Some (m', evs) /\ time_ok (nextNoteTime m').
Proof.
  intros Hs Hw Hn Ht.
  destruct (slow_beat_cases _ Hs) as (ms & es & Es & Hok & Hmag).
  assert (Hpos : pos_ok (secondsPerBeat m)) by exact Hok.
  rewrite Es in Hok. destruct Hok as [Hes Hms].
  assert (Hend : forall fuel r,
            scheduler_loop fuel now m = Some r ->
            exists fuel m' evs,
              scheduler_loop fuel now m = Some (m', evs)
              /\ time_ok (nextNoteTime m')).
  { intros fuel [m' evs] H. exists fuel, m', evs. split; [exact H|].
    apply loop64_spec in H as (-> & _).
    cbn [nextNoteTime set_nextNoteTime]. apply time_ok_advance; assumption. }
  destruct (window_end now (scheduleAheadTime m) Hn Hw)
    as [[sW EW]|(mW & eW & EW & HeW)].
  - (* the window ends at zero: nothing is below it *)
    apply (Hend O (m, [])). cbn [scheduler_loop]. rewrite EW.
    destruct (nextNoteTime m) as [st|[|]| |[|] mt et]; try contradiction;
      reflexivity.
  - assert (Hbig : 2 * 2 ^ (eW - emin64) <= Zpos ms * 2 ^ (es - emin64)).
    { destruct (Z.lt_ge_cases eW emin64) as [Hneg|Hnn].
      - rewrite (Z.pow_neg_r 2 (eW - emin64)) by lia.
        assert (0 < 2 ^ (es - emin64)) by (apply Z.pow_pos_nonneg; lia).
        lia.
      - pose proof (digits2_bounds ms) as [Hl _].
        set (d := Zpos (digits2_pos ms)) in *.
        assert (H1 : 2 * 2 ^ (eW - emin64) = 2 ^ (eW + 1 - emin64)).
        { replace (eW + 1 - emin64) with (Z.succ (eW - emin64)) by lia.
          rewrite Z.pow_succ_r by lia. reflexivity. }
        assert (H2 : 2 ^ (eW + 1 - emin64)
                     <= 2 ^ (d - 1) * 2 ^ (es - emin64)).
        { rewrite <- Z.pow_add_r by lia. apply Z.pow_le_mono_r; lia. }
        assert (0 < 2 ^ (es - emin64)) by (apply Z.pow_pos_nonneg; lia).
        nia. }
    assert (Hgo : forall t, pos_ok t ->
              exists fuel r,
                scheduler_loop fuel now (set_nextNoteTime t m) = Some r).
    { intros t Hpt.
      apply (loop64_ends now m ms es mW eW Es Hes EW Hbig
               (Z.to_nat (2 ^ prec * 2 ^ (eW - emin64) - scaled t)) t Hpt).
      intros _. lia. }
    destruct (nextNoteTime m) as [st|[|]| |[|] mt et] eqn:Et;
      try contradiction.
    + (* from zero: the first beat is emitted and the beat is added *)
      destruct (Hgo (secondsPerBeat m) Hpos) as (fuel & [m1 evs1] & H).
      apply (Hend (S fuel) (m1, nextNoteTime m :: evs1)).
      cbn [scheduler_loop]. rewrite EW, Et.
      change (lt (S754_zero st) (S754_finite false mW eW)) with true.
      cbv iota.
      assert (Hnext : nextNote m
                      = set_nextNoteTime (secondsPerBeat m) m).
      { unfold nextNote. rewrite Et, Es. reflexivity. }
      rewrite Hnext, H. reflexivity.
    + apply (Hend O (m, [])). cbn [scheduler_loop]. rewrite EW, Et.
      reflexivity.
    + destruct (Hgo (S754_finite false mt et) Ht) as (fuel & r & H).
      apply (Hend fuel r). rewrite <- Et, set_nextNoteTime_same64 in H.
      exact H.
Qed.

Lemma scheduler64_fuel_mono fuel fuel' now m r :
  scheduler fuel now m = Some r -> (fuel <= fuel')%nat ->
  scheduler fuel' now m = Some r.
Proof.
  unfold scheduler. intros H Hle.
  destruct (scheduler_loop fuel now m) as [r1|] eqn:L; [|discriminate].
  rewrite (loop64_fuel_mono _ _ _ _ _ L Hle). exact H.
Qed.

Lemma exec64_fuel_mono fuel fuel' ev m r :
  exec fuel ev m = Some r -> (fuel <= fuel')%nat ->
  exec fuel' ev m = Some r.
Proof.
  intros H Hle. destruct ev as [now|now]; cbn [exec] in *.
  - unfold toggle in *. destruct (isPlaying (set_isPlaying _ m));
      [eapply scheduler64_fuel_mono; eassumption|exact H].
  - destruct (timerID m);
      [eapply scheduler64_fuel_mono; eassumption|exact H].
Qed.

Lemma run64_fuel_mono fuel fuel' tr m r :
  run fuel tr m = Some r -> (fuel <= fuel')%nat ->
  run fuel' tr m = Some r.
Proof.
  revert m r. induction tr as [|ev tr IH]; intros m r H Hle; [exact H|].
  cbn [run] in *.
  destruct (exec fuel ev m) as [[m1 evs1]|] eqn:He; [|discriminate].
  rewrite (exec64_fuel_mono _ _ _ _ _ He Hle).
  destruct (run fuel tr m1) as [[m2 evs2]|] eqn:Hr; [|discriminate].
  rewrite (IH _ _ Hr Hle). exact H.
Qed.

Lemma scheduler64_ends now m :
  steady m -> clock_reading now = true ->
  exists fuel m' evs, scheduler fuel now m = Some (m', evs) /\ steady m'.
Proof.
  intros (Hs & Hw & Ht) Hn.
  destruct (pass64_ends now m Hs Hw Hn Ht) as (fuel & m1 & evs & HL & Ht1).
  exists fuel, (set_timerID (Some (lookahead m1)) m1), evs.
  unfold scheduler. rewrite HL. split; [reflexivity|].
  apply loop64_spec in HL as (-> & _).
  split; [exact Hs|]. split; [exact Hw|exact Ht1].
Qed.

Lemma exec64_ends ev m :
  steady m -> clock_reading (reading ev) = true ->
  exists fuel m' evs, exec fuel ev m = Some (m', evs) /\ steady m'.
Proof.
  intros Hst Hn. destruct ev as [now|now]; cbn [exec reading] in *.
  - unfold toggle. destruct (isPlaying m) eqn:Hp;
      cbn [negb isPlaying set_isPlaying].
    + exists O. eexists _, _. split; [reflexivity|]. exact Hst.
    + apply scheduler64_ends; [|exact Hn].
      destruct Hst as (Hs & Hw & _). split; [exact Hs|]. split; [exact Hw|].
      apply clock_reading_time_ok. exact Hn.
  - destruct (timerID m).
    + apply scheduler64_ends; assumption.
    + exists O, m, []. split; [reflexivity|exact Hst].
Qed.

Lemma run64_ends tr m :
  steady m -> Forall (fun ev => clock_reading (reading ev) = true) tr ->
  exists fuel m' evs, run fuel tr m = Some (m', evs).
Proof.
  intros Hst Hall. revert m Hst.
  induction Hall as [|ev tr Hev _ IH]; intros m Hst.
  - exists O, m, []. reflexivity.
  - destruct (exec64_ends ev m Hst Hev) as (f1 & m1 & evs1 & He & Hst1).
    destruct (IH m1 Hst1) as (f2 & m2 & evs2 & Hr).
    exists (Nat.max f1 f2), m2, (evs1 ++ evs2)%list. cbn [run].
    rewrite (exec64_fuel_mono _ _ _ _ _ He (Nat.le_max_l f1 f2)).
    rewrite (run64_fuel_mono _ _ _ _ _ Hr (Nat.le_max_r f1 f2)).
    reflexivity.
Qed.

(** A slow metronome never hangs.  When the beat is half a second at
    least (120 [bpm] or slower), as for the metronome of the application,
    and the window, [nextNoteTime] at the start and every reading of the
    audio clock are numbers in canonical form, zero or positive, below
    [2^49] seconds, then every run of clicks and timeouts goes through:
    each scheduling pass ends. *)
Theorem slow_metronome_never_hangs m0 tr :
  slow_beat (secondsPerBeat m0) = true ->
  clock_reading (scheduleAheadTime m0) = true ->
  clock_reading (nextNoteTime m0) = true ->
  Forall (fun ev => clock_reading (reading ev) = true) tr ->
  exists fuel m evs, run fuel tr m0 = Some (m, evs).
Proof.
  intros Hs Hw Ht Hall. apply run64_ends; [|exact Hall].
  split; [exact Hs|]. split; [exact Hw|].
  apply clock_reading_time_ok. exact Ht.
Qed.

Lemma slow_metronome_never_hangs_witness :
  exists fuel m evs,
    run fuel [Click (decimal 904 3); Timeout (decimal 14 1);
              Timeout (of_Z 1000000); Click (of_Z 1000001)]
      new_Metronome = Some (m, evs).
Proof.
  apply slow_metronome_never_hangs;
    [vm_compute; reflexivity | vm_compute; reflexivity
    | vm_compute; reflexivity |].
  repeat constructor.
Defined.

End Metronome64Ends.

(** ** More on the scheduler *)

Section MetronomeMore.
Import Metronome.
Local Open Scope Q_scope.

(** Stopping a playing metronome clears the armed timeout: whatever
    timeouts are tried afterwards, no trigger time is emitted and the
    metronome stays as the stop left it. *)
Theorem stop_silences m t fires :
  isPlaying m = true ->
  run (Click t :: map Timeout fires) m
  = Some (set_timerID None (set_isPlaying false m), []).
Proof.
  intros Hp. cbn [run exec]. unfold toggle. rewrite Hp. cbn [negb].
  cbn [isPlaying set_isPlaying].
  assert (H : forall m0, timerID m0 = None ->
                run (map Timeout fires) m0 = Some (m0, [])).
  { intros m0 H0. induction fires as [|f fires IH]; [reflexivity|].
    cbn [map run exec]. rewrite H0, IH. reflexivity. }
  rewrite H by reflexivity. reflexivity.
Qed.

Lemma stop_silences_witness :
  exists m1,
    toggle 0 new_Metronome = Some (m1, [0])
    /\ run (Click (1 # 100) :: map Timeout [1 # 10; 1; 2]) m1
       = Some (set_timerID None (set_isPlaying false m1), []).
Proof.
  eexists. split; [apply first_pass|].
  apply (stop_silences _ (1 # 100) [1 # 10; 1; 2]). reflexivity.
Defined.

End MetronomeMore.

(** ** More on the loop station *)

Section LooperMore.
Import Looper LooperNotions.
Local Close Scope Q_scope.

(** A property of single slots that every slot operation keeps holds for
    all slots along every trace. *)
Lemma slots_invariant (P : LoopSlot -> Prop) :
  (forall s, P s -> P (stop s)) ->
  (forall s, P s -> P (play s)) ->
  (forall s, P s -> P (clear s)) ->
  (forall s v, P s -> P (oninput v s)) ->
  (forall s t, P s -> P (timeupdate t s)) ->
  (forall s d, P s -> P (ondataavailable d s)) ->
  (forall s, P s -> P (onstop s)) ->
  (forall s, P s -> P (set_chunks [] s)) ->
  (forall s n, P s ->
     P (set_state recording (set_recorder (Some n) (set_chunks [] s)))) ->
  forall tr w, Forall P (slots w) -> Forall P (slots (run tr w)).
Proof.
  intros Hstop Hplay Hclear Hin Htime Hdata Honstop Hchunks Hstart.
  assert (Halter : forall f i ss, (forall s, P s -> P (f s)) ->
            Forall P ss -> Forall P (alter f i ss)).
  { intros f i ss Hf Hss. apply Forall_lookup. intros j x Hj.
    rewrite list_lookup_alter in Hj. rewrite Forall_lookup in Hss.
    destruct (decide (i = j)) as [->|Hne]; [|eauto].
    destruct (ss !! j) as [y|] eqn:Hy; [|discriminate].
    injection Hj as <-. eauto. }
  assert (Hexec : forall ev w, Forall P (slots w) ->
                               Forall P (slots (exec ev w))).
  { intros ev w Hw. destruct ev; simpl.
    - unfold toggleRecord. destruct (slots w !! idx) as [s|] eqn:Hs;
        [|exact Hw].
      assert (Ps : P s) by (eapply Forall_lookup_1; eauto).
      unfold toggle, startRecording.
      destruct (decide (state s = recording)); simpl.
      { rewrite list_insert_id by exact Hs. exact Hw. }
      destruct (recordDest (audio w)); simpl;
        apply Forall_insert; auto.
    - apply Forall_fmap. eapply Forall_impl; [exact Hw|]. auto.
    - apply Forall_fmap. eapply Forall_impl; [exact Hw|]. auto.
    - apply Halter; auto.
    - apply Halter; auto.
    - exact Hw.
    - destruct (recorders w !! id) as [r|]; [|exact Hw].
      destruct (delivers r); [|exact Hw]. simpl. apply Halter; auto.
    - destruct (recorders w !! id) as [r|]; [|exact Hw].
      destruct (stop_queued r); [|exact Hw]. simpl. apply Halter; auto.
    - apply Halter; auto. }
  induction tr as [|ev tr IH]; intros w Hw; [exact Hw|].
  apply IH, Hexec, Hw.
Qed.

(** What a slot shows is what its audio element does.  In every station
    reached from the start of the application, a slot in state [playing]
    holds an asset and its audio element is playing that asset; a slot in
    state [stopped] or [empty] has its audio element paused at position
    0. *)
Theorem audio_element_follows_state a volume tr j s :
  slots (run tr (new_LoopStation a volume)) !! j = Some s ->
  (state s = playing ->
   exists url, audioUrl s = Some url /\ src (audioEl s) = Some url
               /\ paused (audioEl s) = false)
  /\ (state s = stopped \/ state s = empty ->
      paused (audioEl s) = true /\ currentTime (audioEl s) = 0%Q).
Proof.
  set (P := fun s : LoopSlot =>
    (state s = playing ->
     exists url, audioUrl s = Some url /\ src (audioEl s) = Some url
                 /\ paused (audioEl s) = false)
    /\ (state s = stopped \/ state s = empty ->
        paused (audioEl s) = true /\ currentTime (audioEl s) = 0%Q)).
  intros Hj. change (P s). revert Hj. apply Forall_lookup_1.
  assert (Passet : forall s0 url, audioUrl s0 = Some url -> P (play s0)).
  { intros s0 url Hu.
    destruct (play_with_asset s0 url Hu) as (H1 & H2 & H3 & H4 & _).
    split; [eauto|]. rewrite H1. intros [?|?]; discriminate. }
  assert (Pstop : forall s0, P (stop s0)).
  { intros s0. split.
    - rewrite state_stop. destruct (decide _); discriminate.
    - intros _. unfold stop. destruct (decide _); auto. }
  apply slots_invariant.
  - auto.
  - intros s0 H0. destruct (audioUrl s0) as [url|] eqn:Hu; [eauto|].
    rewrite play_no_asset by exact Hu. exact H0.
  - intros s0 _. destruct (Pstop s0) as [_ H2].
    unfold clear. split; simpl; [discriminate|]. intros _.
    unfold stop in *. destruct (decide _); simpl in *; auto.
  - intros s0 v H0. unfold oninput. simpl. destruct (gainNode s0); exact H0.
  - intros s0 t H0. unfold timeupdate.
    destruct (paused (audioEl s0)) eqn:Hp; [exact H0|].
    destruct H0 as [H1 H2]. split; simpl.
    + intros Hs. destruct (H1 Hs) as (url & ? & ? & ?). eauto.
    + intros Hs. destruct (H2 Hs) as [Hp' _]. congruence.
  - intros s0 d H0. exact H0.
  - intros s0 _. unfold onstop. eapply Passet. reflexivity.
  - intros s0 H0. exact H0.
  - intros s0 n _. split; simpl; [discriminate | intros [?|?]; discriminate].
  - repeat constructor; simpl; try discriminate; auto.
Qed.

Lemma audio_element_follows_state_witness :
  let tr := [ToggleRecord 1; ToggleRecord 1; Stopped 0; TimeUpdate 1 (3 # 2)]
  in
  exists s,
    slots (run tr fresh_station) !! 1 = Some s
    /\ (state s = playing ->
        exists url, audioUrl s = Some url /\ src (audioEl s) = Some url
                    /\ paused (audioEl s) = false)
    /\ (state s = stopped \/ state s = empty ->
        paused (audioEl s) = true /\ currentTime (audioEl s) = 0%Q).
Proof.
  intros tr. eexists. split; [reflexivity|].
  apply (audio_element_follows_state (init new_AudioEngine) (fun _ => 1%Q)
           tr 1).
  reflexivity.
Defined.

(** The playback gain of a slot, once its gain node exists, is always what
    its slider shows. *)
Theorem gain_is_slider a volume tr j s g :
  slots (run tr (new_LoopStation a volume)) !! j = Some s ->
  gainNode s = Some g -> g = slider s.
Proof.
  set (P := fun s : LoopSlot => forall g, gainNode s = Some g -> g = slider s).
  intros Hj. revert g. change (P s). revert Hj. apply Forall_lookup_1.
  assert (Pplay : forall s0, P s0 -> P (play s0)).
  { intros s0 H0. unfold play. destruct (audioUrl s0); [|exact H0].
    destruct (gainNode s0) as [g0|] eqn:Hg; intros g; simpl.
    - rewrite Hg. intros [= <-]. apply H0, Hg.
    - intros [= <-]. reflexivity. }
  assert (Pstop : forall s0, P s0 -> P (stop s0)).
  { intros s0 H0. unfold stop. destruct (decide _); exact H0. }
  apply slots_invariant.
  - exact Pstop.
  - exact Pplay.
  - intros s0 H0. unfold clear. apply (Pstop s0 H0).
  - intros s0 v _. unfold oninput. simpl.
    destruct (gainNode s0) eqn:Hg0; intros g Hg; simpl in *; congruence.
  - intros s0 t H0. unfold timeupdate. destruct (paused _); exact H0.
  - intros s0 d H0. exact H0.
  - intros s0 H0. unfold onstop. apply Pplay. exact H0.
  - intros s0 H0. exact H0.
  - intros s0 n H0. exact H0.
  - repeat constructor; intros g; discriminate.
Qed.

Lemma gain_is_slider_witness :
  let tr := [ToggleRecord 0; ToggleRecord 0; Stopped 0; Slide 0 (1 # 4);
             Slide 1 (1 # 2); StopAll; PlayAll] in
  exists s,
    slots (run tr fresh_station) !! 0 = Some s
    /\ gainNode s = Some (1 # 4)%Q /\ (1 # 4)%Q = slider s.
Proof.
  intros tr. eexists. split; [reflexivity|]. split; [reflexivity|].
  apply (gain_is_slider (init new_AudioEngine) (fun _ => 1%Q) tr 0 _ (1 # 4)%Q);
    reflexivity.
Defined.

(** *** What [toggleRecord] touches, and when it throws *)

Lemma run_slots_length tr w : length (slots (run tr w)) = length (slots w).
Proof.
  revert w. induction tr as [|ev tr IH]; intros w; [reflexivity|].
  change (run (ev :: tr) w) with (run tr (exec ev w)). rewrite IH.
  destruct ev; simpl; rewrite ?length_fmap, ?length_alter; auto.
  - unfold toggleRecord. destruct (slots w !! idx); [|reflexivity].
    destruct (toggle _ _ _) as [[c s'] rs2]. simpl. apply length_insert.
  - destruct (recorders w !! id) as [r|]; [|reflexivity].
    destruct (delivers r); simpl; rewrite ?length_alter; reflexivity.
  - destruct (recorders w !! id) as [r|]; [|reflexivity].
    destruct (stop_queued r); simpl; rewrite ?length_alter; reflexivity.
Qed.

Lemma run_recordDest tr w :
  recordDest (audio (run tr w)) = recordDest (audio w).
Proof.
  revert w. induction tr as [|ev tr IH]; intros w; [reflexivity|].
  change (run (ev :: tr) w) with (run tr (exec ev w)). rewrite IH.
  destruct ev; simpl; auto.
  - unfold toggleRecord. destruct (slots w !! idx); [|reflexivity].
    destruct (toggle _ _ _) as [[c s'] rs2]. reflexivity.
  - destruct answer; reflexivity.
  - destruct (recorders w !! id) as [r|]; [|reflexivity].
    destruct (delivers r); reflexivity.
  - destruct (recorders w !! id) as [r|]; [|reflexivity].
    destruct (stop_queued r); reflexivity.
Qed.

(** [toggleRecord] changes no slot but the toggled one and leaves the
    engine alone; a forced stop shows in the other slot only when its
    [stop] event runs.  It makes at most one new recorder and discards
    none. *)
Theorem toggleRecord_frame w idx :
  audio (snd (toggleRecord idx w)) = audio w
  /\ (forall j, j <> idx ->
        slots (snd (toggleRecord idx w)) !! j = slots w !! j)
  /\ length (recorders w) <= length (recorders (snd (toggleRecord idx w)))
  /\ length (recorders (snd (toggleRecord idx w)))
     <= S (length (recorders w)).
Proof.
  unfold toggleRecord.
  pose proof (stop_others_length idx 0 (slots w) (recorders w)) as Hlen.
  destruct (slots w !! idx) as [s|]; simpl.
  2: { rewrite Hlen. repeat split; auto. }
  unfold toggle, startRecording.
  destruct (decide (state s = recording)); simpl.
  - rewrite stopRecording_length, Hlen. repeat split; auto.
    intros j Hj. apply list_lookup_insert_ne. auto.
  - destruct (recordDest (audio w)); simpl;
      rewrite ?length_app, Hlen; simpl; repeat split; auto; try lia;
      intros j Hj; apply list_lookup_insert_ne; auto.
Qed.



(** *** Pressing a button twice *)

Lemma stop_stop_slot s : stop (stop s) = stop s.
Proof.
  destruct s as [i st cs u e g v r]. destruct st; reflexivity.
Qed.

Lemma play_play_slot s : play (play s) = play s.
Proof.
  destruct s as [i st cs [url|] e [g|] v r]; reflexivity.
Qed.

(** [stopAll] and [playAll] are idempotent: a second press in a row
    changes nothing. *)
Theorem stopAll_playAll_idempotent w :
  stopAll (stopAll w) = stopAll w /\ playAll (playAll w) = playAll w.
Proof.
  unfold stopAll, playAll. simpl. split; f_equal.
  - rewrite <- list_fmap_compose. apply list_fmap_ext.
    intros i s _. apply stop_stop_slot.
  - rewrite <- list_fmap_compose. apply list_fmap_ext.
    intros i s _. apply play_play_slot.
Qed.

(** *** The life of a recorder *)

(** One event, seen from a recorder: it stays in the store with its
    owner; either it is untouched, or [stop] was called on it, or its
    [stop] event was fired. *)
Lemma exec_recorder ev w id r :
  recorders w !! id = Some r ->
  exists r',
    recorders (exec ev w) !! id = Some r'
    /\ (r' = r \/ r' = MediaRecorder_stop r
        \/ (stop_queued r = true /\ r' = stop_fired r)).
Proof.
  intros Hr. destruct ev; simpl; eauto.
  - unfold toggleRecord.
    destruct (stop_others_spec idx 0 (slots w) (recorders w)) as [Hss _].
    set (rs1 := stop_others idx 0 (slots w) (recorders w)) in *.
    destruct (stops_some_lookup _ _ id r Hss Hr) as (r1 & Hr1 & E1).
    destruct (slots w !! idx) as [s|]; simpl;
      [|exists r1; split; [exact Hr1 | destruct E1; auto]].
    unfold toggle, startRecording.
    destruct (decide (state s = recording)); simpl.
    + destruct (stops_some_lookup _ _ id r1 (stops_some_stopRecording s rs1)
                  Hr1) as (r2 & Hr2 & E2).
      exists r2. split; [exact Hr2|].
      destruct E1 as [->| ->], E2 as [->| ->]; rewrite ?stop_stop;
        first [left; reflexivity | right; left; reflexivity].
    + destruct (recordDest (audio w)); simpl.
      * exists r1. rewrite lookup_app_l by (eapply lookup_lt_Some, Hr1).
        split; [exact Hr1 | destruct E1; auto].
      * exists r1. split; [exact Hr1 | destruct E1; auto].
  - destruct (recorders w !! id0) as [r0|]; [|eauto].
    destruct (delivers r0); eauto.
  - destruct (recorders w !! id0) as [r0|] eqn:Hr0; [|eauto].
    destruct (stop_queued r0) eqn:Hq; [|eauto]. simpl.
    destruct (decide (id0 = id)) as [->|Hne].
    + rewrite list_lookup_insert_eq by (eapply lookup_lt_Some, Hr).
      rewrite Hr in Hr0. injection Hr0 as <-.
      exists (stop_fired r). split; [reflexivity|]. right. right. auto.
    + rewrite list_lookup_insert_ne by exact Hne. eauto.
Qed.

(** A recorder serves one take.  Along every trace a recorder stays in the
    store with the slot that made it as owner, and once it is inactive it
    never records again. *)
Theorem recorder_serves_one_take tr w id r :
  recorders w !! id = Some r ->
  exists r',
    recorders (run tr w) !! id = Some r'
    /\ owner r' = owner r
    /\ (rstate r = inactive -> rstate r' = inactive).
Proof.
  revert w r. induction tr as [|ev tr IH]; intros w r Hr; [eauto|].
  change (run (ev :: tr) w) with (run tr (exec ev w)).
  destruct (exec_recorder ev w id r Hr) as (r1 & Hr1 & E).
  destruct (IH _ _ Hr1) as (r' & Hr' & Ho & Hi).
  exists r'. split; [exact Hr'|].
  destruct E as [->|[->|[_ ->]]]; simpl in *.
  - auto.
  - rewrite owner_stop in Ho. split; [exact Ho|].
    intros _. apply Hi, rstate_stop.
  - auto.
Qed.

Lemma recorder_serves_one_take_witness :
  let w := run [ToggleRecord 0; ToggleRecord 0] fresh_station in
  let tr := [Stopped 0; ToggleRecord 0; ToggleRecord 1; ToggleRecord 0] in
  exists r',
    recorders (run tr w) !! 0 = Some r'
    /\ owner r' = 0
    /\ (inactive = inactive -> rstate r' = inactive).
Proof.
  intros w tr.
  apply (recorder_serves_one_take tr w 0
           {| owner := 0; rstate := inactive; stop_queued := true |}).
  reflexivity.
Defined.

(** In the stations reached from the start of the application a recorder
    that records has no stop queued. *)
Lemma recording_not_queued a volume tr id r :
  recorders (run tr (new_LoopStation a volume)) !! id = Some r ->
  rstate r = rec_recording -> stop_queued r = false.
Proof.
  set (wf := fun r : MediaRecorder =>
               rstate r = rec_recording -> stop_queued r = false).
  assert (Hwf : forall tr w, Forall wf (recorders w) ->
                             Forall wf (recorders (run tr w))).
  { clear. intros tr. induction tr as [|ev tr IH]; intros w Hw; [exact Hw|].
    change (run (ev :: tr) w) with (run tr (exec ev w)). apply IH.
    assert (Hnew : forall i, wf {| owner := i; rstate := rec_recording;
                                   stop_queued := false |})
      by (intros i _; reflexivity).
    rewrite Forall_lookup in Hw.
    destruct ev; simpl; try (apply Forall_lookup; exact Hw).
    - apply Forall_lookup. intros id r Hr.
      unfold toggleRecord in Hr.
      destruct (stop_others_spec idx 0 (slots w) (recorders w)) as [Hss _].
      set (rs1 := stop_others idx 0 (slots w) (recorders w)) in *.
      assert (H1 : forall id r, rs1 !! id = Some r -> wf r).
      { intros id1 r1 Hr1. destruct Hss as [_ Hss].
        destruct (Hss id1 r1 Hr1) as (r0 & Hr0 & [->| ->]); [eauto|].
        intros Hrec. rewrite rstate_stop in Hrec. discriminate. }
      destruct (slots w !! idx) as [s|]; simpl in Hr; [|eauto].
      unfold toggle, startRecording in Hr.
      destruct (decide (state s = recording)); simpl in Hr.
      + destruct (stops_some_stopRecording s rs1) as [_ Hs2].
        destruct (Hs2 id r Hr) as (r0 & Hr0 & [->| ->]); [eauto|].
        intros Hrec. rewrite rstate_stop in Hrec. discriminate.
      + destruct (recordDest (audio w)); simpl in Hr; [|eauto].
        apply lookup_snoc_Some in Hr as [[_ Hr]|[_ <-]]; [eauto|].
        apply Hnew.
    - destruct (recorders w !! id) as [r|]; [|apply Forall_lookup; exact Hw].
      destruct (delivers r); apply Forall_lookup; exact Hw.
    - destruct (recorders w !! id) as [r|] eqn:Hr;
        [|apply Forall_lookup; exact Hw].
      destruct (stop_queued r); [|apply Forall_lookup; exact Hw]. simpl.
      apply Forall_insert; [apply Forall_lookup; exact Hw|].
      intros _. reflexivity. }
  intros Hr. change (wf r). revert Hr. apply Forall_lookup_1.
  apply Hwf. constructor.
Qed.

(** *** [stopAll] during a take *)

Lemma stop_others_untouched idx i ss rs id :
  (forall k s, ss !! k = Some s -> state s = recording ->
               recorder s <> Some id) ->
  stop_others idx i ss rs !! id = rs !! id.
Proof.
  revert i rs. induction ss as [|s0 ss IH]; intros i rs H; [reflexivity|].
  simpl. rewrite IH by (intros k s Hk; apply (H (S k) s Hk)).
  destruct (decide _) as [[_ Hst]|_]; [|reflexivity].
  unfold stopRecording. destruct (recorder s0) as [id0|] eqn:Hid;
    [|reflexivity].
  destruct (decide _); [|reflexivity].
  apply list_lookup_alter_ne. intros ->. apply (H 0 s0 eq_refl Hst).
  exact Hid.
Qed.

Lemma orphaned_benign id w ss' :
  orphaned id w ->
  (forall j s', ss' !! j = Some s' ->
     exists s f, slots w !! j = Some s /\ benign f /\ s' = f s) ->
  orphaned id (with_slots ss' w).
Proof.
  intros [Hr Hs] Hss. split; [exact Hr|]. simpl. intros j s' Hj Hst.
  destruct (Hss j s' Hj) as (s & f & Hsj & Hf & ->).
  destruct (Hf s) as (_ & Hrec & Hb & _). rewrite Hrec. eauto.
Qed.

Lemma orphaned_alter id w f i :
  orphaned id w -> benign f ->
  orphaned id (with_slots (alter f i (slots w)) w).
Proof.
  intros Ho Hf. apply orphaned_benign; [exact Ho|]. intros j s' Hj.
  rewrite list_lookup_alter in Hj. destruct (decide (i = j)) as [->|Hne].
  - destruct (slots w !! j) as [s|] eqn:Hs; [|discriminate].
    injection Hj as <-. eauto.
  - exists s', (fun s => s). auto using benign_id.
Qed.

Lemma orphaned_fmap id w f :
  orphaned id w -> benign f -> orphaned id (with_slots (f <$> slots w) w).
Proof.
  intros Ho Hf. apply orphaned_benign; [exact Ho|]. intros j s' Hj.
  rewrite list_lookup_fmap in Hj.
  destruct (slots w !! j) as [s|] eqn:Hs; [|discriminate].
  injection Hj as <-. eauto.
Qed.

(** Nothing that happens to the station ends an orphaned recorder. *)
Lemma orphaned_exec id ev w : orphaned id w -> orphaned id (exec ev w).
Proof.
  intros Ho. destruct ev.
  - destruct Ho as [(r & Hr & Hrec & Hq) Hs]. simpl. unfold toggleRecord.
    pose proof (stop_others_untouched idx 0 (slots w) (recorders w) id Hs)
      as H1.
    pose proof (stop_others_length idx 0 (slots w) (recorders w)) as Hlen.
    set (rs1 := stop_others idx 0 (slots w) (recorders w)) in *.
    rewrite Hr in H1.
    destruct (slots w !! idx) as [s|] eqn:Hsi; simpl;
      [|split; [eauto | exact Hs]].
    unfold toggle, startRecording.
    destruct (decide (state s = recording)) as [Hst|Hst]; simpl.
    + rewrite list_insert_id by exact Hsi. split; [|exact Hs].
      exists r. split; [|auto]. simpl. unfold stopRecording.
      destruct (recorder s) as [id0|] eqn:Hid; [|exact H1].
      destruct (decide _); [|exact H1].
      rewrite list_lookup_alter_ne; [exact H1|].
      intros ->. apply (Hs idx s Hsi Hst). exact Hid.
    + assert (Hlt : id < length rs1) by (eapply lookup_lt_Some, H1).
      destruct (recordDest (audio w)); simpl; split.
      * exists r. simpl. rewrite lookup_app_l by exact Hlt. auto.
      * simpl. intros j sj Hj Hstj. destruct (decide (j = idx)) as [->|Hne].
        -- rewrite list_lookup_insert_eq in Hj
             by (eapply lookup_lt_Some, Hsi).
           injection Hj as <-. simpl. intros [= E]. lia.
        -- rewrite list_lookup_insert_ne in Hj by auto. eauto.
      * eauto.
      * simpl. intros j sj Hj Hstj. destruct (decide (j = idx)) as [->|Hne].
        -- rewrite list_lookup_insert_eq in Hj
             by (eapply lookup_lt_Some, Hsi).
           injection Hj as <-. simpl in Hstj. contradiction.
        -- rewrite list_lookup_insert_ne in Hj by auto. eauto.
  - apply (orphaned_fmap id w stop Ho benign_stop).
  - apply (orphaned_fmap id w play Ho benign_play).
  - apply (orphaned_alter id w clear i Ho benign_clear).
  - apply (orphaned_alter id w (oninput v) i Ho (benign_oninput v)).
  - exact Ho.
  - simpl. destruct (recorders w !! id0) as [r0|]; [|exact Ho].
    destruct (delivers r0); [|exact Ho].
    apply (orphaned_alter id w _ _ Ho (benign_ondataavailable data)).
  - simpl. destruct (recorders w !! id0) as [r0|] eqn:Hr0; [|exact Ho].
    destruct (stop_queued r0) eqn:Hq0; [|exact Ho].
    destruct (orphaned_alter id w onstop (owner r0) Ho benign_onstop)
      as [(r & Hr & Hrec & Hq) Hs].
    simpl in *. split; [|exact Hs]. exists r. split; [|auto]. simpl.
    rewrite list_lookup_insert_ne; [exact Hr|].
    intros ->. rewrite Hr in Hr0. injection Hr0 as <-. congruence.
  - apply (orphaned_alter id w (timeupdate t) i Ho (benign_timeupdate t)).
Qed.

(** [stopAll] does not end a take.  If it is called while a slot captures,
    the slot is shown as [stopped] but its recorder is not stopped, and
    nothing that happens afterwards stops it: along every later trace the
    recorder still records and no [stop] event is queued for it, so this
    take never becomes an asset. *)
Theorem stopAll_abandons_take a volume tr tr' j s id :
  let w := run tr (new_LoopStation a volume) in
  slots w !! j = Some s -> recorder s = Some id ->
  capturing (recorders w) s = true ->
  (exists s', slots (stopAll w) !! j = Some s' /\ state s' = stopped)
  /\ exists r,
       recorders (run (StopAll :: tr') w) !! id = Some r
       /\ rstate r = rec_recording /\ stop_queued r = false.
Proof.
  intros w Hj Hid Hc.
  apply capturing_true in Hc as (Hst & id' & r & Hid' & Hr & Hrec).
  rewrite Hid in Hid'. injection Hid' as <-.
  split.
  { exists (stop s). simpl. rewrite list_lookup_fmap, Hj. split; [reflexivity|].
    rewrite state_stop, Hst. reflexivity. }
  assert (Ho : orphaned id (stopAll w)).
  { split.
    - exists r. simpl. split; [exact Hr|]. split; [exact Hrec|].
      eapply recording_not_queued; eauto.
    - simpl. intros k sk Hk Hsk. rewrite list_lookup_fmap in Hk.
      destruct (slots w !! k) as [s0|]; [|discriminate].
      injection Hk as <-. rewrite state_stop in Hsk.
      destruct (decide _); discriminate. }
  change (run (StopAll :: tr') w) with (run tr' (stopAll w)).
  generalize dependent (stopAll w). clear.
  induction tr' as [|ev tr' IH]; intros w0 Ho.
  - destruct Ho as [Hr _]. exact Hr.
  - apply (IH (exec ev w0)), orphaned_exec, Ho.
Qed.

Lemma stopAll_abandons_take_witness :
  let w := run [ToggleRecord 1] fresh_station in
  let tr' := [ToggleRecord 1; ToggleRecord 1; Stopped 0; Stopped 1;
              ToggleRecord 0; Clear 1; PlayAll] in
  (exists s', slots (stopAll w) !! 1 = Some s' /\ state s' = stopped)
  /\ exists r,
       recorders (run (StopAll :: tr') w) !! 0 = Some r
       /\ rstate r = rec_recording /\ stop_queued r = false.
Proof.
  intros w tr'.
  apply (stopAll_abandons_take (init new_AudioEngine) (fun _ => 1%Q)
           [ToggleRecord 1] tr' 1
           (set_state recording
              (set_recorder (Some 0) (new_LoopSlot 1 1)))
           0); reflexivity.
Defined.

(** *** A stop event that arrives late *)

(** Neither [stopAll] nor [clear] cancels a finalize that is under way.
    If a capturing slot is toggled (its recorder is stopped) and then
    stopped or cleared before the recorder's [stop] event has run, the
    slot leaves state [recording] at once, but the [stop] event still
    builds the asset from the slot's chunks and puts the slot in state
    [playing]. *)
Theorem late_stop_event_revives a volume tr idx s id ev :
  let w := run tr (new_LoopStation a volume) in
  slots w !! idx = Some s -> recorder s = Some id ->
  capturing (recorders w) s = true ->
  ev = StopAll \/ ev = Clear idx ->
  (exists s1,
     slots (run [ToggleRecord idx; ev] w) !! idx = Some s1
     /\ (state s1 = stopped \/ state s1 = empty)
     /\ paused (audioEl s1) = true)
  /\ exists s2,
       slots (run [ToggleRecord idx; ev; Stopped id] w) !! idx = Some s2
       /\ state s2 = playing
       /\ audioUrl s2 = Some (blob_url (new_Blob (chunks s)))
       /\ paused (audioEl s2) = false.
Proof.
  intros w Hs Hid Hc Hev.
  assert (HI : Inv w) by apply Inv_run, Inv_new.
  apply capturing_true in Hc as (Hst & id' & r & Hid' & Hr & Hrec).
  rewrite Hid in Hid'. injection Hid' as <-.
  destruct (inv_recorder w HI idx s Hs Hst) as (id' & r' & Hid' & Hr' & Ho & _).
  rewrite Hid in Hid'. injection Hid' as <-.
  rewrite Hr in Hr'. injection Hr' as <-.
  destruct (toggleRecord_stops w idx idx s id r Hs Hst Hid Hr) as [Hs1 Hr1].
  set (w1 := snd (toggleRecord idx w)) in *.
  assert (Hstop : MediaRecorder_stop r
                  = {| owner := idx; rstate := inactive;
                       stop_queued := true |}).
  { unfold MediaRecorder_stop. rewrite Hrec, Ho. reflexivity. }
  rewrite Hstop in Hr1.
  change (run [ToggleRecord idx; ev] w) with (exec ev w1).
  change (run [ToggleRecord idx; ev; Stopped id] w)
    with (exec (Stopped id) (exec ev w1)).
  assert (Hlt : idx < length (slots w1)) by (eapply lookup_lt_Some, Hs1).
  destruct Hev as [->| ->]; simpl.
  - rewrite list_lookup_fmap, Hs1, Hr1. simpl.
    rewrite list_lookup_alter_eq, list_lookup_fmap, Hs1. simpl. split.
    + eexists. split; [reflexivity|]. rewrite state_stop, Hst.
      split; [left; reflexivity|]. unfold stop. destruct (decide _); reflexivity.
    + eexists. split; [reflexivity|].
      destruct (play_with_asset
                  (set_state playing
                     (set_audioUrl
                        (Some (blob_url (new_Blob (chunks (stop s)))))
                        (stop s)))
                  _ eq_refl) as (P1 & P2 & _ & P4 & _).
      unfold onstop. rewrite P1, P2, P4.
      replace (chunks (stop s)) with (chunks s)
        by (unfold stop; destruct (decide _); reflexivity).
      auto.
  - rewrite list_lookup_alter_eq, Hs1, Hr1. simpl.
    rewrite !list_lookup_alter_eq, Hs1. simpl. split.
    + eexists. split; [reflexivity|]. simpl.
      split; [right; reflexivity|]. unfold stop.
      destruct (decide _); reflexivity.
    + eexists. split; [reflexivity|].
      destruct (play_with_asset
                  (set_state playing
                     (set_audioUrl
                        (Some (blob_url (new_Blob (chunks (clear s)))))
                        (clear s)))
                  _ eq_refl) as (P1 & P2 & _ & P4 & _).
      unfold onstop. rewrite P1, P2, P4.
      replace (chunks (clear s)) with (chunks s)
        by (unfold clear, stop; destruct (decide _); reflexivity).
      auto.
Qed.

Lemma late_stop_event_revives_witness :
  let w := run [ToggleRecord 2; DataAvailable 0 [Byte.x4f; Byte.x67]]
             fresh_station in
  (exists s1,
     slots (run [ToggleRecord 2; Clear 2] w) !! 2 = Some s1
     /\ (state s1 = stopped \/ state s1 = empty)
     /\ paused (audioEl s1) = true)
  /\ exists s2,
       slots (run [ToggleRecord 2; Clear 2; Stopped 0] w) !! 2 = Some s2
       /\ state s2 = playing
       /\ audioUrl s2 = Some (blob_url [Byte.x4f; Byte.x67])
       /\ paused (audioEl s2) = false.
Proof.
  intros w.
  apply (late_stop_event_revives (init new_AudioEngine) (fun _ => 1%Q)
           [ToggleRecord 2; DataAvailable 0 [Byte.x4f; Byte.x67]] 2
           (set_chunks [[Byte.x4f; Byte.x67]]
              (set_state recording
                 (set_recorder (Some 0) (new_LoopSlot 2 1))))
           0 (Clear 2));
    [reflexivity | reflexivity | reflexivity | right; reflexivity].
Defined.

End LooperMore.

(** ** Notes, synthesizer and inputs *)

Section KeysFacts.
Import Looper Keys.
Local Close Scope Q_scope.
Local Open Scope string_scope.

(** The notes that have a frequency. *)
Lemma NOTE_FREQS_notes note :
  is_Some (NOTE_FREQS !! note) <->
  note ∈ ["C4"; "C#4"; "D4"; "D#4"; "E4"; "F4"; "F#4"; "G4"; "G#4"; "A4";
          "A#4"; "B4"; "C5"].
Proof.
  split.
  - intros [f Hf]. revert note f Hf. apply map_Forall_lookup.
    apply (bool_decide_unpack _). vm_compute. exact I.
  - revert note. apply Forall_forall.
    apply (bool_decide_unpack _). vm_compute. exact I.
Qed.

Lemma midiNoteToName_Some midi note :
  midiNoteToName midi = Some note ->
  (midi = 60 \/ midi = 61 \/ midi = 62 \/ midi = 63 \/ midi = 64 \/ midi = 65
   \/ midi = 66 \/ midi = 67 \/ midi = 68 \/ midi = 69 \/ midi = 70
   \/ midi = 71 \/ midi = 72)%Z.
Proof.
  unfold midiNoteToName.
  destruct (60 <=? midi)%Z eqn:H1; [|discriminate].
  destruct (midi <=? 72)%Z eqn:H2; [|discriminate]. intros _. lia.
Qed.

Lemma inherited_spec k : inherited k = true <-> In k Object_prototype.
Proof.
  unfold inherited. rewrite existsb_exists. split.
  - intros (x & Hx & E). apply String.eqb_eq in E. subst. exact Hx.
  - intros H. exists k. split; [exact H|]. apply String.eqb_refl.
Qed.

(** No key of the keyboard and no note with a frequency bears an
    inherited name. *)
Lemma KEY_MAP_not_inherited k note :
  KEY_MAP !! k = Some note -> inherited k = false.
Proof.
  revert k note. apply map_Forall_lookup.
  apply (bool_decide_unpack _). vm_compute. exact I.
Qed.

Lemma NOTE_FREQS_not_inherited note f :
  NOTE_FREQS !! note = Some f -> inherited note = false.
Proof.
  revert note f. apply map_Forall_lookup.
  apply (bool_decide_unpack _). vm_compute. exact I.
Qed.

Lemma get_KEY_MAP k :
  match get KEY_MAP k with
  | Own note => KEY_MAP !! k = Some note
  | Inherited => KEY_MAP !! k = None /\ inherited k = true
  | Absent => KEY_MAP !! k = None /\ inherited k = false
  end.
Proof.
  unfold get. destruct (KEY_MAP !! k); [reflexivity|].
  destruct (inherited k); auto.
Qed.

Lemma get_Some {A} (o : gmap string A) k a :
  o !! k = Some a -> get o k = Own a.
Proof. intros H. unfold get. rewrite H. reflexivity. Qed.

Lemma get_None {A} (o : gmap string A) k :
  o !! k = None -> inherited k = false -> get o k = Absent.
Proof. intros H Hi. unfold get. rewrite H, Hi. reflexivity. Qed.

Lemma get_Own {A} (o : gmap string A) k a :
  get o k = Own a -> o !! k = Some a.
Proof.
  unfold get. destruct (o !! k); [congruence|].
  destruct (inherited k); discriminate.
Qed.

(** The three tables agree.  A note name is an entry of [KEY_MAP] under
    some key exactly when it has a frequency in [NOTE_FREQS], and exactly
    when it is the name of some MIDI note number.  Besides its thirteen
    keys, [KEY_MAP[k]] is truthy exactly for the names that an object
    inherits; what it holds there is not a note. *)
Theorem playable_notes_agree note :
  ((exists k, get KEY_MAP k = Own note) <-> is_Some (NOTE_FREQS !! note))
  /\ ((exists midi, midiNoteToName midi = Some note)
      <-> is_Some (NOTE_FREQS !! note))
  /\ (forall k, get KEY_MAP k = Inherited <-> In k Object_prototype).
Proof.
  split; [split|split; [split|]].
  - intros [k Hk]. pose proof (get_KEY_MAP k) as H. rewrite Hk in H.
    clear Hk. revert k note H. apply map_Forall_lookup.
    apply (bool_decide_unpack _). vm_compute. exact I.
  - intros H. apply NOTE_FREQS_notes in H.
    repeat (apply elem_of_cons in H as [->|H]);
      [exists "a" | exists "w" | exists "s" | exists "e" | exists "d"
      | exists "f" | exists "t" | exists "g" | exists "y" | exists "h"
      | exists "u" | exists "j" | exists "k" | ]; try reflexivity.
    apply elem_of_nil in H. contradiction.
  - intros [midi H]. pose proof (midiNoteToName_Some midi note H) as Hm.
    apply NOTE_FREQS_notes.
    repeat (destruct Hm as [->|Hm]); try subst midi;
      vm_compute in H; injection H as <-;
      apply (bool_decide_unpack _); vm_compute; exact I.
  - intros H. apply NOTE_FREQS_notes in H.
    repeat (apply elem_of_cons in H as [->|H]);
      [exists 60%Z | exists 61%Z | exists 62%Z | exists 63%Z | exists 64%Z
      | exists 65%Z | exists 66%Z | exists 67%Z | exists 68%Z | exists 69%Z
      | exists 70%Z | exists 71%Z | exists 72%Z | ]; try reflexivity.
    apply elem_of_nil in H. contradiction.
  - intros k. pose proof (get_KEY_MAP k) as H. split.
    + intros E. rewrite E in H. apply inherited_spec. apply H.
    + intros Hin. apply inherited_spec in Hin.
      destruct (get KEY_MAP k) as [n| |]; [|reflexivity|].
      * rewrite (KEY_MAP_not_inherited k n H) in Hin. discriminate.
      * destruct H as [_ H]. congruence.
Qed.

(** Higher MIDI notes sound higher.  Two different MIDI note numbers
    from 60 to 72 have different names, both with a frequency, and the
    higher number has the higher frequency. *)
Theorem midi_pitch_increases m1 m2 :
  (60 <= m1)%Z -> (m1 < m2)%Z -> (m2 <= 72)%Z ->
  exists n1 n2 f1 f2,
    midiNoteToName m1 = Some n1 /\ midiNoteToName m2 = Some n2
    /\ NOTE_FREQS !! n1 = Some f1 /\ NOTE_FREQS !! n2 = Some f2
    /\ n1 <> n2 /\ (f1 < f2)%Q.
Proof.
  intros H1 H12 H2.
  assert (Hc : forall a b : nat, a < b -> b <= 12 ->
            exists n1 n2 f1 f2,
              midiNoteToName (60 + Z.of_nat a) = Some n1
              /\ midiNoteToName (60 + Z.of_nat b) = Some n2
              /\ NOTE_FREQS !! n1 = Some f1 /\ NOTE_FREQS !! n2 = Some f2
              /\ n1 <> n2 /\ (f1 < f2)%Q).
  { intros a b Hab Hb.
    do 13 (destruct b as [|b];
      [do 13 (destruct a as [|a];
         [first [ exfalso; lia
                | eexists _, _, _, _;
                  split; [vm_compute; reflexivity|];
                  split; [vm_compute; reflexivity|];
                  split; [vm_compute; reflexivity|];
                  split; [vm_compute; reflexivity|];
                  split; [discriminate | reflexivity] ]
         |]); exfalso; lia
      |]).
    exfalso; lia. }
  replace m1 with (60 + Z.of_nat (Z.to_nat (m1 - 60)))%Z by lia.
  replace m2 with (60 + Z.of_nat (Z.to_nat (m2 - 60)))%Z by lia.
  apply Hc; lia.
Qed.

Lemma midi_pitch_increases_witness :
  exists n1 n2 f1 f2,
    midiNoteToName 61 = Some n1 /\ midiNoteToName 72 = Some n2
    /\ NOTE_FREQS !! n1 = Some f1 /\ NOTE_FREQS !! n2 = Some f2
    /\ n1 <> n2 /\ (f1 < f2)%Q.
Proof. apply (midi_pitch_increases 61 72); lia. Defined.

(** *** The synthesizer *)

(** No retrigger.  In synth mode a second [playNote] for the same note
    right after the first starts nothing and changes nothing, whatever
    the first one did: a note has at most one oscillator. *)
Theorem playNote_no_retrigger a note s :
  mode s = mode_synth ->
  exists c,
    playNote a note (snd (fst (playNote a note s)))
    = (c, snd (fst (playNote a note s)), []).
Proof.
  intros Hm. unfold playNote. rewrite Hm.
  destruct (initialized a); cbn [negb]; [|cbn [fst snd]; eauto].
  destruct (get (activeOscillators s) note) eqn:Ha.
  1, 2: cbn [fst snd]; rewrite Hm, Ha; eauto.
  destruct (get NOTE_FREQS note) eqn:Hf; cbn [fst snd mode activeOscillators].
  - rewrite (get_Some _ note {| frequency := a0 |})
      by apply lookup_insert_eq.
    eauto.
  - rewrite Hm, Ha. eauto.
  - rewrite Hm, Ha. eauto.
Qed.

Lemma playNote_no_retrigger_witness :
  exists c,
    playNote (init new_AudioEngine) "A4"
      (snd (fst (playNote (init new_AudioEngine) "A4" new_Synthesizer)))
    = (c, snd (fst (playNote (init new_AudioEngine) "A4" new_Synthesizer)),
       []).
Proof.
  apply (playNote_no_retrigger (init new_AudioEngine) "A4" new_Synthesizer).
  reflexivity.
Defined.

(** Key down, key up.  In synth mode on an initialized engine, playing a
    note that has a frequency and is not sounding starts one oscillator at
    the frequency of the table, and [stopNote] for it then stops that
    oscillator and gives back the synthesizer as it was. *)
Theorem playNote_stopNote a note f s :
  initialized a = true -> mode s = mode_synth ->
  NOTE_FREQS !! note = Some f -> activeOscillators s !! note = None ->
  exists s1,
    playNote a note s = (normal, s1, [OscStart note f])
    /\ activeOscillators s1 !! note = Some {| frequency := f |}
    /\ stopNote a note s1 = (normal, s, [OscStop note]).
Proof.
  intros Hi Hm Hf Ha. unfold playNote, stopNote. rewrite Hi, Hm.
  rewrite (get_None _ note Ha (NOTE_FREQS_not_inherited note f Hf)).
  rewrite (get_Some _ note f Hf).
  cbn [negb]. eexists. split; [reflexivity|].
  cbn [mode activeOscillators].
  rewrite (get_Some _ note {| frequency := f |}) by apply lookup_insert_eq.
  rewrite lookup_insert_eq. split; [reflexivity|].
  rewrite delete_insert_eq, delete_id by exact Ha.
  destruct s as [m md]. cbn [mode] in Hm. rewrite Hm. reflexivity.
Qed.

Lemma playNote_stopNote_witness :
  exists s1,
    playNote (init new_AudioEngine) "C5" new_Synthesizer
    = (normal, s1, [OscStart "C5" (52325 # 100)])
    /\ activeOscillators s1 !! "C5" = Some {| frequency := 52325 # 100 |}
    /\ stopNote (init new_AudioEngine) "C5" s1
       = (normal, new_Synthesizer, [OscStop "C5"]).
Proof.
  apply (playNote_stopNote (init new_AudioEngine) "C5" (52325 # 100)
           new_Synthesizer); reflexivity.
Defined.

(** A note held across a change of mode is stuck.  If the mode is
    switched to drums while a note sounds, [stopNote] for that note does
    nothing, and neither does any [playNote]: the oscillator stays in
    [activeOscillators] until the mode is back on synth and [stopNote] is
    called again. *)
Theorem note_stuck_in_drums a note v s :
  initialized a = true ->
  activeOscillators s !! note = Some v ->
  let d := setMode mode_drums s in
  stopNote a note d = (normal, d, [])
  /\ (forall n, snd (fst (playNote a n d)) = d)
  /\ activeOscillators
       (snd (fst (stopNote a note (setMode mode_synth d)))) !! note = None.
Proof.
  intros Hi Ha d. unfold stopNote, playNote. rewrite Hi.
  cbn [negb mode setMode d activeOscillators fst snd].
  split; [reflexivity|]. split; [reflexivity|].
  unfold d. cbn [negb mode setMode activeOscillators fst snd].
  rewrite (get_Some _ note v Ha). cbn [fst snd activeOscillators].
  apply lookup_delete_eq.
Qed.

Lemma note_stuck_in_drums_witness :
  let a := init new_AudioEngine in
  let s := snd (fst (playNote a "E4" new_Synthesizer)) in
  let d := setMode mode_drums s in
  stopNote a "E4" d = (normal, d, [])
  /\ (forall n, snd (fst (playNote a n d)) = d)
  /\ activeOscillators
       (snd (fst (stopNote a "E4" (setMode mode_synth d)))) !! "E4" = None.
Proof.
  intros a s.
  apply (note_stuck_in_drums a "E4" {| frequency := 32963 # 100 |} s);
    reflexivity.
Defined.

(** The drum kit on the playable notes.  Of the thirteen notes with a
    frequency, the three C notes (C4, C#4, C5) trigger the kick, D4 and
    D#4 the snare, E4, F4 and F#4 the hi-hat, and the five notes from G4
    to B4 trigger nothing. *)
Theorem playDrum_on_playable note :
  is_Some (NOTE_FREQS !! note) ->
  (playDrum note = Some Kick <-> note ∈ ["C4"; "C#4"; "C5"])
  /\ (playDrum note = Some Snare <-> note ∈ ["D4"; "D#4"])
  /\ (playDrum note = Some HiHat <-> note ∈ ["E4"; "F4"; "F#4"])
  /\ (playDrum note = None <-> note ∈ ["G4"; "G#4"; "A4"; "A#4"; "B4"]).
Proof.
  intros H. apply NOTE_FREQS_notes in H.
  repeat (apply elem_of_cons in H as [->|H]);
    try (apply elem_of_nil in H; contradiction);
    repeat split; intros H';
    first [ discriminate H'
          | apply (bool_decide_unpack _); vm_compute; exact I
          | exfalso; revert H'; apply (bool_decide_unpack _);
            vm_compute; exact I
          | reflexivity ].
Qed.

Lemma playDrum_on_playable_witness :
  (playDrum "F#4" = Some Kick <-> "F#4" ∈ ["C4"; "C#4"; "C5"])
  /\ (playDrum "F#4" = Some Snare <-> "F#4" ∈ ["D4"; "D#4"])
  /\ (playDrum "F#4" = Some HiHat <-> "F#4" ∈ ["E4"; "F4"; "F#4"])
  /\ (playDrum "F#4" = None
      <-> "F#4" ∈ ["G4"; "G#4"; "A4"; "A#4"; "B4"]).
Proof.
  apply (playDrum_on_playable "F#4"). apply (bool_decide_unpack _).
  vm_compute. exact I.
Defined.

(** *** MIDI messages *)

Lemma land_status (hi ch : Z) :
  (0 <= hi < 16)%Z -> (0 <= ch < 16)%Z ->
  Z.land (16 * hi + ch) 0xF0 = (16 * hi)%Z.
Proof.
  intros Hh Hc.
  assert (H : forall h c : nat, h < 16 -> c < 16 ->
            Z.land (16 * Z.of_nat h + Z.of_nat c) 0xF0
            = (16 * Z.of_nat h)%Z).
  { intros h c Hlh Hlc.
    do 16 (destruct h as [|h];
      [do 16 (destruct c as [|c]; [reflexivity|]); exfalso; lia|]).
    exfalso; lia. }
  replace hi with (Z.of_nat (Z.to_nat hi)) by lia.
  replace ch with (Z.of_nat (Z.to_nat ch)) by lia.
  apply H; lia.
Qed.

(** The MIDI channel does not matter.  Two messages whose status bytes
    differ only in the low four bits, the channel, are handled alike. *)
Theorem midi_channel_ignored hi ch ch' rest app :
  (0 <= hi < 16)%Z -> (0 <= ch < 16)%Z -> (0 <= ch' < 16)%Z ->
  onMIDIMessage ((16 * hi + ch)%Z :: rest) app
  = onMIDIMessage ((16 * hi + ch')%Z :: rest) app.
Proof.
  intros Hh Hc Hc'. unfold onMIDIMessage.
  change (((16 * hi + ch)%Z :: rest) !! 0) with (Some (16 * hi + ch)%Z).
  change (((16 * hi + ch')%Z :: rest) !! 0) with (Some (16 * hi + ch')%Z).
  cbv beta iota zeta. rewrite !land_status by assumption. reflexivity.
Qed.

Lemma midi_channel_ignored_witness :
  onMIDIMessage [(16 * 9 + 0)%Z; 60%Z; 100%Z] (app_start (fun _ => 1%Q))
  = onMIDIMessage [(16 * 9 + 15)%Z; 60%Z; 100%Z] (app_start (fun _ => 1%Q)).
Proof.
  apply (midi_channel_ignored 9 0 15 [60%Z; 100%Z]
           (app_start (fun _ => 1%Q))); lia.
Defined.

(** *** The application and its station *)

Lemma app_playNote_keeps note app :
  world (snd (fst (app_playNote note app))) = world app
  /\ selectedSlot (snd (fst (app_playNote note app))) = selectedSlot app.
Proof.
  unfold app_playNote. destruct (playNote _ _ _) as [[c s] out]. auto.
Qed.

Lemma app_stopNote_keeps note app :
  world (snd (fst (app_stopNote note app))) = world app
  /\ selectedSlot (snd (fst (app_stopNote note app))) = selectedSlot app.
Proof.
  unfold app_stopNote. destruct (stopNote _ _ _) as [[c s] out]. auto.
Qed.

Lemma app_playNote_inherited_state app :
  exists c, app_playNote_inherited app = (c, app, []).
Proof.
  unfold app_playNote_inherited, playNote_inherited. destruct app.
  destruct (negb _); eauto.
Qed.

Lemma app_stopNote_inherited_state app :
  app_stopNote_inherited app = (normal, app, []).
Proof. destruct app. reflexivity. Qed.

Lemma app_toggleRecord_world app :
  world (snd (fst (app_toggleRecord app)))
  = exec (ToggleRecord (selectedSlot app)) (world app)
  /\ selectedSlot (snd (fst (app_toggleRecord app))) = selectedSlot app
  /\ synth (snd (fst (app_toggleRecord app))) = synth app
  /\ fst (fst (app_toggleRecord app))
     = fst (toggleRecord (selectedSlot app) (world app)).
Proof.
  unfold app_toggleRecord. cbn [exec].
  destruct (toggleRecord _ _) as [c w]. auto.
Qed.

(** What [onMIDIMessage] can do: nothing, [playNote] or [stopNote] for
    the name of a MIDI note, or [toggleRecord] on the selected slot. *)
Lemma onMIDIMessage_cases data app :
  onMIDIMessage data app = (normal, app, [])
  \/ (exists midi note, midiNoteToName midi = Some note
        /\ (onMIDIMessage data app = app_playNote note app
            \/ onMIDIMessage data app = app_stopNote note app))
  \/ onMIDIMessage data app = app_toggleRecord app.
Proof.
  unfold onMIDIMessage.
  destruct (_ && _); [|destruct (_ || _); [|destruct (_ && _); auto]].
  - destruct (data !! 1) as [midi|]; cbn [mbind option_bind]; auto.
    destruct (midiNoteToName midi) as [note|] eqn:Hn; eauto 8.
  - destruct (data !! 1) as [midi|]; cbn [mbind option_bind]; auto.
    destruct (midiNoteToName midi) as [note|] eqn:Hn; eauto 8.
Qed.

(** What [handleKey] can do: nothing, [playNote] or [stopNote] for a note
    of the keyboard, [toggleRecord] on the selected slot, or, for a key
    that goes down and bears an inherited name, only complete as
    [playNote] does on what is not a note. *)
Lemma handleKey_cases k down app :
  handleKey k down app = (normal, app, [])
  \/ (exists note, KEY_MAP !! k = Some note
        /\ (handleKey k down app = app_playNote note app
            \/ handleKey k down app = app_stopNote note app))
  \/ handleKey k down app = app_toggleRecord app
  \/ (inherited k = true /\ down = true
      /\ exists c, handleKey k down app = (c, app, [])).
Proof.
  unfold handleKey. destruct (String.eqb k " ").
  - destruct down; auto.
  - pose proof (get_KEY_MAP k) as H.
    destruct (get KEY_MAP k) as [note| |]; [| |auto].
    + destruct down; eauto 8.
    + destruct down.
      * right. right. right. destruct H as [_ H].
        split; [exact H|]. split; [reflexivity|].
        apply app_playNote_inherited_state.
      * left. apply app_stopNote_inherited_state.
Qed.

(** The stations the application reaches are stations reached by station
    events in which [toggleRecord] gets an index below 3, and the selected
    slot is always one of the three. *)
Lemma app_reach volume tr :
  let app := fst (app_run tr (app_start volume)) in
  selectedSlot app < 3
  /\ exists ltr,
       world app = run ltr (new_LoopStation (init new_AudioEngine) volume)
       /\ Forall (fun ev => forall idx, ev = ToggleRecord idx -> idx < 3) ltr.
Proof.
  set (w0 := new_LoopStation (init new_AudioEngine) volume).
  set (ok := fun ev : Event => forall idx, ev = ToggleRecord idx -> idx < 3).
  set (R := fun app : App =>
              selectedSlot app < 3
              /\ exists ltr, world app = run ltr w0 /\ Forall ok ltr).
  assert (Hstep : forall ev app, R app -> R (fst (app_exec ev app))).
  { intros ev app [Hsel (ltr & Hw & Hltr)].
    assert (Hsame : forall app', world app' = world app ->
              selectedSlot app' = selectedSlot app -> R app').
    { intros app' Hw' Hs'. split; [lia|]. exists ltr. split; congruence. }
    assert (Hlev : forall app' lev, world app' = exec lev (world app) ->
              selectedSlot app' < 3 -> ok lev -> R app').
    { intros app' lev Hw' Hs' Hok. split; [exact Hs'|].
      exists (ltr ++ [lev])%list. split.
      - rewrite run_app, <- Hw. exact Hw'.
      - apply Forall_app. split; [exact Hltr|].
        constructor; [exact Hok | constructor]. }
    assert (Hplay : forall note, R (snd (fst (app_playNote note app)))).
    { intros note. destruct (app_playNote_keeps note app). auto. }
    assert (Hstop : forall note, R (snd (fst (app_stopNote note app)))).
    { intros note. destruct (app_stopNote_keeps note app). auto. }
    assert (Hrec : R (snd (fst (app_toggleRecord app)))).
    { destruct (app_toggleRecord_world app) as (H1 & H2 & _).
      apply (Hlev _ _ H1); [lia|]. intros idx [= <-]. exact Hsel. }
    assert (Hbenign : forall lev, ok lev ->
              R (with_world (exec lev (world app)) app)).
    { intros lev Hok. apply (Hlev _ lev); auto. }
    destruct ev; cbn [app_exec].
    - destruct (handleKey_cases k true app)
        as [E|[(n & _ & [E|E])|[E|(_ & _ & c & E)]]];
        rewrite E; [apply Hsame; reflexivity | | | |
                    apply Hsame; reflexivity].
      + specialize (Hplay n). destruct (app_playNote n app) as [[c a'] o].
        exact Hplay.
      + specialize (Hstop n). destruct (app_stopNote n app) as [[c a'] o].
        exact Hstop.
      + destruct (app_toggleRecord app) as [[c a'] o]. exact Hrec.
    - destruct (handleKey_cases k false app)
        as [E|[(n & _ & [E|E])|[E|(_ & _ & c & E)]]];
        rewrite E; [apply Hsame; reflexivity | | | |
                    apply Hsame; reflexivity].
      + specialize (Hplay n). destruct (app_playNote n app) as [[c a'] o].
        exact Hplay.
      + specialize (Hstop n). destruct (app_stopNote n app) as [[c a'] o].
        exact Hstop.
      + destruct (app_toggleRecord app) as [[c a'] o]. exact Hrec.
    - specialize (Hplay note).
      destruct (app_playNote note app) as [[c a'] o]. exact Hplay.
    - specialize (Hstop note).
      destruct (app_stopNote note app) as [[c a'] o]. exact Hstop.
    - destruct (onMIDIMessage_cases data app)
        as [E|[(m & n & _ & [E|E])|E]];
        rewrite E; [apply Hsame; reflexivity | | |].
      + specialize (Hplay n). destruct (app_playNote n app) as [[c a'] o].
        exact Hplay.
      + specialize (Hstop n). destruct (app_stopNote n app) as [[c a'] o].
        exact Hstop.
      + destruct (app_toggleRecord app) as [[c a'] o]. exact Hrec.
    - apply (Hbenign StopAll). intros idx; discriminate.
    - apply (Hbenign PlayAll). intros idx; discriminate.
    - destruct (app_toggleRecord app) as [[c a'] o]. exact Hrec.
    - apply Hsame; reflexivity.
    - cbn [fst]. destruct (Nat.ltb_spec i 3); [|apply Hsame; reflexivity].
      split; [assumption|]. exists ltr. auto.
    - destruct (slots (world app) !! i) as [s|] eqn:Hs;
        [|apply Hsame; reflexivity].
      cbn [fst]. apply (Hlev _ (Slide i v)); [reflexivity | |
        intros idx; discriminate].
      cbn [selectedSlot with_world selectSlot].
      assert (HI : Inv (world app)) by (rewrite Hw; apply Inv_run, Inv_new).
      rewrite (inv_index _ HI i s Hs).
      apply lookup_lt_Some in Hs. rewrite Hw, run_slots_length in Hs.
      exact Hs.
    - cbn [fst]. destruct (browser_event ev) eqn:Hb;
        [|apply Hsame; reflexivity].
      apply Hbenign. intros idx ->. discriminate. }
  assert (Hrun : forall tr app, R app -> R (fst (app_run tr app))).
  { clear tr. intros tr. induction tr as [|ev tr IH]; intros app HR;
      [exact HR|].
    cbn [app_run]. specialize (Hstep ev app HR).
    destruct (app_exec ev app) as [app1 out1]. specialize (IH app1 Hstep).
    destruct (app_run tr app1) as [app2 out2]. exact IH. }
  apply Hrun. split; [cbn; lia|]. exists []. split; [reflexivity|constructor].
Qed.

(** Every station the application reaches is a station reached by station
    events in which [toggleRecord] is only called with the index 0, 1 or
    2; the selected slot is always one of the three slots.  So what holds
    along all traces of the station holds for the application. *)
Theorem app_station_reachable volume tr :
  let app := fst (app_run tr (app_start volume)) in
  selectedSlot app < 3
  /\ exists ltr,
       world app = run ltr (new_LoopStation (init new_AudioEngine) volume)
       /\ Forall (fun ev => forall idx, ev = ToggleRecord idx -> idx < 3) ltr.
Proof. apply app_reach. Qed.

(** *** What the inputs cannot do *)

Lemma KEY_MAP_has_freq k note :
  KEY_MAP !! k = Some note -> is_Some (NOTE_FREQS !! note).
Proof.
  revert k note. apply map_Forall_lookup.
  apply (bool_decide_unpack _). vm_compute. exact I.
Qed.

Lemma midiNoteToName_has_freq midi note :
  midiNoteToName midi = Some note -> is_Some (NOTE_FREQS !! note).
Proof.
  intros H. pose proof (midiNoteToName_Some midi note H) as Hm.
  repeat (destruct Hm as [->|Hm]); try subst midi;
    vm_compute in H; injection H as <-;
    apply (bool_decide_unpack _); vm_compute; exact I.
Qed.

Lemma playNote_normal a note s :
  is_Some (NOTE_FREQS !! note) -> fst (fst (playNote a note s)) = normal.
Proof.
  intros [f Hf]. unfold playNote. destruct (negb (initialized a));
    [reflexivity|].
  destruct (mode s); [|reflexivity].
  destruct (get (activeOscillators s) note); try reflexivity.
  rewrite (get_Some _ note f Hf). reflexivity.
Qed.

Lemma stopNote_normal a note s :
  is_Some (NOTE_FREQS !! note) -> fst (fst (stopNote a note s)) = normal.
Proof.
  intros [f Hf]. unfold stopNote. destruct (negb (initialized a));
    [reflexivity|].
  destruct (mode s); [|reflexivity].
  unfold get. rewrite (NOTE_FREQS_not_inherited note f Hf).
  destruct (activeOscillators s !! note); reflexivity.
Qed.

Lemma toggleRecord_normal_in_range ltr volume idx :
  idx < 3 ->
  fst (toggleRecord idx
         (run ltr (new_LoopStation (init new_AudioEngine) volume)))
  = normal.
Proof.
  intros Hlt. set (w := run ltr _).
  assert (Hlen : length (slots w) = 3) by apply run_slots_length.
  assert (Hrd : recordDest (audio w) = Some ())
    by (unfold w; rewrite run_recordDest; reflexivity).
  unfold toggleRecord. destruct (slots w !! idx) as [s|] eqn:Hs.
  - unfold toggle, startRecording. rewrite Hrd.
    destruct (decide (state s = recording)); reflexivity.
  - apply lookup_ge_None in Hs. lia.
Qed.

Lemma run_initialized tr w :
  initialized (audio (run tr w)) = initialized (audio w).
Proof.
  revert w. induction tr as [|ev tr IH]; intros w; [reflexivity|].
  change (run (ev :: tr) w) with (run tr (exec ev w)). rewrite IH.
  destruct ev; simpl; auto.
  - unfold toggleRecord. destruct (slots w !! idx); [|reflexivity].
    destruct (toggle _ _ _) as [[c s'] rs2]. reflexivity.
  - destruct answer; reflexivity.
  - destruct (recorders w !! id) as [r|]; [|reflexivity].
    destruct (delivers r); reflexivity.
  - destruct (recorders w !! id) as [r|]; [|reflexivity].
    destruct (stop_queued r); reflexivity.
Qed.

(** When the inputs throw.  In every state the application reaches,
    [onMIDIMessage] with any bytes (also too few) and the record button
    complete normally: the notes that MIDI plays have a frequency and the
    slot that is toggled exists.  [handleKey] completes normally too,
    except when a key goes down whose text is a name that [KEY_MAP]
    inherits, such as [constructor]: what [KEY_MAP] holds there is not a
    note, and [playNote] throws on it. *)
Theorem inputs_throw_on_inherited_keys_only volume tr :
  let app := fst (app_run tr (app_start volume)) in
  (forall k down,
     fst (fst (handleKey k down app))
     = if down && inherited k then throw TypeError else normal)
  /\ (forall data, fst (fst (onMIDIMessage data app)) = normal)
  /\ fst (fst (app_toggleRecord app)) = normal.
Proof.
  intros app. destruct (app_reach volume tr) as (Hsel & ltr & Hw & _).
  fold app in Hsel, Hw.
  assert (Hinit : initialized (audio (world app)) = true).
  { rewrite Hw, run_initialized. reflexivity. }
  assert (Hrec : fst (fst (app_toggleRecord app)) = normal).
  { destruct (app_toggleRecord_world app) as (_ & _ & _ & ->).
    rewrite Hw. apply toggleRecord_normal_in_range, Hsel. }
  assert (Hplay : forall note, is_Some (NOTE_FREQS !! note) ->
            fst (fst (app_playNote note app)) = normal).
  { intros note Hn. unfold app_playNote.
    pose proof (playNote_normal (audio (world app)) note (synth app) Hn).
    destruct (playNote _ _ _) as [[c s] o]. assumption. }
  assert (Hstop : forall note, is_Some (NOTE_FREQS !! note) ->
            fst (fst (app_stopNote note app)) = normal).
  { intros note Hn. unfold app_stopNote.
    pose proof (stopNote_normal (audio (world app)) note (synth app) Hn).
    destruct (stopNote _ _ _) as [[c s] o]. assumption. }
  split; [|split; [|exact Hrec]].
  - intros k down. unfold handleKey.
    destruct (String.eqb k " ") eqn:Hsp.
    + apply String.eqb_eq in Hsp. subst k.
      change (inherited " ") with false. rewrite andb_false_r.
      destruct down; [exact Hrec|reflexivity].
    + pose proof (get_KEY_MAP k) as H.
      destruct (get KEY_MAP k) as [note| |].
      * rewrite (KEY_MAP_not_inherited k note H), andb_false_r.
        destruct down; [apply Hplay|apply Hstop];
          exact (KEY_MAP_has_freq k note H).
      * destruct H as [_ H]. rewrite H, andb_true_r.
        destruct down; [|reflexivity].
        unfold app_playNote_inherited, playNote_inherited.
        rewrite Hinit. reflexivity.
      * destruct H as [_ H]. rewrite H, andb_false_r. reflexivity.
  - intros data.
    destruct (onMIDIMessage_cases data app) as [E|[(m & n & Hn & [E|E])|E]];
      rewrite E; eauto using midiNoteToName_has_freq.
Qed.

Lemma voices_known volume tr :
  let app := fst (app_run tr (app_start volume)) in
  map_Forall (fun n v => NOTE_FREQS !! n = Some (frequency v))
    (activeOscillators (synth app)).
Proof.
  set (P := fun s : Synthesizer =>
              map_Forall (fun n v => NOTE_FREQS !! n = Some (frequency v))
                (activeOscillators s)).
  assert (Pplay : forall a note s, P s -> P (snd (fst (playNote a note s)))).
  { intros a note s Hs. unfold playNote.
    destruct (negb (initialized a)); [exact Hs|].
    destruct (mode s); [|exact Hs].
    destruct (get (activeOscillators s) note); [exact Hs|exact Hs|].
    destruct (get NOTE_FREQS note) as [f| |] eqn:Hf; [|exact Hs|exact Hs].
    cbn [fst snd]. unfold P. cbn [activeOscillators].
    apply map_Forall_insert_2; [exact (get_Own _ _ _ Hf) | exact Hs]. }
  assert (Pstop : forall a note s, P s ->
            P (snd (fst (stopNote a note s)))).
  { intros a note s Hs. unfold stopNote.
    destruct (negb (initialized a)); [exact Hs|].
    destruct (mode s); [|exact Hs].
    destruct (get (activeOscillators s) note); [|exact Hs|exact Hs].
    cbn [fst snd]. unfold P. cbn [activeOscillators].
    apply map_Forall_delete. exact Hs. }
  assert (Happ_play : forall note app, P (synth app) ->
            P (synth (snd (fst (app_playNote note app))))).
  { intros note app Hs. unfold app_playNote.
    specialize (Pplay (audio (world app)) note (synth app) Hs).
    destruct (playNote _ _ _) as [[c s] o]. exact Pplay. }
  assert (Happ_stop : forall note app, P (synth app) ->
            P (synth (snd (fst (app_stopNote note app))))).
  { intros note app Hs. unfold app_stopNote.
    specialize (Pstop (audio (world app)) note (synth app) Hs).
    destruct (stopNote _ _ _) as [[c s] o]. exact Pstop. }
  assert (Happ_rec : forall app, P (synth app) ->
            P (synth (snd (fst (app_toggleRecord app))))).
  { intros app Hs. destruct (app_toggleRecord_world app) as (_ & _ & -> & _).
    exact Hs. }
  assert (Hstep : forall ev app, P (synth app) ->
            P (synth (fst (app_exec ev app)))).
  { intros ev app Hs. destruct ev; cbn [app_exec].
    - destruct (handleKey_cases k true app)
        as [E|[(n & _ & [E|E])|[E|(_ & _ & c & E)]]];
        rewrite E; [exact Hs | | | | exact Hs].
      + specialize (Happ_play n app Hs).
        destruct (app_playNote n app) as [[c a'] o]. exact Happ_play.
      + specialize (Happ_stop n app Hs).
        destruct (app_stopNote n app) as [[c a'] o]. exact Happ_stop.
      + specialize (Happ_rec app Hs).
        destruct (app_toggleRecord app) as [[c a'] o]. exact Happ_rec.
    - destruct (handleKey_cases k false app)
        as [E|[(n & _ & [E|E])|[E|(_ & _ & c & E)]]];
        rewrite E; [exact Hs | | | | exact Hs].
      + specialize (Happ_play n app Hs).
        destruct (app_playNote n app) as [[c a'] o]. exact Happ_play.
      + specialize (Happ_stop n app Hs).
        destruct (app_stopNote n app) as [[c a'] o]. exact Happ_stop.
      + specialize (Happ_rec app Hs).
        destruct (app_toggleRecord app) as [[c a'] o]. exact Happ_rec.
    - specialize (Happ_play note app Hs).
      destruct (app_playNote note app) as [[c a'] o]. exact Happ_play.
    - specialize (Happ_stop note app Hs).
      destruct (app_stopNote note app) as [[c a'] o]. exact Happ_stop.
    - destruct (onMIDIMessage_cases data app)
        as [E|[(m & n & _ & [E|E])|E]];
        rewrite E; [exact Hs | | |].
      + specialize (Happ_play n app Hs).
        destruct (app_playNote n app) as [[c a'] o]. exact Happ_play.
      + specialize (Happ_stop n app Hs).
        destruct (app_stopNote n app) as [[c a'] o]. exact Happ_stop.
      + specialize (Happ_rec app Hs).
        destruct (app_toggleRecord app) as [[c a'] o]. exact Happ_rec.
    - exact Hs.
    - exact Hs.
    - specialize (Happ_rec app Hs).
      destruct (app_toggleRecord app) as [[c a'] o]. exact Happ_rec.
    - exact Hs.
    - cbn [fst]. destruct (i <? 3)%nat; exact Hs.
    - destruct (slots (world app) !! i); exact Hs.
    - cbn [fst]. destruct (browser_event ev); exact Hs. }
  assert (Hrun : forall tr app, P (synth app) ->
            P (synth (fst (app_run tr app)))).
  { clear tr. intros tr. induction tr as [|ev tr IH]; intros app HR;
      [exact HR|].
    cbn [app_run]. specialize (Hstep ev app HR).
    destruct (app_exec ev app) as [app1 out1]. specialize (IH app1 Hstep).
    destruct (app_run tr app1) as [app2 out2]. exact IH. }
  apply Hrun. apply map_Forall_empty.
Qed.

(** At most thirteen oscillators.  In every state the application
    reaches, every oscillator in [activeOscillators] belongs to a note
    with a frequency and sounds at that frequency, whatever notes the
    piano keys of the page carry; so no more than thirteen sound at a
    time. *)
Theorem voices_bounded volume tr :
  let app := fst (app_run tr (app_start volume)) in
  map_Forall (fun n v => NOTE_FREQS !! n = Some (frequency v))
    (activeOscillators (synth app))
  /\ size (activeOscillators (synth app)) <= 13.
Proof.
  intros app. pose proof (voices_known volume tr) as Hk. fold app in Hk.
  split; [exact Hk|].
  rewrite <- (size_dom (D := gset string)).
  replace 13 with (size (dom NOTE_FREQS : gset string))
    by (rewrite size_dom; vm_compute; reflexivity).
  apply subseteq_size. intros n Hn. apply elem_of_dom in Hn as [v Hv].
  apply elem_of_dom. rewrite (Hk n v Hv). eauto.
Qed.

End KeysFacts.

(** ** The level meter *)

Section MeterFacts.
Import Meter.
Local Open Scope Q_scope.

Lemma sum_nonneg (l : list Z) (acc : Z) :
  Forall (fun b => (0 <= b <= 255)%Z) l -> (0 <= acc)%Z ->
  (0 <= fold_left Z.add l acc)%Z.
Proof.
  intros Hl. revert acc. induction Hl as [|b l Hb _ IH]; intros acc Ha;
    simpl; [exact Ha|].
  apply IH. lia.
Qed.

(** The meter stays on its scale.  For any bytes of the analyser (at
    least one) the width set on the meter is between 0 and 100 percent,
    and it is 100 exactly when the bytes average 200/3 or more. *)
Theorem meter_width_in_range dataArray :
  dataArray <> [] -> Forall (fun b => (0 <= b <= 255)%Z) dataArray ->
  0 <= fst (draw dataArray) <= 100
  /\ (fst (draw dataArray) == 100 <->
      (200 * Z.of_nat (length dataArray)
       <= 3 * fold_left Z.add dataArray 0)%Z).
Proof.
  intros Hne Hb. unfold draw. cbn [fst].
  set (sum := fold_left Z.add dataArray 0%Z).
  set (len := Z.of_nat (length dataArray)).
  assert (Hsum : (0 <= sum)%Z) by (apply sum_nonneg; [exact Hb | lia]).
  assert (Hlen : (0 < len)%Z).
  { unfold len. destruct dataArray; [contradiction | simpl; lia]. }
  assert (HS : 0 <= inject_Z sum).
  { change 0 with (inject_Z 0). rewrite <- Zle_Qle. exact Hsum. }
  assert (HL : 0 < inject_Z len).
  { change 0 with (inject_Z 0). rewrite <- Zlt_Qlt. exact Hlen. }
  set (avg := inject_Z sum / inject_Z len).
  assert (Havg : avg * inject_Z len == inject_Z sum)
    by (unfold avg; field; lra).
  assert (Hap : 0 <= avg).
  { unfold avg. apply Qle_shift_div_l; lra. }
  assert (Hiff : 100 <= avg * (15 # 10) <-> (200 * len <= 3 * sum)%Z).
  { rewrite Zle_Qle, !inject_Z_mult.
    change (inject_Z 200) with 200. change (inject_Z 3) with 3.
    rewrite <- Havg. split; intros H.
    - assert (H' : 100 * inject_Z len <= avg * (15 # 10) * inject_Z len)
        by (apply Qmult_le_compat_r; lra).
      lra.
    - apply (Qmult_le_r _ _ (inject_Z len)); [exact HL|]. lra. }
  destruct (Q.min_spec 100 (avg * (15 # 10))) as [[Hlt ->]|[Hle ->]].
  - split; [lra|]. split; [intros _; apply Hiff; lra | reflexivity].
  - split; [lra|]. rewrite <- Hiff. split; intros H; lra.
Qed.

Lemma meter_width_in_range_witness :
  0 <= fst (draw [0; 255; 10]%Z) <= 100
  /\ (fst (draw [0; 255; 10]%Z) == 100 <->
      (200 * Z.of_nat (length [0; 255; 10]%Z)
       <= 3 * fold_left Z.add [0; 255; 10]%Z 0)%Z).
Proof.
  apply (meter_width_in_range [0; 255; 10]%Z); [discriminate|].
  repeat constructor; lia.
Defined.

End MeterFacts.

(** * The note looper of [script.js] *)

Section NoteLooperFacts.
Import NoteLooper.
Local Close Scope Q_scope.
Local Open Scope Z_scope.

Lemma same_ctl_refl l : same_ctl l l.
Proof. unfold same_ctl. tauto. Qed.

Lemma same_ctl_trans l1 l2 l3 :
  same_ctl l1 l2 -> same_ctl l2 l3 -> same_ctl l1 l3.
Proof. unfold same_ctl. intuition congruence. Qed.

Lemma appends_refl now l : appends now l l.
Proof.
  exists []. rewrite app_nil_r. split; [reflexivity|]. split; [constructor|].
  reflexivity.
Qed.

Lemma appends_trans now l1 l2 l3 :
  same_ctl l1 l2 -> appends now l1 l2 -> appends now l2 l3 ->
  appends now l1 l3.
Proof.
  intros (Hr & _ & Hs & _) (e1 & H1 & F1 & N1) (e2 & H2 & F2 & N2).
  exists (e1 ++ e2)%list. split; [|split].
  - rewrite H2, H1, app_assoc. reflexivity.
  - apply Forall_app. split; [exact F1|]. rewrite <- Hs. exact F2.
  - intros Hn. rewrite (N1 Hn), (N2 ltac:(congruence)). reflexivity.
Qed.

Lemma stopNote_ctl now n l : same_ctl l (stopNote now n l).
Proof.
  unfold stopNote, same_ctl.
  destruct (has n (activeOscillators l)); simpl;
    destruct (isRecording l) eqn:Hr; simpl; rewrite ?Hr;
    repeat split; reflexivity.
Qed.

Lemma stopNote_appends now n l : appends now l (stopNote now n l).
Proof.
  unfold stopNote, appends.
  destruct (has n (activeOscillators l)); simpl;
    destruct (isRecording l) eqn:Hr; simpl.
  all: first
    [ eexists [_]; split; [reflexivity|]; split;
      [constructor; [reflexivity|constructor]|discriminate]
    | exists []; rewrite app_nil_r; split; [reflexivity|]; split;
      [constructor|reflexivity] ].
Qed.

Lemma delete_note_absent n a : has n a = false -> delete_note n a = a.
Proof.
  unfold has, delete_note. induction a as [|p a IH]; simpl; [reflexivity|].
  intros H. apply orb_false_iff in H as [H1 H2].
  rewrite H1. simpl. rewrite IH by exact H2. reflexivity.
Qed.

Lemma stopNote_active now n l :
  activeOscillators (stopNote now n l) = delete_note n (activeOscillators l).
Proof.
  unfold stopNote.
  destruct (has n (activeOscillators l)) eqn:Hh; simpl;
    destruct (isRecording l); simpl; try reflexivity.
  all: symmetry; apply delete_note_absent; exact Hh.
Qed.

Lemma playNote_ctl now n v l : same_ctl l (playNote now n v l).
Proof.
  unfold playNote.
  set (l1 := if has n (activeOscillators l) then stopNote now n l else l).
  assert (H1 : same_ctl l l1).
  { subst l1. destruct (has n (activeOscillators l));
      [apply stopNote_ctl | apply same_ctl_refl]. }
  destruct (noteFrequencies !! n); [|exact H1].
  apply (same_ctl_trans _ _ _ H1).
  unfold same_ctl. cbn [isRecording set_active].
  destruct (isRecording l1) eqn:Hr; simpl; rewrite ?Hr;
    repeat split; reflexivity.
Qed.

Lemma playNote_appends now n v l : appends now l (playNote now n v l).
Proof.
  unfold playNote.
  set (l1 := if has n (activeOscillators l) then stopNote now n l else l).
  assert (H1 : same_ctl l l1).
  { subst l1. destruct (has n (activeOscillators l));
      [apply stopNote_ctl | apply same_ctl_refl]. }
  assert (A1 : appends now l l1).
  { subst l1. destruct (has n (activeOscillators l));
      [apply stopNote_appends | apply appends_refl]. }
  destruct (noteFrequencies !! n); [|exact A1].
  apply (appends_trans _ _ _ _ H1 A1).
  unfold appends. cbn [isRecording set_active].
  destruct (isRecording l1) eqn:Hr; simpl.
  - eexists [_]. split; [reflexivity|]. split;
      [constructor; [reflexivity|constructor]|discriminate].
  - exists []. rewrite app_nil_r. split; [reflexivity|]. split;
      [constructor|reflexivity].
Qed.

Lemma stop_each_ctl now (xs : list (Z * Q)) l :
  same_ctl l (fold_left (fun l' p => stopNote now (fst p) l') xs l).
Proof.
  revert l. induction xs as [|p xs IH]; intros l; simpl.
  - apply same_ctl_refl.
  - eapply same_ctl_trans; [apply (stopNote_ctl now (fst p))|apply IH].
Qed.

Lemma stop_each_appends now (xs : list (Z * Q)) l :
  appends now l (fold_left (fun l' p => stopNote now (fst p) l') xs l).
Proof.
  revert l. induction xs as [|p xs IH]; intros l; simpl.
  - apply appends_refl.
  - eapply appends_trans; [apply (stopNote_ctl now (fst p))
                          |apply stopNote_appends|apply IH].
Qed.

Lemma delete_note_comm n m a :
  delete_note n (delete_note m a) = delete_note m (delete_note n a).
Proof.
  unfold delete_note. induction a as [|p a IH]; simpl; [reflexivity|].
  destruct (fst p =? m) eqn:Hm, (fst p =? n) eqn:Hn; simpl;
    rewrite ?Hm, ?Hn; simpl; rewrite IH; reflexivity.
Qed.

Lemma delete_note_head n f a :
  delete_note n ((n, f) :: a) = delete_note n a.
Proof. unfold delete_note. simpl. rewrite Z.eqb_refl. reflexivity. Qed.

Lemma stop_each_active now (xs : list (Z * Q)) l :
  activeOscillators (fold_left (fun l' p => stopNote now (fst p) l') xs l)
  = fold_left (fun a p => delete_note (fst p) a) xs (activeOscillators l).
Proof.
  revert l. induction xs as [|p xs IH]; intros l; simpl; [reflexivity|].
  rewrite IH, stopNote_active. reflexivity.
Qed.

Lemma delete_all_nil (xs : list (Z * Q)) :
  fold_left (fun a p => delete_note (fst p) a) xs [] = [].
Proof. induction xs as [|p xs IH]; simpl; [reflexivity|exact IH]. Qed.

Lemma delete_all_comm (xs : list (Z * Q)) n a :
  fold_left (fun a p => delete_note (fst p) a) xs (delete_note n a)
  = delete_note n (fold_left (fun a p => delete_note (fst p) a) xs a).
Proof.
  revert a. induction xs as [|p xs IH]; intros a; simpl; [reflexivity|].
  rewrite delete_note_comm. apply IH.
Qed.

Lemma delete_all_self (a : list (Z * Q)) :
  fold_left (fun a p => delete_note (fst p) a) a a = [].
Proof.
  induction a as [|[n f] a IH]; [reflexivity|].
  cbn [fold_left fst]. rewrite delete_note_head.
  rewrite delete_all_comm, IH. reflexivity.
Qed.

(** *** The timeouts *)

Lemma TInv_ctl l l' : same_ctl l l' -> TInv l -> TInv l'.
Proof.
  unfold same_ctl, TInv. intros (_ & Hp & _ & _ & Hpt & Ht & _) [H1 H2].
  rewrite Hp, Hpt, Ht. split; assumption.
Qed.

Lemma cancel_all (pts : list nat) (ts : list Timer) :
  Forall (fun t => In (timer_id t) pts) ts ->
  List.filter (fun t => negb (existsb (Nat.eqb (timer_id t)) pts)) ts = [].
Proof.
  induction 1 as [|t ts Ht _ IH]; simpl; [reflexivity|].
  assert (He : existsb (Nat.eqb (timer_id t)) pts = true).
  { apply existsb_exists. exists (timer_id t). split; [exact Ht|].
    apply Nat.eqb_refl. }
  rewrite He. simpl. exact IH.
Qed.

Lemma stopPlayback_timers now l :
  TInv l -> timers (stopPlayback now l) = [].
Proof.
  intros [H _]. unfold stopPlayback.
  destruct (stop_each_ctl now (activeOscillators l)
    {| activeOscillators := activeOscillators l;
       isRecording := isRecording l; isPlaying := false;
       recordedNotes := recordedNotes l;
       recordStartTime := recordStartTime l; loopDuration := loopDuration l;
       playbackTimeouts := [];
       timers := List.filter
                   (fun t => negb (existsb (Nat.eqb (timer_id t))
                                     (playbackTimeouts l)))
                   (timers l);
       next_id := next_id l |}) as (_ & _ & _ & _ & _ & Ht & _).
  cbn [activeOscillators] in Ht |- *. rewrite Ht. cbn [timers].
  apply cancel_all. exact H.
Qed.

Lemma stopPlayback_flags now l :
  isPlaying (stopPlayback now l) = false /\
  isRecording (stopPlayback now l) = isRecording l /\
  playbackTimeouts (stopPlayback now l) = [] /\
  recordStartTime (stopPlayback now l) = recordStartTime l /\
  loopDuration (stopPlayback now l) = loopDuration l /\
  next_id (stopPlayback now l) = next_id l.
Proof.
  unfold stopPlayback.
  destruct (stop_each_ctl now (activeOscillators l)
    {| activeOscillators := activeOscillators l;
       isRecording := isRecording l; isPlaying := false;
       recordedNotes := recordedNotes l;
       recordStartTime := recordStartTime l; loopDuration := loopDuration l;
       playbackTimeouts := [];
       timers := List.filter
                   (fun t => negb (existsb (Nat.eqb (timer_id t))
                                     (playbackTimeouts l)))
                   (timers l);
       next_id := next_id l |}) as (Hr & Hp & Hs & Hd & Hpt & _ & Hn).
  cbn [activeOscillators] in *. rewrite Hr, Hp, Hs, Hd, Hpt, Hn.
  repeat split; reflexivity.
Qed.

Lemma stopPlayback_active now l :
  activeOscillators (stopPlayback now l) = [].
Proof.
  unfold stopPlayback. cbn [activeOscillators].
  rewrite stop_each_active. cbn [activeOscillators].
  apply delete_all_self.
Qed.

Lemma stopPlayback_appends now l : appends now l (stopPlayback now l).
Proof.
  unfold stopPlayback.
  destruct (stop_each_appends now (activeOscillators l)
    {| activeOscillators := activeOscillators l;
       isRecording := isRecording l; isPlaying := false;
       recordedNotes := recordedNotes l;
       recordStartTime := recordStartTime l; loopDuration := loopDuration l;
       playbackTimeouts := [];
       timers := List.filter
                   (fun t => negb (existsb (Nat.eqb (timer_id t))
                                     (playbackTimeouts l)))
                   (timers l);
       next_id := next_id l |}) as (evs & H1 & H2 & H3).
  exists evs. cbn [activeOscillators recordedNotes recordStartTime isRecording]
    in *. split; [exact H1|]. split; assumption.
Qed.

Lemma TInv_stopPlayback now l : TInv l -> TInv (stopPlayback now l).
Proof.
  intros H. unfold TInv. rewrite (stopPlayback_timers now l H).
  split; [constructor|reflexivity].
Qed.

Lemma push_each_take now (es : list NoteEvent) l :
  same_take l
    (fold_left
       (fun l' e => push_timeout now (timestamp e) (PlayRecorded e) l') es l)
  /\ isPlaying
       (fold_left
          (fun l' e => push_timeout now (timestamp e) (PlayRecorded e) l')
          es l) = isPlaying l.
Proof.
  revert l. induction es as [|e es IH]; intros l; simpl.
  - unfold same_take. repeat split; reflexivity.
  - destruct (IH (push_timeout now (timestamp e) (PlayRecorded e) l))
      as [(H1 & H2 & H3 & H4 & H5) H6].
    unfold same_take. rewrite H1, H2, H3, H4, H5, H6.
    repeat split; reflexivity.
Qed.

Lemma push_each_timers now (es : list NoteEvent) l :
  let l' := fold_left
       (fun l' e => push_timeout now (timestamp e) (PlayRecorded e) l') es l
  in
  List.map (fun t => (due t, action t)) (timers l')
  = (List.map (fun t => (due t, action t)) (timers l)
     ++ List.map (fun e => (now + timestamp e, PlayRecorded e)) es)%list /\
  List.map timer_id (timers l')
  = (List.map timer_id (timers l) ++ List.seq (next_id l) (length es))%list /\
  playbackTimeouts l'
  = (playbackTimeouts l ++ List.seq (next_id l) (length es))%list /\
  next_id l' = (next_id l + length es)%nat.
Proof.
  revert l. induction es as [|e es IH]; intros l; cbn zeta.
  - simpl. rewrite !app_nil_r, Nat.add_0_r. repeat split; reflexivity.
  - cbn [fold_left].
    destruct (IH (push_timeout now (timestamp e) (PlayRecorded e) l))
      as (H1 & H2 & H3 & H4).
    cbn zeta in *. rewrite H1, H2, H3, H4.
    cbn [push_timeout timers playbackTimeouts next_id due action timer_id
         length List.seq List.map].
    rewrite !List.map_app. cbn [List.map due action timer_id].
    rewrite <- !app_assoc. cbn [app].
    repeat split; try reflexivity. lia.
Qed.

Lemma TInv_push now d a l :
  Forall (fun t => In (timer_id t) (playbackTimeouts l)) (timers l) ->
  Forall (fun t => In (timer_id t)
                     (playbackTimeouts (push_timeout now d a l)))
    (timers (push_timeout now d a l)).
Proof.
  intros H. cbn [push_timeout timers playbackTimeouts].
  apply Forall_app. split.
  - eapply Forall_impl; [exact H|]. intros t Ht. apply in_or_app.
    left. exact Ht.
  - constructor; [|constructor]. apply in_or_app. right. left. reflexivity.
Qed.

Lemma TInv_push_each now (es : list NoteEvent) l :
  Forall (fun t => In (timer_id t) (playbackTimeouts l)) (timers l) ->
  let l' := fold_left
       (fun l' e => push_timeout now (timestamp e) (PlayRecorded e) l') es l
  in Forall (fun t => In (timer_id t) (playbackTimeouts l')) (timers l').
Proof.
  revert l. induction es as [|e es IH]; intros l H; cbn zeta.
  - exact H.
  - cbn [fold_left]. apply IH. apply TInv_push. exact H.
Qed.

Lemma playLoop_playing now l : isPlaying (playLoop now l) = isPlaying l.
Proof.
  unfold playLoop. destruct (isPlaying l) eqn:Hp; [|exact Hp].
  cbn [push_timeout isPlaying].
  rewrite (proj2 (push_each_take now (recordedNotes l) l)). exact Hp.
Qed.

Lemma playLoop_take now l : same_take l (playLoop now l).
Proof.
  unfold playLoop. destruct (isPlaying l).
  - destruct (push_each_take now (recordedNotes l) l)
      as [(H1 & H2 & H3 & H4 & H5) _].
    unfold same_take.
    cbn [push_timeout activeOscillators isRecording recordedNotes
         recordStartTime loopDuration].
    rewrite H1, H2, H3, H4, H5. repeat split; reflexivity.
  - unfold same_take. repeat split; reflexivity.
Qed.

Lemma TInv_playLoop now l :
  isPlaying l = true -> TInv l -> TInv (playLoop now l).
Proof.
  intros Hp [H _]. split.
  - unfold playLoop. rewrite Hp. apply TInv_push.
    apply (TInv_push_each now (recordedNotes l) l H).
  - rewrite playLoop_playing, Hp. discriminate.
Qed.

Lemma TInv_startPlayback now l :
  isPlaying l = false -> TInv l -> TInv (startPlayback now l).
Proof.
  intros Hp H. unfold startPlayback.
  destruct ((length (recordedNotes l) =? 0)%nat || (loopDuration l =? 0));
    [exact H|].
  apply TInv_playLoop; [reflexivity|].
  destruct H as [H1 H2]. split; [exact H1|discriminate].
Qed.

Lemma TInv_end_recording now l : TInv l -> TInv (end_recording now l).
Proof. intros H. exact H. Qed.

Lemma TInv_stop now l : TInv l -> TInv (stop now l).
Proof.
  intros H. unfold stop. apply TInv_stopPlayback.
  destruct (isRecording l); [apply TInv_end_recording|]; exact H.
Qed.

Lemma TInv_fire now a l : TInv l -> TInv (fire now a l).
Proof.
  intros H. destruct a as [e|]; simpl.
  - destruct (isPlaying l); [|exact H].
    destruct (type e).
    + eapply TInv_ctl; [apply playNote_ctl|exact H].
    + eapply TInv_ctl; [apply stopNote_ctl|exact H].
  - destruct (isPlaying l) eqn:Hp; [|exact H].
    apply TInv_playLoop; assumption.
Qed.

Lemma handleMIDIMessage_cases now data l :
  handleMIDIMessage now data l = l \/
  (exists n v, handleMIDIMessage now data l = playNote now n v l) \/
  (exists n, handleMIDIMessage now data l = stopNote now n l).
Proof.
  unfold handleMIDIMessage.
  repeat match goal with
         | |- context [if ?c then _ else _] => destruct c
         end; eauto.
Qed.

Lemma TInv_exec now a l : TInv l -> TInv (exec now a l).
Proof.
  intros H. destruct a as [n v|n| | | | |data|id]; simpl.
  - eapply TInv_ctl; [apply playNote_ctl|exact H].
  - eapply TInv_ctl; [apply stopNote_ctl|exact H].
  - unfold toggleRecord. destruct (isRecording l).
    + apply TInv_end_recording. exact H.
    + exact (TInv_stop now l H).
  - unfold togglePlay. destruct (isPlaying l) eqn:Hp.
    + apply TInv_stopPlayback. exact H.
    + apply TInv_startPlayback; assumption.
  - apply TInv_stop. exact H.
  - exact (TInv_stop now l H).
  - destruct (handleMIDIMessage_cases now data l)
      as [E|[(n & v & E)|(n & E)]]; rewrite E.
    + exact H.
    + eapply TInv_ctl; [apply playNote_ctl|exact H].
    + eapply TInv_ctl; [apply stopNote_ctl|exact H].
  - destruct (List.find _ (timers l)) as [t|]; [|exact H].
    destruct (due t <=? now); [|exact H].
    apply TInv_fire. destruct H as [H1 H2]. split; cbn [timers
      playbackTimeouts isPlaying].
    + apply Forall_forall. intros t' Ht'. apply list_elem_of_In in Ht'.
      apply filter_In in Ht' as [Ht' _].
      rewrite Forall_forall in H1. apply H1. apply list_elem_of_In.
      exact Ht'.
    + intros Hp. rewrite (H2 Hp). reflexivity.
Qed.

Lemma TInv_new : TInv new_OoperLooper.
Proof. split; [constructor|reflexivity]. Qed.

Lemma TInv_run tr l : TInv l -> TInv (run tr l).
Proof.
  revert l. induction tr as [|[t a] tr IH]; intros l H; simpl; [exact H|].
  apply IH. apply TInv_exec. exact H.
Qed.

(** *** The recorded events *)

Lemma sorted_ts_app ns evs x :
  sorted_ts ns ->
  Forall (fun e => timestamp e <= x) ns ->
  Forall (fun e => timestamp e = x) evs ->
  sorted_ts (ns ++ evs).
Proof.
  intros Hs Hle Heq i j e1 e2 Hij H1 H2.
  destruct (decide (j < length ns)%nat) as [Hj|Hj].
  - rewrite lookup_app_l in H1 by lia. rewrite lookup_app_l in H2 by lia.
    exact (Hs i j e1 e2 Hij H1 H2).
  - rewrite lookup_app_r in H2 by lia.
    pose proof (Forall_lookup_1 _ _ _ _ Heq H2) as E2. simpl in E2.
    destruct (decide (i < length ns)%nat) as [Hi|Hi].
    + rewrite lookup_app_l in H1 by lia.
      pose proof (Forall_lookup_1 _ _ _ _ Hle H1) as E1. simpl in E1. lia.
    + rewrite lookup_app_r in H1 by lia.
      pose proof (Forall_lookup_1 _ _ _ _ Heq H1) as E1. simpl in E1. lia.
Qed.

Lemma RInv_appends t now l l' :
  t <= now -> RInv t l ->
  isRecording l' = isRecording l ->
  recordStartTime l' = recordStartTime l ->
  loopDuration l' = loopDuration l ->
  appends now l l' -> RInv now l'.
Proof.
  intros Ht (Hs & Hn & Hc) Er Es Ed (evs & En & Fe & Hnil).
  unfold RInv. rewrite Er, Es, Ed, En.
  destruct (isRecording l) eqn:Hr.
  - destruct Hc as [Hst Hle].
    assert (Hle' : Forall (fun e => timestamp e <= now - recordStartTime l)
                     (recordedNotes l)).
    { eapply Forall_impl; [exact Hle|]. simpl. intros e He. lia. }
    split; [eapply sorted_ts_app; eassumption|]. split.
    + apply Forall_app. split; [exact Hn|].
      eapply Forall_impl; [exact Fe|]. simpl. intros e He. lia.
    + split; [lia|]. apply Forall_app. split; [exact Hle'|].
      eapply Forall_impl; [exact Fe|]. simpl. intros e He. lia.
  - rewrite (Hnil eq_refl), app_nil_r. repeat split; assumption.
Qed.

Lemma RInv_ctl t now l l' :
  t <= now -> RInv t l -> same_ctl l l' -> appends now l l' -> RInv now l'.
Proof.
  intros Ht H (Hr & _ & Hs & Hd & _) Ha.
  exact (RInv_appends t now l l' Ht H Hr Hs Hd Ha).
Qed.

Lemma RInv_later t now l : t <= now -> RInv t l -> RInv now l.
Proof.
  intros Ht H.
  exact (RInv_ctl t now l l Ht H (same_ctl_refl l) (appends_refl now l)).
Qed.

Lemma RInv_take t l l' : same_take l l' -> RInv t l -> RInv t l'.
Proof.
  intros (_ & Hr & Hn & Hs & Hd). unfold RInv.
  rewrite Hr, Hn, Hs, Hd. tauto.
Qed.

Lemma RInv_end_recording t now l :
  t <= now -> isRecording l = true -> RInv t l ->
  RInv now (end_recording now l).
Proof.
  intros Ht Hr (Hs & Hn & Hc). rewrite Hr in Hc. destruct Hc as [_ Hle].
  unfold RInv, end_recording. cbn [recordedNotes isRecording loopDuration].
  split; [exact Hs|]. split; [exact Hn|].
  eapply Forall_impl; [exact Hle|]. simpl. intros e He. lia.
Qed.

Lemma RInv_stopPlayback t now l :
  t <= now -> RInv t l -> RInv now (stopPlayback now l).
Proof.
  intros Ht H.
  destruct (stopPlayback_flags now l) as (_ & Hr & _ & Hs & Hd & _).
  exact (RInv_appends t now l _ Ht H Hr Hs Hd (stopPlayback_appends now l)).
Qed.

Lemma RInv_stop t now l : t <= now -> RInv t l -> RInv now (stop now l).
Proof.
  intros Ht H. unfold stop. destruct (isRecording l) eqn:Hr.
  - apply (RInv_stopPlayback now now); [lia|].
    apply (RInv_end_recording t); assumption.
  - apply (RInv_stopPlayback t now); assumption.
Qed.

Lemma stop_not_recording now l : isRecording (stop now l) = false.
Proof.
  unfold stop.
  destruct (stopPlayback_flags now
              (if isRecording l then end_recording now l else l))
    as (_ & Hr & _).
  rewrite Hr. destruct (isRecording l) eqn:E; [reflexivity|exact E].
Qed.

Lemma RInv_startPlayback t now l : RInv t l -> RInv t (startPlayback now l).
Proof.
  intros H. unfold startPlayback.
  destruct ((length (recordedNotes l) =? 0)%nat || (loopDuration l =? 0));
    [exact H|].
  eapply RInv_take; [apply playLoop_take|]. exact H.
Qed.

Lemma RInv_fire t now a l : t <= now -> RInv t l -> RInv now (fire now a l).
Proof.
  intros Ht H. destruct a as [e|]; simpl.
  - destruct (isPlaying l); [|exact (RInv_later t now l Ht H)].
    destruct (type e).
    + exact (RInv_ctl t now l _ Ht H (playNote_ctl _ _ _ _)
               (playNote_appends _ _ _ _)).
    + exact (RInv_ctl t now l _ Ht H (stopNote_ctl _ _ _)
               (stopNote_appends _ _ _)).
  - destruct (isPlaying l); [|exact (RInv_later t now l Ht H)].
    eapply RInv_take; [apply playLoop_take|].
    exact (RInv_later t now l Ht H).
Qed.

Lemma RInv_exec t now a l : t <= now -> RInv t l -> RInv now (exec now a l).
Proof.
  intros Ht H. destruct a as [n v|n| | | | |data|id]; simpl.
  - exact (RInv_ctl t now l _ Ht H (playNote_ctl _ _ _ _)
             (playNote_appends _ _ _ _)).
  - exact (RInv_ctl t now l _ Ht H (stopNote_ctl _ _ _)
             (stopNote_appends _ _ _)).
  - unfold toggleRecord. destruct (isRecording l) eqn:Hr.
    + apply (RInv_end_recording t); assumption.
    + unfold RInv. cbn [recordedNotes isRecording recordStartTime].
      split; [intros i j e1 e2 _ H1; discriminate|].
      split; [constructor|]. split; [lia|constructor].
  - unfold togglePlay. destruct (isPlaying l).
    + apply (RInv_stopPlayback t); assumption.
    + apply RInv_startPlayback. exact (RInv_later t now l Ht H).
  - apply (RInv_stop t); assumption.
  - unfold clear, RInv. cbn [recordedNotes isRecording].
    rewrite stop_not_recording.
    split; [intros i j e1 e2 _ H1; discriminate|].
    split; constructor.
  - destruct (handleMIDIMessage_cases now data l)
      as [E|[(n & v & E)|(n & E)]]; rewrite E.
    + exact (RInv_later t now l Ht H).
    + exact (RInv_ctl t now l _ Ht H (playNote_ctl _ _ _ _)
               (playNote_appends _ _ _ _)).
    + exact (RInv_ctl t now l _ Ht H (stopNote_ctl _ _ _)
               (stopNote_appends _ _ _)).
  - destruct (List.find _ (timers l)) as [tm|];
      [|exact (RInv_later t now l Ht H)].
    destruct (due tm <=? now); [|exact (RInv_later t now l Ht H)].
    apply (RInv_fire t); [exact Ht|]. exact H.
Qed.

Lemma RInv_new t : RInv t new_OoperLooper.
Proof.
  unfold RInv. simpl. split; [intros i j e1 e2 _ H1; discriminate|].
  split; constructor.
Qed.

Lemma RInv_run tr : forall t l,
  clock_ok t tr -> RInv t l -> exists t', RInv t' (run tr l).
Proof.
  induction tr as [|[now a] tr IH]; intros t l Hc H; simpl.
  - exists t. exact H.
  - destruct Hc as [Ht Hc]. apply (IH now); [exact Hc|].
    apply (RInv_exec t); assumption.
Qed.

(** *** The sounding notes *)

Lemma AInv_delete n l l' :
  activeOscillators l' = delete_note n (activeOscillators l) ->
  AInv l -> AInv l'.
Proof.
  unfold AInv. intros E [HF HN]. rewrite E. clear E.
  induction (activeOscillators l) as [|p a IH]; [split; assumption|].
  apply Forall_cons in HF as [Hp HF]. simpl in HN.
  apply NoDup_cons in HN as [Hni HN].
  destruct (IH HF HN) as [IF IN].
  unfold delete_note in *. simpl. destruct (negb (fst p =? n)).
  - split; [constructor; assumption|]. simpl. apply NoDup_cons.
    split; [|exact IN]. intros Hin. apply Hni.
    apply list_elem_of_In in Hin. apply in_map_iff in Hin as (q & Eq & Hq).
    apply filter_In in Hq as [Hq _]. apply list_elem_of_In.
    apply in_map_iff. exists q. split; assumption.
  - split; assumption.
Qed.

Lemma set_note_keys n f a :
  has n a = true ->
  List.map fst (List.map (fun p : Z * Q => if fst p =? n then (n, f) else p) a)
  = List.map fst a.
Proof.
  intros _. induction a as [|p a IH]; simpl; [reflexivity|].
  rewrite IH. destruct (fst p =? n) eqn:E; [|reflexivity].
  simpl. apply Z.eqb_eq in E. rewrite E. reflexivity.
Qed.

Lemma has_false n a : has n a = false -> ~ In n (List.map fst a).
Proof.
  unfold has. intros H Hin. apply in_map_iff in Hin as (p & E & Hp).
  assert (Ht : existsb (fun p => fst p =? n) a = true).
  { apply existsb_exists. exists p. split; [exact Hp|].
    apply Z.eqb_eq. exact E. }
  congruence.
Qed.

Lemma AInv_set n f l l' :
  noteFrequencies !! n = Some f ->
  activeOscillators l' = set_note n f (activeOscillators l) ->
  AInv l -> AInv l'.
Proof.
  unfold AInv. intros Hf E [HF HN]. rewrite E. clear E. unfold set_note.
  destruct (has n (activeOscillators l)) eqn:Hh.
  - rewrite set_note_keys by exact Hh. split; [|exact HN].
    clear HN Hh. induction HF as [|p a Hp _ IH]; simpl; [constructor|].
    constructor; [|exact IH].
    destruct (fst p =? n); [exact Hf|exact Hp].
  - split.
    + apply Forall_app. split; [exact HF|].
      constructor; [exact Hf|constructor].
    + rewrite List.map_app. simpl. apply NoDup_app. split; [exact HN|].
      split.
      * intros x Hx Hx'. apply list_elem_of_In in Hx, Hx'.
        destruct Hx' as [<-|[]]. exact (has_false _ _ Hh Hx).
      * apply NoDup_singleton.
Qed.

Lemma AInv_stopNote now n l : AInv l -> AInv (stopNote now n l).
Proof. apply (AInv_delete n). apply stopNote_active. Qed.

Lemma AInv_playNote now n v l : AInv l -> AInv (playNote now n v l).
Proof.
  intros H. unfold playNote.
  set (l1 := if has n (activeOscillators l) then stopNote now n l else l).
  assert (H1 : AInv l1).
  { subst l1. destruct (has n (activeOscillators l));
      [apply AInv_stopNote|]; exact H. }
  destruct (noteFrequencies !! n) as [f|] eqn:Hf; [|exact H1].
  apply (AInv_set n f l1); [exact Hf| |exact H1].
  cbn [isRecording set_active]. destruct (isRecording l1); reflexivity.
Qed.

Lemma AInv_take l l' : same_take l l' -> AInv l -> AInv l'.
Proof. intros (Ha & _). unfold AInv. rewrite Ha. tauto. Qed.

Lemma AInv_none l : activeOscillators l = [] -> AInv l.
Proof.
  intros E. unfold AInv. rewrite E. split; [constructor|apply NoDup_nil_2].
Qed.

Lemma AInv_fire now a l : AInv l -> AInv (fire now a l).
Proof.
  intros H. destruct a as [e|]; simpl.
  - destruct (isPlaying l); [|exact H].
    destruct (type e); [apply AInv_playNote|apply AInv_stopNote]; exact H.
  - destruct (isPlaying l); [|exact H].
    eapply AInv_take; [apply playLoop_take|exact H].
Qed.

Lemma AInv_exec now a l : AInv l -> AInv (exec now a l).
Proof.
  intros H. destruct a as [n v|n| | | | |data|id]; simpl.
  - apply AInv_playNote. exact H.
  - apply AInv_stopNote. exact H.
  - unfold toggleRecord. destruct (isRecording l); [exact H|].
    apply AInv_none. cbn [activeOscillators]. apply stopPlayback_active.
  - unfold togglePlay. destruct (isPlaying l).
    + apply AInv_none. apply stopPlayback_active.
    + unfold startPlayback.
      destruct ((length (recordedNotes l) =? 0)%nat || (loopDuration l =? 0));
        [exact H|].
      eapply AInv_take; [apply playLoop_take|exact H].
  - apply AInv_none. apply stopPlayback_active.
  - apply AInv_none. cbn [clear activeOscillators]. apply stopPlayback_active.
  - destruct (handleMIDIMessage_cases now data l)
      as [E|[(n & v & E)|(n & E)]]; rewrite E.
    + exact H.
    + apply AInv_playNote. exact H.
    + apply AInv_stopNote. exact H.
  - destruct (List.find _ (timers l)) as [tm|]; [|exact H].
    destruct (due tm <=? now); [|exact H].
    apply AInv_fire. exact H.
Qed.

Lemma AInv_run tr l : AInv l -> AInv (run tr l).
Proof.
  revert l. induction tr as [|[t a] tr IH]; intros l H; simpl; [exact H|].
  apply IH. apply AInv_exec. exact H.
Qed.

Lemma table_note n f : noteFrequencies !! n = Some f -> In n table_notes.
Proof.
  intros H. unfold noteFrequencies in H.
  apply elem_of_list_to_map_2 in H. apply list_elem_of_In in H.
  simpl in H.
  repeat (destruct H as [H|H]; [inversion H; subst; simpl; tauto|]).
  destruct H.
Qed.

(** *** Starting the playback *)

Lemma togglePlay_starts now l :
  TInv l -> isPlaying l = false ->
  recordedNotes l <> [] -> loopDuration l <> 0 ->
  isPlaying (togglePlay now l) = true /\
  List.map (fun t => (due t, action t)) (timers (togglePlay now l))
  = schedule now l /\
  List.map timer_id (timers (togglePlay now l))
  = List.seq (next_id l) (S (length (recordedNotes l))).
Proof.
  intros [_ HT] Hp Hn Hd. specialize (HT Hp).
  unfold togglePlay. rewrite Hp. unfold startPlayback.
  assert (E1 : (length (recordedNotes l) =? 0)%nat = false).
  { destruct (recordedNotes l); [congruence|reflexivity]. }
  assert (E2 : (loopDuration l =? 0) = false) by (apply Z.eqb_neq; exact Hd).
  rewrite E1, E2. cbn [orb].
  split; [rewrite playLoop_playing; reflexivity|].
  unfold playLoop. cbn [set_isPlaying isPlaying recordedNotes].
  destruct (push_each_timers now (recordedNotes l) (set_isPlaying true l))
    as (H1 & H2 & _ & H4).
  destruct (push_each_take now (recordedNotes l) (set_isPlaying true l))
    as [(_ & _ & _ & _ & H5) _].
  cbn zeta in *. cbn [set_isPlaying timers next_id loopDuration] in *.
  rewrite HT in H1, H2. cbn [List.map app] in H1, H2.
  cbn [push_timeout timers]. rewrite !List.map_app, H1, H2, H4, H5.
  cbn [List.map due action timer_id]. split; [reflexivity|].
  rewrite seq_S. reflexivity.
Qed.

(** Stop cancels the playback ([stop] and [stopPlayback] of
    [script.js]).  From whatever the looper
    has been through, [stop] leaves no timeout of the playback waiting, no
    note sounding, and the looper neither playing nor recording; after it
    no timeout can fire. *)
Theorem stop_cancels_playback tr now :
  let l := stop now (run tr new_OoperLooper) in
  timers l = [] /\ activeOscillators l = [] /\
  isPlaying l = false /\ isRecording l = false /\
  forall now' id, exec now' (Fire id) l = l.
Proof.
  cbn zeta.
  pose proof (TInv_run tr _ TInv_new) as HT.
  assert (Ht : timers (stop now (run tr new_OoperLooper)) = []).
  { unfold stop. apply stopPlayback_timers.
    destruct (isRecording _); [apply TInv_end_recording|]; exact HT. }
  split; [exact Ht|]. split; [apply stopPlayback_active|].
  split; [apply stopPlayback_flags|]. split; [apply stop_not_recording|].
  intros now' id. cbn [exec]. rewrite Ht. reflexivity.
Qed.

(** Timeouts wait only while the loop plays ([playLoop] and
    [stopPlayback] of [script.js]).  Whenever the looper
    is not playing, no timeout of the playback is waiting: every timeout
    set by [playLoop] is cleared by the time [isPlaying] is false. *)
Theorem no_timeout_outside_playback tr :
  isPlaying (run tr new_OoperLooper) = false ->
  timers (run tr new_OoperLooper) = [].
Proof.
  intros Hp. exact (proj2 (TInv_run tr _ TInv_new) Hp).
Qed.

Lemma no_timeout_outside_playback_witness :
  let tr := [(0, ToggleRecord); (10, PlayNote 60 100); (250, StopNote 60);
             (500, ToggleRecord); (600, TogglePlay); (610, Fire 0%nat);
             (700, TogglePlay)] in
  isPlaying (run tr new_OoperLooper) = false /\
  timers (run tr new_OoperLooper) = [].
Proof.
  cbn zeta. split; [vm_compute; reflexivity|].
  apply no_timeout_outside_playback. vm_compute. reflexivity.
Defined.

(** The recorded events are ordered and within the loop ([playNote],
    [stopNote] and [toggleRecord] of [script.js]).  As long
    as the clock never goes back, the recorded events are in the order of
    their timestamps, no timestamp is negative, and once the recording
    has ended every timestamp is within the duration of the loop. *)
Theorem recorded_timestamps_ordered t0 tr :
  clock_ok t0 tr ->
  sorted_ts (recordedNotes (run tr new_OoperLooper)) /\
  Forall (fun e => 0 <= timestamp e)
    (recordedNotes (run tr new_OoperLooper)) /\
  (isRecording (run tr new_OoperLooper) = false ->
   Forall (fun e => timestamp e <= loopDuration (run tr new_OoperLooper))
     (recordedNotes (run tr new_OoperLooper))).
Proof.
  intros Hc.
  destruct (RInv_run tr t0 new_OoperLooper Hc (RInv_new t0))
    as (t' & Hs & Hn & Hr).
  split; [exact Hs|]. split; [exact Hn|].
  intros E. rewrite E in Hr. exact Hr.
Qed.

Lemma recorded_timestamps_ordered_witness :
  let tr := [(1000, ToggleRecord); (1010, PlayNote 60 100);
             (1250, Midi [144; 64; 90]); (1300, StopNote 60);
             (1300, PlayNote 64 100); (1500, ToggleRecord)] in
  clock_ok 0 tr /\
  List.map timestamp (recordedNotes (run tr new_OoperLooper))
  = [10; 250; 300; 300; 300] /\
  loopDuration (run tr new_OoperLooper) = 500 /\
  Forall (fun e => timestamp e <= loopDuration (run tr new_OoperLooper))
    (recordedNotes (run tr new_OoperLooper)).
Proof.
  cbn zeta. split; [simpl; lia|]. split; [vm_compute; reflexivity|].
  split; [vm_compute; reflexivity|].
  destruct (recorded_timestamps_ordered 0
              [(1000, ToggleRecord); (1010, PlayNote 60 100);
               (1250, Midi [144; 64; 90]); (1300, StopNote 60);
               (1300, PlayNote 64 100); (1500, ToggleRecord)])
    as (_ & _ & H); [simpl; lia|].
  apply H. vm_compute. reflexivity.
Defined.

(** What Play schedules ([togglePlay], [startPlayback] and [playLoop]
    of [script.js]).
    Pressing Play on a looper that is not playing and holds a loop sets
    one timeout per recorded event, due at the event's timestamp after
    the press and carrying that event, then one timeout for the next
    loop, due one loop duration after the press; the timeouts get fresh
    identifiers. *)
Theorem play_schedules_loop tr now :
  isPlaying (run tr new_OoperLooper) = false ->
  recordedNotes (run tr new_OoperLooper) <> [] ->
  loopDuration (run tr new_OoperLooper) <> 0 ->
  isPlaying (togglePlay now (run tr new_OoperLooper)) = true /\
  List.map (fun t => (due t, action t))
    (timers (togglePlay now (run tr new_OoperLooper)))
  = schedule now (run tr new_OoperLooper) /\
  List.map timer_id (timers (togglePlay now (run tr new_OoperLooper)))
  = List.seq (next_id (run tr new_OoperLooper))
      (S (length (recordedNotes (run tr new_OoperLooper)))).
Proof.
  intros Hp Hn Hd.
  exact (togglePlay_starts now _ (TInv_run tr _ TInv_new) Hp Hn Hd).
Qed.

Lemma play_schedules_loop_witness :
  let tr := [(1000, ToggleRecord); (1010, PlayNote 60 100);
             (1300, StopNote 60); (1500, ToggleRecord)] in
  List.map (fun t => (due t, action t))
    (timers (togglePlay 2000 (run tr new_OoperLooper)))
  = [(2010, PlayRecorded (mkNoteEvent 60 (Some 100) 10 noteOn));
     (2300, PlayRecorded (mkNoteEvent 60 None 300 noteOff));
     (2500, NextLoop)].
Proof.
  cbn zeta.
  destruct (play_schedules_loop
              [(1000, ToggleRecord); (1010, PlayNote 60 100);
               (1300, StopNote 60); (1500, ToggleRecord)] 2000)
    as (_ & H & _).
  - vm_compute. reflexivity.
  - vm_compute. discriminate.
  - vm_compute. discriminate.
  - rewrite H. vm_compute. reflexivity.
Defined.

(** A loop fits its duration ([playLoop] and [toggleRecord] of
    [script.js]).  As long as the clock
    never goes back, a loop whose recording has ended plays within its
    duration: every timeout that Play sets is due no earlier than the
    press and no later than the timeout of the next loop. *)
Theorem loop_fits_its_duration t0 tr now :
  clock_ok t0 tr ->
  isPlaying (run tr new_OoperLooper) = false ->
  isRecording (run tr new_OoperLooper) = false ->
  recordedNotes (run tr new_OoperLooper) <> [] ->
  loopDuration (run tr new_OoperLooper) <> 0 ->
  Forall
    (fun t => now <= due t <= now + loopDuration (run tr new_OoperLooper))
    (timers (togglePlay now (run tr new_OoperLooper))).
Proof.
  intros Hc Hp Hr Hn Hd.
  destruct (togglePlay_starts now _ (TInv_run tr _ TInv_new) Hp Hn Hd)
    as (_ & Hs & _).
  destruct (RInv_run tr t0 new_OoperLooper Hc (RInv_new t0))
    as (t' & _ & Hpos & Hle).
  rewrite Hr in Hle.
  assert (HD : 0 <= loopDuration (run tr new_OoperLooper)).
  { destruct (recordedNotes (run tr new_OoperLooper)) as [|e es];
      [congruence|].
    apply Forall_cons in Hpos as [H1 _]. apply Forall_cons in Hle as [H2 _].
    lia. }
  apply (proj1 (List.Forall_map (fun t => (due t, action t))
                  (fun da => now <= fst da
                             <= now + loopDuration (run tr new_OoperLooper))
                  _)).
  rewrite Hs. unfold schedule. apply Forall_app. split.
  - apply List.Forall_map. simpl.
    rewrite Forall_forall in Hpos, Hle. apply Forall_forall.
    intros e He. specialize (Hpos e He). specialize (Hle e He).
    simpl in *. lia.
  - constructor; [simpl; lia|constructor].
Qed.

Lemma loop_fits_its_duration_witness :
  let tr := [(1000, ToggleRecord); (1010, PlayNote 60 100);
             (1300, StopNote 60); (1500, ToggleRecord)] in
  clock_ok 0 tr /\
  Forall (fun t => 2000 <= due t <= 2000 + 500)
    (timers (togglePlay 2000 (run tr new_OoperLooper))).
Proof.
  cbn zeta. split; [simpl; lia|].
  apply (loop_fits_its_duration 0
           [(1000, ToggleRecord); (1010, PlayNote 60 100);
            (1300, StopNote 60); (1500, ToggleRecord)] 2000).
  - simpl. lia.
  - vm_compute. reflexivity.
  - vm_compute. reflexivity.
  - vm_compute. discriminate.
  - vm_compute. discriminate.
Defined.

(** At most twelve oscillators ([playNote], [stopNote] and
    [stopPlayback] of [script.js]).  Every
    note that sounds is a note of the table with the frequency the table
    gives it, no note has two oscillators, and so at most twelve
    oscillators are tracked at any time. *)
Theorem sounding_notes_known tr :
  Forall (fun p => noteFrequencies !! fst p = Some (snd p))
    (activeOscillators (run tr new_OoperLooper)) /\
  NoDup (List.map fst (activeOscillators (run tr new_OoperLooper))) /\
  (length (activeOscillators (run tr new_OoperLooper)) <= 12)%nat.
Proof.
  assert (H0 : AInv new_OoperLooper) by (apply AInv_none; reflexivity).
  destruct (AInv_run tr _ H0) as [HF HN].
  split; [exact HF|]. split; [exact HN|].
  rewrite <- (List.length_map fst).
  change 12%nat with (length table_notes).
  apply NoDup_incl_length; [apply NoDup_ListNoDup; exact HN|].
  intros n Hn. apply in_map_iff in Hn as (p & <- & Hp).
  rewrite Forall_forall in HF.
  apply (table_note (fst p) (snd p)). apply HF.
  apply list_elem_of_In. exact Hp.
Qed.

End NoteLooperFacts.
